(** * Geosphere weather-warning coordinator: a shallow embedding

    The development follows
    [custom_components/geosphere_wetterwarnung/coordinator.py]:

    - [Py]: the pieces of the Python runtime the coordinator calls
      ([str.strip], [str.split], [int()], [float()], [str()], truthiness,
      [dict.get], [dict()]), over JSON documents;
    - the module-level helpers [_parse_extra_coords], [_warning_key],
      [_get_end_ts], [_copy_with_end], [_extend_if_grace_applies];
    - [_async_update_data], one update cycle, as a function from the
      coordinator's fields and the cycle's inputs to an outcome and the
      new fields;
    - [_get_entry_value], the lookup of a configuration value in the
      options and the data of the config entry;
    - [Heap]: the same helpers over a store of mutable dict objects, to
      speak about aliasing and in-place mutation.

    Conventions.  A Python [str] is a [string] whose characters are the
    code points below 256.  A Python [int] is a [Z].  A Python [float] is a
    [spec_float] (binary64 when produced by [Py.float_of_str]).  A raised
    exception is the [Raise] outcome. *)

From Stdlib Require Import ZArith String Ascii List Bool Lia.
From Stdlib Require Import Floats.SpecFloat.
From stdpp Require Import base option list strings gmap.

Local Open Scope string_scope.
Local Open Scope Z_scope.

#[local] Set Warnings "-register-all".

(** ** Exceptions and outcomes *)

Inductive exn_class :=
| AttributeError | TypeError | ValueError | OverflowError | UpdateFailed
| NonJson.

Inductive exn := Exn (cls : exn_class) (msg : string).

Inductive outcome (A : Type) :=
| Ok (a : A)
| Raise (e : exn).
Arguments Ok {A} a.
Arguments Raise {A} e.

#[global] Instance outcome_ret : MRet outcome := fun A a => Ok a.
#[global] Instance outcome_bind : MBind outcome := fun A B f m =>
  match m with
  | Ok a => f a
  | Raise e => Raise e
  end.

(** [try: ... except (TypeError, ValueError): ...] *)
Definition catches (classes : list exn_class) (e : exn) : bool :=
  match e with
  | Exn c _ =>
      existsb (fun c' =>
        match c, c' with
        | AttributeError, AttributeError | TypeError, TypeError
        | ValueError, ValueError | OverflowError, OverflowError
        | UpdateFailed, UpdateFailed | NonJson, NonJson => true
        | _, _ => false
        end) classes
  end.

Definition try_except {A} (body : outcome A) (classes : list exn_class)
    (handler : outcome A) : outcome A :=
  match body with
  | Ok a => Ok a
  | Raise e => if catches classes e then handler else Raise e
  end.

Definition raise {A} (cls : exn_class) (msg : string) : outcome A :=
  Raise (Exn cls msg).

(** ** JSON documents

    The values a parsed response body is made of.  A dict keeps its items
    in insertion order and its keys are strings; [NonJson] is the outcome
    of the one runtime call ([dict()] on a list of pairs) whose Python
    result could hold a key of another type. *)

Inductive pyval :=
| PNone
| PBool (b : bool)
| PInt (n : Z)
| PFloat (f : spec_float)
| PStr (s : string)
| PList (items : list pyval)
| PDict (items : list (string * pyval)).

(** ** The Python runtime *)

Module Py.

(** *** Characters and strings *)

Definition code (c : ascii) : Z := Z.of_N (N_of_ascii c).

(** [str.isspace] on the code points below 256. *)
Definition isspace (c : ascii) : bool :=
  let n := code c in
  ((9 <=? n) && (n <=? 13)) || ((28 <=? n) && (n <=? 32))
  || (n =? 133) || (n =? 160).

Definition isdigit (c : ascii) : bool :=
  let n := code c in (48 <=? n) && (n <=? 57).

Definition digit_val (c : ascii) : Z := code c - 48.

Fixpoint lstrip (s : string) : string :=
  match s with
  | String c r => if isspace c then lstrip r else s
  | EmptyString => EmptyString
  end.

Fixpoint rstrip (s : string) : string :=
  match s with
  | EmptyString => EmptyString
  | String c r =>
      match rstrip r with
      | EmptyString => if isspace c then EmptyString else String c EmptyString
      | r' => String c r'
      end
  end.

(** [s.strip()] *)
Definition strip (s : string) : string := rstrip (lstrip s).

(** [s.split(sep)] for a one-character separator: never an empty list. *)
Fixpoint split (sep : ascii) (s : string) : list string :=
  match s with
  | EmptyString => [EmptyString]
  | String c r =>
      if Ascii.eqb c sep then EmptyString :: split sep r
      else match split sep r with
           | p :: ps => String c p :: ps
           | [] => [String c EmptyString]
           end
  end.

(** [sep.join(parts)] *)
Fixpoint join (sep : string) (parts : list string) : string :=
  match parts with
  | [] => EmptyString
  | [p] => p
  | p :: ps => p +:+ sep +:+ join sep ps
  end.

Fixpoint chars (s : string) : list ascii :=
  match s with
  | EmptyString => []
  | String c r => c :: chars r
  end.

Fixpoint of_chars (l : list ascii) : string :=
  match l with
  | [] => EmptyString
  | c :: r => String c (of_chars r)
  end.

Definition lower (c : ascii) : ascii :=
  let n := code c in
  if (65 <=? n) && (n <=? 90) then ascii_of_N (Z.to_N (n + 32)) else c.

(** *** Decimal numerals *)

Fixpoint digits_of_pos_fuel (fuel : nat) (n : Z) (acc : string) : string :=
  match fuel with
  | O => acc
  | S fuel' =>
      let acc' := String (ascii_of_N (Z.to_N (48 + n mod 10))) acc in
      if n <? 10 then acc' else digits_of_pos_fuel fuel' (n / 10) acc'
  end.

(** The decimal digits of a natural number, ["0"] for zero. *)
Definition digits_of (n : Z) : string :=
  digits_of_pos_fuel (S (Z.to_nat (Z.log2 n))) n EmptyString.

(** [str(n)] for an [int] of at most 4300 digits, as the ints of a JSON
    document are: the decoder builds them with [int()], which accepts no
    more. *)
Definition str_of_int (n : Z) : string :=
  if n <? 0 then String "-" (digits_of (- n)) else digits_of n.

(** The value of a run of decimal digits, most significant first. *)
Fixpoint digits_val (acc : Z) (l : list ascii) : Z :=
  match l with
  | [] => acc
  | c :: r => digits_val (10 * acc + digit_val c) r
  end.

(** Whitespace as the numeric parsers see it after the interpreter has
    rewritten non-ASCII spaces to [' ']: the C [isspace] set plus the two
    spaces above 127. *)
Definition num_space (c : ascii) : bool :=
  let n := code c in
  ((9 <=? n) && (n <=? 13)) || (n =? 32) || (n =? 133) || (n =? 160).

Fixpoint num_lstrip (s : list ascii) : list ascii :=
  match s with
  | c :: r => if num_space c then num_lstrip r else s
  | [] => []
  end.

Definition num_strip (s : string) : list ascii :=
  rev (num_lstrip (rev (num_lstrip (chars s)))).

(** Underscores may only sit between two digits. *)
Fixpoint underscores_ok (prev : option ascii) (l : list ascii) : bool :=
  match l with
  | [] => match prev with
          | Some c => negb (Ascii.eqb c "_")
          | None => true
          end
  | c :: r =>
      (if Ascii.eqb c "_" then
         match prev with Some p => isdigit p | None => false end
       else
         match prev with
         | Some p => negb (Ascii.eqb p "_") || isdigit c
         | None => true
         end)
      && underscores_ok (Some c) r
  end.

Definition drop_underscores (l : list ascii) : list ascii :=
  List.filter (fun c => negb (Ascii.eqb c "_")) l.

(** Splits a leading sign off: [(negative, rest)]. *)
Definition take_sign (l : list ascii) : bool * list ascii :=
  match l with
  | c :: r =>
      if Ascii.eqb c "-" then (true, r)
      else if Ascii.eqb c "+" then (false, r)
      else (false, l)
  | [] => (false, [])
  end.

(** The longest prefix of digits, and what follows it. *)
Fixpoint span_digits (l : list ascii) : list ascii * list ascii :=
  match l with
  | c :: r =>
      if isdigit c then let '(d, rest) := span_digits r in (c :: d, rest)
      else ([], l)
  | [] => ([], [])
  end.

(** The most digits [int()] converts from a [str], and [str()] renders:
    the interpreter's default of [sys.get_int_max_str_digits()]. *)
Definition max_str_digits : Z := 4300.

(** The longest prefix of digits and underscores. *)
Fixpoint span_run (l : list ascii) : list ascii :=
  match l with
  | c :: r => if isdigit c || Ascii.eqb c "_" then c :: span_run r else []
  | [] => []
  end.

(** No underscore first, last or after another one. *)
Fixpoint run_ok (after_underscore : bool) (l : list ascii) : bool :=
  match l with
  | [] => negb after_underscore
  | c :: r =>
      if Ascii.eqb c "_" then negb after_underscore && run_ok true r
      else run_ok false r
  end.

(** The digits [int()] has counted when it checks the limit: those of the
    run of digits and underscores after the sign, if the run is well
    formed; what follows the run has not been looked at then. *)
Definition counted_digits (s : string) : option Z :=
  let '(_, rest) := take_sign (num_lstrip (chars s)) in
  let run := span_run rest in
  if run_ok true run then Some (Z.of_nat (length (drop_underscores run)))
  else None.

(** The number of digits in the message of the [ValueError] that [int()]
    raises for exceeding the limit, if it raises that one. *)
Definition digits_over_limit (s : string) : option Z :=
  match counted_digits s with
  | Some k => if max_str_digits <? k then Some k else None
  | None => None
  end.

(** [int(s)] for a [str], base 10: [None] where Python raises
    [ValueError], for text that is not an integer literal and for a
    literal of more than [max_str_digits] digits. *)
Definition int_of_str (s : string) : option Z :=
  let body := num_strip s in
  if underscores_ok None body then
    let '(neg, rest) := take_sign (drop_underscores body) in
    match span_digits rest with
    | (d :: ds, []) =>
        if Z.of_nat (length (d :: ds)) <=? max_str_digits then
          let v := digits_val 0 (d :: ds) in
          Some (if neg then - v else v)
        else None
    | _ => None
    end
  else None.

(** *** Floats (binary64) *)

Definition prec : Z := 53.
Definition emax : Z := 1024.

(** [±m * 10^e10], rounded to the nearest binary64, ties to even.  The
    first two tests settle the far out-of-range exponents without
    computing the power: there [m * 10^e10] is at least [2^1024], or below
    [2^-1075]. *)
Definition decimal_to_float (neg : bool) (m e10 : Z) : spec_float :=
  match m with
  | Zpos p =>
      if 1024 <=? 3 * e10 then S754_infinity neg
      else if Z.log2 m + 1 + 3 * e10 <? -1075 then S754_zero neg
      else if 0 <=? e10
      then binary_round prec emax neg (Z.to_pos (m * 10 ^ e10)) 0
      else SFdiv prec emax (S754_finite neg p 0)
                 (S754_finite false (Z.to_pos (10 ^ (- e10))) 0)
  | _ => S754_zero neg
  end.

Definition lower_str (l : list ascii) : string := of_chars (map lower l).

(** The exponent part of a float literal: [e], an optional sign and at
    least one digit, up to the end of the text. *)
Definition exponent_of (l : list ascii) : option Z :=
  match l with
  | [] => Some 0
  | c :: r =>
      if Ascii.eqb (lower c) "e" then
        let '(neg, r') := take_sign r in
        match span_digits r' with
        | (d :: ds, []) =>
            let v := digits_val 0 (d :: ds) in Some (if neg then - v else v)
        | _ => None
        end
      else None
  end.

(** [float(s)] for a [str]: [None] where Python raises [ValueError]. *)
Definition float_of_str (s : string) : option spec_float :=
  let body := num_strip s in
  if underscores_ok None body then
    let '(neg, rest) := take_sign (drop_underscores body) in
    let word := lower_str rest in
    if String.eqb word "inf" || String.eqb word "infinity"
    then Some (S754_infinity neg)
    else if String.eqb word "nan" then Some S754_nan
    else
      let '(ip, rest1) := span_digits rest in
      let '(fp, rest2) :=
        match rest1 with
        | c :: r => if Ascii.eqb c "." then span_digits r else ([], rest1)
        | [] => ([], [])
        end in
      match (ip ++ fp)%list with
      | [] => None
      | ds =>
          match exponent_of rest2 with
          | Some ex =>
              Some (decimal_to_float neg (digits_val 0 ds)
                      (ex - Z.of_nat (length fp)))
          | None => None
          end
      end
  else None.

(** [float(n)] for an [int]: the nearest binary64, [None] where Python
    raises [OverflowError]. *)
Definition float_of_int (n : Z) : option spec_float :=
  match binary_normalize prec emax n 0 false with
  | S754_infinity _ => None
  | f => Some f
  end.

(** [int(x)] for a finite [float]: truncation toward zero. *)
Definition trunc (f : spec_float) : option Z :=
  match f with
  | S754_zero _ => Some 0
  | S754_finite s m e =>
      let v := if 0 <=? e then Zpos m * 2 ^ e else Zpos m / 2 ^ (- e) in
      Some (if s then - v else v)
  | _ => None
  end.

(** [repr(x)] for a [float]: the shortest decimal numeral that reads back
    as [x].  With [g = e - 2] the value [m * 2^e] and the ends of its
    rounding interval are [4m], [4m - 2] (or [4m - 1] at a power of two)
    and [4m + 2] in units of [2^g].  The search for the largest power of
    ten with a multiple inside the interval starts just above the decimal
    magnitude of the value and ends at the latest at [10^-k], of which the
    value itself is a multiple. *)
Fixpoint shortest_fuel (fuel : nat) (q lo x hi den : Z) (closed : bool)
    : Z * Z :=
  let p := 10 ^ Z.abs q in
  let '(lo', x', hi', u) :=
    if 0 <=? q then (lo, x, hi, den * p) else (lo * p, x * p, hi * p, den) in
  let cmin :=
    if closed then (lo' + u - 1) / u else lo' / u + 1 in
  let cmax :=
    if closed then hi' / u else (hi' - 1) / u in
  if cmin <=? cmax then
    let c0 := x' / u in
    let r := 2 * (x' mod u) in
    let c := if r <? u then c0
             else if u <? r then c0 + 1
             else if Z.even c0 then c0 else c0 + 1 in
    (Z.max cmin (Z.min cmax c), q)
  else
    match fuel with
    | O => (x', q)
    | S fuel' => shortest_fuel fuel' (q - 1) lo x hi den closed
    end.

Definition shortest (m : positive) (e : Z) : Z * Z :=
  let g := e - 2 in
  let k := Z.max 0 (- g) in
  let up := 2 ^ Z.max 0 g in
  let boundary := Pos.eqb m (Z.to_pos (2 ^ (prec - 1))) && (3 - emax - prec <? e) in
  let x := 4 * Zpos m * up in
  let lo := (4 * Zpos m - (if boundary then 1 else 2)) * up in
  let hi := (4 * Zpos m + 2) * up in
  let q0 := (Z.log2 hi + 1 - k) * 30103 / 100000 + 2 in
  shortest_fuel (Z.to_nat (q0 + k)) q0 lo x hi (2 ^ k) (Z.even (Zpos m)).

Definition zeros (n : Z) : string := of_chars (repeat "0"%char (Z.to_nat n)).

Definition repr_float (f : spec_float) : string :=
  match f with
  | S754_nan => "nan"
  | S754_infinity s => if s then "-inf" else "inf"
  | S754_zero s => if s then "-0.0" else "0.0"
  | S754_finite s m e =>
      let '(c, q) := shortest m e in
      let ds := digits_of c in
      let n := Z.of_nat (String.length ds) in
      let decpt := n + q in
      let body :=
        if (decpt <=? -4) || (16 <? decpt) then
          let ex := decpt - 1 in
          let mant :=
            match ds with
            | String d EmptyString => ds
            | String d r => String d (String "." r)
            | EmptyString => ds
            end in
          let exs := digits_of (Z.abs ex) in
          mant +:+ (if ex <? 0 then "e-" else "e+")
               +:+ (if Z.abs ex <? 10 then "0" else "") +:+ exs
        else if decpt <=? 0 then "0." +:+ zeros (- decpt) +:+ ds
        else if n <=? decpt then ds +:+ zeros (decpt - n) +:+ ".0"
        else substring 0 (Z.to_nat decpt) ds +:+ "."
             +:+ substring (Z.to_nat decpt) (Z.to_nat (n - decpt)) ds
      in
      if s then "-" +:+ body else body
  end.

(** *** [repr] and [str] *)

Definition dquote : ascii := ascii_of_N 34.
Definition squote : ascii := ascii_of_N 39.
Definition backslash : ascii := ascii_of_N 92.

Definition hex_digit (n : Z) : ascii :=
  ascii_of_N (Z.to_N (if n <? 10 then 48 + n else 87 + n)).

(** [str.isprintable] on the code points below 256. *)
Definition isprintable (c : ascii) : bool :=
  let n := code c in
  ((32 <=? n) && (n <=? 126)) || ((161 <=? n) && negb (n =? 173)).

Definition escape (quote c : ascii) : string :=
  let n := code c in
  if Ascii.eqb c backslash || Ascii.eqb c quote
  then String backslash (String c EmptyString)
  else if n =? 9 then String backslash "t"
  else if n =? 10 then String backslash "n"
  else if n =? 13 then String backslash "r"
  else if isprintable c then String c EmptyString
  else String backslash
         (String "x" (String (hex_digit (n / 16))
                             (String (hex_digit (n mod 16)) EmptyString))).

Fixpoint escape_all (quote : ascii) (s : string) : string :=
  match s with
  | EmptyString => EmptyString
  | String c r => escape quote c +:+ escape_all quote r
  end.

Definition contains (c : ascii) (s : string) : bool :=
  existsb (Ascii.eqb c) (chars s).

(** [repr(s)] for a [str]. *)
Definition repr_str (s : string) : string :=
  let quote :=
    if contains squote s && negb (contains dquote s) then dquote else squote in
  String quote (escape_all quote s +:+ String quote EmptyString).

Definition type_name (v : pyval) : string :=
  match v with
  | PNone => "NoneType"
  | PBool _ => "bool"
  | PInt _ => "int"
  | PFloat _ => "float"
  | PStr _ => "str"
  | PList _ => "list"
  | PDict _ => "dict"
  end.

(** [repr(v)] *)
Fixpoint repr (v : pyval) : string :=
  match v with
  | PNone => "None"
  | PBool b => if b then "True" else "False"
  | PInt n => str_of_int n
  | PFloat f => repr_float f
  | PStr s => repr_str s
  | PList items => "[" +:+ join ", " (List.map repr items) +:+ "]"
  | PDict items =>
      "{" +:+ join ", "
                (List.map (fun kv => match kv with
                                     | (k, x) => repr_str k +:+ ": " +:+ repr x
                                     end) items)
          +:+ "}"
  end.

(** [str(v)], which is also what an f-string field [{v}] renders. *)
Definition str (v : pyval) : string :=
  match v with
  | PStr s => s
  | _ => repr v
  end.

(** [repr(err)] of an exception raised with a single message. *)
Definition class_name (c : exn_class) : string :=
  match c with
  | AttributeError => "AttributeError"
  | TypeError => "TypeError"
  | ValueError => "ValueError"
  | OverflowError => "OverflowError"
  | UpdateFailed => "UpdateFailed"
  | NonJson => "NonJson"
  end.

Definition repr_exn (e : exn) : string :=
  match e with
  | Exn c msg => class_name c +:+ "(" +:+ repr_str msg +:+ ")"
  end.

(** *** Truth value: [if v:], [not v], [v or w] *)

Definition truthy (v : pyval) : bool :=
  match v with
  | PNone => false
  | PBool b => b
  | PInt n => negb (n =? 0)
  | PFloat (S754_zero _) => false
  | PFloat _ => true
  | PStr EmptyString => false
  | PStr _ => true
  | PList [] => false
  | PList _ => true
  | PDict [] => false
  | PDict _ => true
  end.

Definition or_else (v w : pyval) : pyval := if truthy v then v else w.

(** *** Dicts *)

Fixpoint lookup {V} (key : string) (d : list (string * V)) : option V :=
  match d with
  | [] => None
  | (k, x) :: r => if String.eqb k key then Some x else lookup key r
  end.

(** [d[key] = x]: an existing key keeps its place, a new one goes last. *)
Fixpoint setitem {V} (key : string) (x : V) (d : list (string * V))
    : list (string * V) :=
  match d with
  | [] => [(key, x)]
  | (k, y) :: r =>
      if String.eqb k key then (k, x) :: r else (k, y) :: setitem key x r
  end.

(** [d.pop(key, None)], for its effect on [d]. *)
Fixpoint pop {V} (key : string) (d : list (string * V)) : list (string * V) :=
  match d with
  | [] => []
  | (k, y) :: r => if String.eqb k key then r else (k, y) :: pop key r
  end.

(** [v.get(key, default)] *)
Definition get (v : pyval) (key : string) (default : pyval) : outcome pyval :=
  match v with
  | PDict d =>
      Ok (match lookup key d with Some x => x | None => default end)
  | _ =>
      raise AttributeError
        ("'" +:+ type_name v +:+ "' object has no attribute 'get'")
  end.

(** *** Conversions *)

(** [int(v)]; the message for a rejected text shows the first 200
    characters of its [repr]. *)
Definition int (v : pyval) : outcome Z :=
  match v with
  | PInt n => Ok n
  | PBool b => Ok (if b then 1 else 0)
  | PFloat f =>
      match f with
      | S754_nan => raise ValueError "cannot convert float NaN to integer"
      | S754_infinity _ =>
          raise OverflowError "cannot convert float infinity to integer"
      | _ => Ok (match trunc f with Some n => n | None => 0 end)
      end
  | PStr s =>
      match int_of_str s with
      | Some n => Ok n
      | None =>
          match digits_over_limit s with
          | Some k =>
              raise ValueError
                ("Exceeds the limit (4300 digits) for integer string conversion: value has "
                 +:+ str_of_int k
                 +:+ " digits; use sys.set_int_max_str_digits() to increase the limit")
          | None =>
              raise ValueError
                ("invalid literal for int() with base 10: "
                 +:+ String.substring 0 200 (repr_str s))
          end
      end
  | _ =>
      raise TypeError
        ("int() argument must be a string, a bytes-like object or a real number, not '"
         +:+ type_name v +:+ "'")
  end.

(** [float(v)] *)
Definition float (v : pyval) : outcome spec_float :=
  match v with
  | PFloat f => Ok f
  | PInt n =>
      match float_of_int n with
      | Some f => Ok f
      | None => raise OverflowError "int too large to convert to float"
      end
  | PBool b => Ok (binary_normalize prec emax (if b then 1 else 0) 0 false)
  | PStr s =>
      match float_of_str s with
      | Some f => Ok f
      | None =>
          raise ValueError ("could not convert string to float: " +:+ repr_str s)
      end
  | _ =>
      raise TypeError
        ("float() argument must be a string or a real number, not '"
         +:+ type_name v +:+ "'")
  end.

(** What iterating [v] yields: [list.extend(v)], [dict(v)]. *)
Definition iter (v : pyval) : outcome (list pyval) :=
  match v with
  | PList items => Ok items
  | PStr s => Ok (List.map (fun c => PStr (String c EmptyString)) (chars s))
  | PDict d => Ok (List.map (fun kv => PStr (fst kv)) d)
  | _ => raise TypeError ("'" +:+ type_name v +:+ "' object is not iterable")
  end.

(** One element of the sequence [dict()] is given: a key and a value. *)
Definition pair_of (i : Z) (item : pyval) : outcome (string * pyval) :=
  match iter item with
  | Raise _ =>
      raise TypeError
        ("cannot convert dictionary update sequence element #"
         +:+ str_of_int i +:+ " to a sequence")
  | Ok [k; x] =>
      match k with
      | PStr key => Ok (key, x)
      | PList _ | PDict _ =>
          raise TypeError ("unhashable type: '" +:+ type_name k +:+ "'")
      | _ => raise NonJson "dict key that is not a str"
      end
  | Ok l =>
      raise ValueError
        ("dictionary update sequence element #" +:+ str_of_int i
         +:+ " has length " +:+ str_of_int (Z.of_nat (length l))
         +:+ "; 2 is required")
  end.

Fixpoint dict_of_pairs (i : Z) (acc : list (string * pyval))
    (items : list pyval) : outcome (list (string * pyval)) :=
  match items with
  | [] => Ok acc
  | item :: r =>
      match pair_of i item with
      | Ok (k, x) => dict_of_pairs (i + 1) (setitem k x acc) r
      | Raise e => Raise e
      end
  end.

(** [dict(v)]: a new dict, a shallow copy when [v] is a dict. *)
Definition dict (v : pyval) : outcome (list (string * pyval)) :=
  match v with
  | PDict d => Ok d
  | _ =>
      match iter v with
      | Ok items => dict_of_pairs 0 [] items
      | Raise e => Raise e
      end
  end.

End Py.

(** ** The module-level helpers of [coordinator.py] *)

Definition coord : Type := spec_float * spec_float.

(** The body of the [for part in text.split(";")] loop, with [coords] the
    list built so far. *)
Fixpoint parse_parts (parts : list string) (coords : list coord)
    : outcome (list coord) :=
  match parts with
  | [] => Ok coords
  | part :: rest =>
      let part := Py.strip part in
      if String.eqb part "" then parse_parts rest coords
      else
        match Py.split "," part with
        | [piece0; piece1] =>
            parsed ← try_except
              (lat ← Py.float (PStr (Py.strip piece0));
               lon ← Py.float (PStr (Py.strip piece1));
               Ok (Some (lat, lon)))
              [TypeError; ValueError]
              (Ok None);
            match parsed with
            | Some c => parse_parts rest (coords ++ [c])%list
            | None => parse_parts rest coords
            end
        | _ => parse_parts rest coords
        end
  end.

Definition _parse_extra_coords (text : string) : outcome (list coord) :=
  if String.eqb text "" then Ok []
  else parse_parts (Py.split ";" text) [].

(** [raw = warning.get("properties", {}).get("rawinfo", {})] *)
Definition rawinfo (warning : pyval) : outcome pyval :=
  props ← Py.get warning "properties" (PDict []);
  Py.get props "rawinfo" (PDict []).

(** The [for key in ("id", "awcode", "warnid", "wcode")] loop: the key of
    the first truthy field, if any. *)
Fixpoint identity_key (raw : pyval) (keys : list string)
    : outcome (option string) :=
  match keys with
  | [] => Ok None
  | key :: rest =>
      val ← Py.get raw key PNone;
      if Py.truthy val then Ok (Some (key +:+ ":" +:+ Py.str val))
      else identity_key raw rest
  end.

Definition identity_fields : list string := ["id"; "awcode"; "warnid"; "wcode"].

Definition _warning_key (warning : pyval) : outcome string :=
  raw ← rawinfo warning;
  found ← identity_key raw identity_fields;
  match found with
  | Some key => Ok key
  | None =>
      wtype ← Py.get raw "wtype" (PStr "");
      wlevel ← Py.get raw "wlevel" (PStr "");
      start ← Py.get raw "start" (PStr "");
      end_ ← Py.get raw "end" (PStr "");
      Ok (Py.join "|" [Py.str wtype; Py.str wlevel; Py.str start; Py.str end_])
  end.

Definition _get_end_ts (warning : pyval) : outcome Z :=
  raw ← rawinfo warning;
  try_except
    (end_ ← Py.get raw "end" (PInt 0); Py.int end_)
    [TypeError; ValueError]
    (Ok 0).

Definition _copy_with_end (warning : pyval) (new_end : Z) : outcome pyval :=
  p ← Py.get warning "properties" (PDict []);
  props ← Py.dict p;
  r ← Py.get (PDict props) "rawinfo" (PDict []);
  raw ← Py.dict r;
  let raw := Py.setitem "end" (PInt new_end) raw in
  let props := Py.setitem "rawinfo" (PDict raw) props in
  copy ← Py.dict warning;
  let copy := Py.setitem "properties" (PDict props) copy in
  Ok (PDict copy).

Definition _extend_if_grace_applies (warning : pyval) (now_ts grace_seconds : Z)
    (allow_invalid_end : bool) : outcome (option pyval) :=
  end_ts ← _get_end_ts warning;
  if end_ts <=? 0 then Ok (if allow_invalid_end then Some warning else None)
  else if now_ts <=? end_ts then Ok (Some warning)
  else if now_ts <=? end_ts + grace_seconds
  then copy ← _copy_with_end warning (end_ts + grace_seconds); Ok (Some copy)
  else Ok None.

(** ** The coordinator and one update cycle *)

(** A cache entry [{"warning": ..., "last_seen_ts": ...}]; the cycle
    reads both fields with [.get] and a default. *)
Record cache_entry := {
  ce_warning : option pyval;
  ce_last_seen_ts : option Z;
}.

(** The attributes of [geosphereCoordinator] the cycle reads or writes.
    Times are microseconds since the epoch. *)
Record coordinator := {
  last_http_status : option Z;
  last_http_response : option string;
  had_partial_failure : bool;
  _last_successful_data : option pyval;
  _last_non_empty_data : option pyval;
  _last_non_empty_utc : option Z;
  _warning_cache : list (string * cache_entry);
  last_request_utc : option Z;
}.

(** [__init__] *)
Definition init : coordinator := {|
  last_http_status := None;
  last_http_response := None;
  had_partial_failure := false;
  _last_successful_data := None;
  _last_non_empty_data := None;
  _last_non_empty_utc := None;
  _warning_cache := [];
  last_request_utc := None;
|}.

(** What an awaited call gives: its value, or an exception (some subclass
    of [Exception]) of which the cycle only uses the [repr]. *)
Inductive awaited (A : Type) :=
| Returned (a : A)
| Failed (err_repr : string).
Arguments Returned {A} a.
Arguments Failed {A} err_repr.

Record response := {
  status : Z;
  text : awaited string;
  json : awaited pyval;
}.

(** What one cycle reads from outside the coordinator: the clock, the two
    configuration values [_get_entry_value] resolves (grace period in
    seconds, extra-coordinates text), the attributes of [zone.home] if the
    entity exists, and the warning service: the reply to the [n]-th GET of
    the cycle at a given URL. *)
Record cycle_input := {
  utcnow : Z;
  grace_seconds : Z;
  extra : string;
  zone_home : option (list (string * pyval));
  session_get : nat -> string -> awaited response;
}.

(** [int(dt.timestamp())]: [timestamp()] is the float nearest to the time
    in seconds and [int()] truncates it.  The float resolves microseconds
    for times less than 2^34 seconds from the epoch (until the year 2514);
    there the result is this quotient. *)
Definition timestamp (utc : Z) : Z := utc ÷ 1000000.

(** [self.last_http_status = None; self.last_http_response = msg;
    raise UpdateFailed(msg)] *)
Definition abort (self : coordinator) (msg : string)
    : outcome pyval * coordinator :=
  (raise UpdateFailed msg,
   {| last_http_status := None;
      last_http_response := Some msg;
      had_partial_failure := had_partial_failure self;
      _last_successful_data := _last_successful_data self;
      _last_non_empty_data := _last_non_empty_data self;
      _last_non_empty_utc := _last_non_empty_utc self;
      _warning_cache := _warning_cache self;
      last_request_utc := last_request_utc self |}).

(** *** Fetching *)

Record fetched := {
  combined_warnings : list pyval;
  any_success : bool;
  max_http_status : option Z;
  error_messages : list string;
}.

Definition add_error (f : fetched) (msg : string) : fetched :=
  {| combined_warnings := combined_warnings f;
     any_success := any_success f;
     max_http_status := max_http_status f;
     error_messages := (error_messages f ++ [msg])%list |}.

Definition see_status (f : fetched) (st : Z) : fetched :=
  {| combined_warnings := combined_warnings f;
     any_success := any_success f;
     max_http_status :=
       match max_http_status f with
       | None => Some st
       | Some m => if m <? st then Some st else Some m
       end;
     error_messages := error_messages f |}.

Definition succeed (f : fetched) : fetched :=
  {| combined_warnings := combined_warnings f;
     any_success := true;
     max_http_status := max_http_status f;
     error_messages := error_messages f |}.

Definition extend_warnings (f : fetched) (ws : list pyval) : fetched :=
  {| combined_warnings := (combined_warnings f ++ ws)%list;
     any_success := any_success f;
     max_http_status := max_http_status f;
     error_messages := error_messages f |}.

Definition url_for (c : coord) : string :=
  "https://warnungen.zamg.at/wsapp/api/getWarningsForCoords"
  +:+ "?lon=" +:+ Py.repr_float (snd c)
  +:+ "&lat=" +:+ Py.repr_float (fst c) +:+ "&lang=de".

(** The prefix [f"{lat_val},{lon_val}: "] of a diagnostic. *)
Definition coord_prefix (c : coord) : string :=
  Py.repr_float (fst c) +:+ "," +:+ Py.repr_float (snd c) +:+ ": ".

(** [warnings] of a parsed body: [(data.get("properties", {}) or {})
    .get("warnings", []) or []], as [list.extend] iterates it. *)
Definition warnings_of (data : pyval) : outcome (list pyval) :=
  p ← Py.get data "properties" (PDict []);
  let props := Py.or_else p (PDict []) in
  w ← Py.get props "warnings" (PList []);
  let warnings := Py.or_else w (PList []) in
  Py.iter warnings.

(** One turn of the [for lat_val, lon_val in coords] loop. *)
Definition fetch_one (get : nat -> string -> awaited response) (n : nat)
    (c : coord) (f : fetched) : fetched :=
  match get n (url_for c) with
  | Failed err => add_error f (coord_prefix c +:+ err)
  | Returned resp =>
      let f := see_status f (status resp) in
      if negb (status resp =? 200) then
        let body :=
          match text resp with
          | Returned t => t
          | Failed _ => "<no body>"
          end in
        add_error f (coord_prefix c +:+ "HTTP "
                     +:+ Py.str_of_int (status resp) +:+ " " +:+ body)
      else
        match json resp with
        | Failed err => add_error f (coord_prefix c +:+ err)
        | Returned data =>
            let f := succeed f in
            match warnings_of data with
            | Ok ws => extend_warnings f ws
            | Raise e => add_error f (coord_prefix c +:+ Py.repr_exn e)
            end
        end
  end.

Fixpoint fetch_from (get : nat -> string -> awaited response) (n : nat)
    (coords : list coord) (f : fetched) : fetched :=
  match coords with
  | [] => f
  | c :: rest => fetch_from get (S n) rest (fetch_one get n c f)
  end.

Definition fetch_all (get : nat -> string -> awaited response)
    (coords : list coord) : fetched :=
  fetch_from get 0%nat coords
    {| combined_warnings := []; any_success := false;
       max_http_status := None; error_messages := [] |}.

(** *** Reconciling with the cache *)

(** The [for warning in combined_warnings] loop.  The cache is written
    before the extender runs, so it is returned also when a turn raises. *)
Fixpoint refresh (warnings : list pyval) (now_ts grace : Z)
    (cache : list (string * cache_entry)) (current_keys : gset string)
    (warnings_with_grace : list pyval)
    : outcome (gset string * list pyval) * list (string * cache_entry) :=
  match warnings with
  | [] => (Ok (current_keys, warnings_with_grace), cache)
  | warning :: rest =>
      match _warning_key warning with
      | Raise e => (Raise e, cache)
      | Ok key =>
          let current_keys := {[key]} ∪ current_keys in
          let cache :=
            Py.setitem key {| ce_warning := Some warning;
                              ce_last_seen_ts := Some now_ts |} cache in
          match _extend_if_grace_applies warning now_ts grace true with
          | Raise e => (Raise e, cache)
          | Ok extended =>
              refresh rest now_ts grace cache current_keys
                match extended with
                | Some w => (warnings_with_grace ++ [w])%list
                | None => warnings_with_grace
                end
          end
      end
  end.

(** The [for key, entry in self._warning_cache.items()] loop. *)
Fixpoint reconcile (entries : list (string * cache_entry))
    (current_keys : gset string) (now_ts grace : Z)
    (warnings_with_grace : list pyval) (expired_keys : list string)
    : outcome (list pyval * list string) :=
  match entries with
  | [] => Ok (warnings_with_grace, expired_keys)
  | (key, entry) :: rest =>
      if bool_decide (key ∈ current_keys) then
        reconcile rest current_keys now_ts grace warnings_with_grace expired_keys
      else
        let cached := default (PDict []) (ce_warning entry) in
        let last_seen_ts := default 0 (ce_last_seen_ts entry) in
        if (grace <=? 0) || (last_seen_ts =? 0) then
          reconcile rest current_keys now_ts grace warnings_with_grace
            (expired_keys ++ [key])%list
        else if grace <? now_ts - last_seen_ts then
          reconcile rest current_keys now_ts grace warnings_with_grace
            (expired_keys ++ [key])%list
        else
          extended ← _extend_if_grace_applies cached now_ts grace false;
          match extended with
          | Some w =>
              reconcile rest current_keys now_ts grace
                (warnings_with_grace ++ [w])%list expired_keys
          | None =>
              reconcile rest current_keys now_ts grace warnings_with_grace
                (expired_keys ++ [key])%list
          end
  end.

(** [for key in expired_keys: self._warning_cache.pop(key, None)] *)
Definition pop_all (expired_keys : list string)
    (cache : list (string * cache_entry)) : list (string * cache_entry) :=
  fold_left (fun c key => Py.pop key c) expired_keys cache.

(** [{"properties": {"warnings": warnings_with_grace}}] *)
Definition result_of (warnings_with_grace : list pyval) : pyval :=
  PDict [("properties", PDict [("warnings", PList warnings_with_grace)])].

(** *** The cycle *)

(** The coordinates to query: the anchor first, then the extra ones.  The
    four [raise UpdateFailed(...)] sites before the first request. *)
Definition resolve_coords (inp : cycle_input) : outcome (list coord) :=
  match zone_home inp with
  | None => raise UpdateFailed "zone.home not found"
  | Some attributes =>
      let lon := default PNone (Py.lookup "longitude" attributes) in
      let lat := default PNone (Py.lookup "latitude" attributes) in
      match lon, lat with
      | PNone, _ | _, PNone => raise UpdateFailed "zone.home has no coordinates"
      | _, _ =>
          anchor ← try_except
            (la ← Py.float lat; lo ← Py.float lon; Ok (Some (la, lo)))
            [TypeError; ValueError]
            (Ok None);
          match anchor with
          | None => raise UpdateFailed "zone.home has invalid coordinates"
          | Some c =>
              more ← _parse_extra_coords (extra inp);
              match (c :: more)%list with
              | [] => raise UpdateFailed "no coordinates to query"
              | coords => Ok coords
              end
          end
      end
  end.

Definition set_request_utc (self : coordinator) (utc : Z) : coordinator :=
  {| last_http_status := last_http_status self;
     last_http_response := last_http_response self;
     had_partial_failure := had_partial_failure self;
     _last_successful_data := _last_successful_data self;
     _last_non_empty_data := _last_non_empty_data self;
     _last_non_empty_utc := _last_non_empty_utc self;
     _warning_cache := _warning_cache self;
     last_request_utc := Some utc |}.

(** The three assignments after the fetch loop. *)
Definition set_api_status (self : coordinator) (f : fetched) : coordinator :=
  {| last_http_status :=
       match max_http_status f with
       | None => if any_success f then Some 200 else None
       | Some m => Some m
       end;
     last_http_response :=
       match error_messages f with
       | [] => None
       | msgs => Some (Py.join "; " msgs)
       end;
     had_partial_failure :=
       match error_messages f with [] => false | _ => true end;
     _last_successful_data := _last_successful_data self;
     _last_non_empty_data := _last_non_empty_data self;
     _last_non_empty_utc := _last_non_empty_utc self;
     _warning_cache := _warning_cache self;
     last_request_utc := last_request_utc self |}.

Definition set_cache (self : coordinator)
    (cache : list (string * cache_entry)) : coordinator :=
  {| last_http_status := last_http_status self;
     last_http_response := last_http_response self;
     had_partial_failure := had_partial_failure self;
     _last_successful_data := _last_successful_data self;
     _last_non_empty_data := _last_non_empty_data self;
     _last_non_empty_utc := _last_non_empty_utc self;
     _warning_cache := cache;
     last_request_utc := last_request_utc self |}.

(** The assignments that store a cycle result. *)
Definition set_result (self : coordinator) (warnings_with_grace : list pyval)
    : coordinator :=
  let result := result_of warnings_with_grace in
  let non_empty := match warnings_with_grace with [] => false | _ => true end in
  {| last_http_status := last_http_status self;
     last_http_response := last_http_response self;
     had_partial_failure := had_partial_failure self;
     _last_successful_data := Some result;
     _last_non_empty_data :=
       if non_empty then Some result else _last_non_empty_data self;
     _last_non_empty_utc :=
       if non_empty then last_request_utc self else _last_non_empty_utc self;
     _warning_cache := _warning_cache self;
     last_request_utc := last_request_utc self |}.

(** The [if any_success:] block. *)
Definition reconcile_cycle (self : coordinator) (f : fetched)
    (now_ts grace : Z) : outcome pyval * coordinator :=
  match refresh (combined_warnings f) now_ts grace (_warning_cache self) ∅ []
  with
  | (Raise e, cache) => (Raise e, set_cache self cache)
  | (Ok (current_keys, fresh), cache) =>
      match reconcile cache current_keys now_ts grace fresh [] with
      | Raise e => (Raise e, set_cache self cache)
      | Ok (warnings_with_grace, expired_keys) =>
          (Ok (result_of warnings_with_grace),
           set_result (set_cache self (pop_all expired_keys cache))
                      warnings_with_grace)
      end
  end.

(** [_async_update_data]: the value returned or the exception raised, and
    the coordinator afterwards. *)
Definition _async_update_data (self : coordinator) (inp : cycle_input)
    : outcome pyval * coordinator :=
  let self := set_request_utc self (utcnow inp) in
  match resolve_coords inp with
  | Raise (Exn UpdateFailed msg) => abort self msg
  | Raise e => (Raise e, self)
  | Ok coords =>
      let f := fetch_all (session_get inp) coords in
      let self := set_api_status self f in
      if any_success f then
        reconcile_cycle self f (timestamp (utcnow inp)) (grace_seconds inp)
      else
        match _last_successful_data self with
        | Some data => (Ok data, self)
        | None =>
            (raise UpdateFailed "Error fetching data: all requests failed", self)
        end
  end.

(** ** The helpers over a store of objects

    Python dicts and lists are objects with identity: [dict(d)] makes a
    new object that shares the values of [d], and [d[k] = x] changes [d]
    for every holder of a reference to it.  This module re-states
    [_get_end_ts], [_copy_with_end] and [_extend_if_grace_applies] over an
    explicit store: a value is a scalar or the address of an object, the
    store is the list of objects allocated so far, and a computation takes
    a store and gives an outcome and the store afterwards. *)

Module Heap.

Definition loc : Type := nat.

Inductive val :=
| VNone
| VBool (b : bool)
| VInt (n : Z)
| VFloat (f : spec_float)
| VStr (s : string)
| VRef (l : loc).

Inductive obj :=
| ODict (items : list (string * val))
| OList (items : list val).

Definition heap : Type := list obj.

Definition M (A : Type) : Type := heap -> outcome A * heap.

Definition ret {A} (a : A) : M A := fun h => (Ok a, h).

Definition bind {A B} (m : M A) (f : A -> M B) : M B := fun h =>
  match m h with
  | (Ok a, h') => f a h'
  | (Raise e, h') => (Raise e, h')
  end.

Definition throw {A} (cls : exn_class) (msg : string) : M A :=
  fun h => (raise cls msg, h).

Definition try_except {A} (body : M A) (classes : list exn_class)
    (handler : M A) : M A := fun h =>
  match body h with
  | (Ok a, h') => (Ok a, h')
  | (Raise e, h') => if catches classes e then handler h' else (Raise e, h')
  end.

(** A new object; its address is the next free one. *)
Definition alloc (o : obj) : M val := fun h =>
  (Ok (VRef (length h)), (h ++ [o])%list).

(** The value as the conversions and error messages see it: a scalar as
    it is, an object by its type only.  [None] for an address beyond the
    store, which no well-formed store holds. *)
Definition shallow (h : heap) (v : val) : option pyval :=
  match v with
  | VNone => Some PNone
  | VBool b => Some (PBool b)
  | VInt n => Some (PInt n)
  | VFloat f => Some (PFloat f)
  | VStr s => Some (PStr s)
  | VRef l =>
      match h !! l with
      | Some (ODict _) => Some (PDict [])
      | Some (OList _) => Some (PList [])
      | None => None
      end
  end.

Definition dangling {A} : M A := throw NonJson "address beyond the store".

(** [v.get(key, default)]: the attribute is looked up first, then the
    default is evaluated, then the key is looked up. *)
Definition get (v : val) (key : string) (default_ : M val) : M val := fun h =>
  match v with
  | VRef l =>
      match h !! l with
      | Some (ODict d) =>
          bind default_ (fun dflt =>
            ret (match Py.lookup key d with Some x => x | None => dflt end)) h
      | Some (OList _) =>
          throw AttributeError "'list' object has no attribute 'get'" h
      | None => dangling h
      end
  | _ =>
      match shallow h v with
      | Some p =>
          throw AttributeError
            ("'" +:+ Py.type_name p +:+ "' object has no attribute 'get'") h
      | None => dangling h
      end
  end.

(** [int(v)] *)
Definition int (v : val) : M Z := fun h =>
  match shallow h v with
  | Some p => (Py.int p, h)
  | None => dangling h
  end.

(** What iterating [v] yields. *)
Definition iter (v : val) : M (list val) := fun h =>
  match v with
  | VStr s =>
      (Ok (List.map (fun c => VStr (String c EmptyString)) (Py.chars s)), h)
  | VRef l =>
      match h !! l with
      | Some (OList items) => (Ok items, h)
      | Some (ODict d) => (Ok (List.map (fun kv => VStr (fst kv)) d), h)
      | None => dangling h
      end
  | _ =>
      match shallow h v with
      | Some p =>
          throw TypeError
            ("'" +:+ Py.type_name p +:+ "' object is not iterable") h
      | None => dangling h
      end
  end.

(** One element of the sequence [dict()] is given. *)
Definition pair_of (i : Z) (item : val) : M (string * val) := fun h =>
  match iter item h with
  | (Raise (Exn NonJson msg), h') => (Raise (Exn NonJson msg), h')
  | (Raise _, h') =>
      throw TypeError
        ("cannot convert dictionary update sequence element #"
         +:+ Py.str_of_int i +:+ " to a sequence") h'
  | (Ok [k; x], h') =>
      match k with
      | VStr key => (Ok (key, x), h')
      | VRef _ =>
          match shallow h' k with
          | Some p =>
              throw TypeError
                ("unhashable type: '" +:+ Py.type_name p +:+ "'") h'
          | None => dangling h'
          end
      | _ => throw NonJson "dict key that is not a str" h'
      end
  | (Ok l, h') =>
      throw ValueError
        ("dictionary update sequence element #" +:+ Py.str_of_int i
         +:+ " has length " +:+ Py.str_of_int (Z.of_nat (length l))
         +:+ "; 2 is required") h'
  end.

Fixpoint dict_of_pairs (i : Z) (acc : list (string * val))
    (items : list val) : M (list (string * val)) :=
  match items with
  | [] => ret acc
  | item :: r =>
      bind (pair_of i item) (fun kx =>
        dict_of_pairs (i + 1) (Py.setitem (fst kx) (snd kx) acc) r)
  end.

(** The items [dict(v)] starts from: those of [v] when it is a dict, else
    the pairs its iteration gives. *)
Definition items_of (v : val) : M (list (string * val)) := fun h =>
  match v with
  | VRef l =>
      match h !! l with
      | Some (ODict d) => (Ok d, h)
      | _ => bind (iter v) (dict_of_pairs 0 []) h
      end
  | _ => bind (iter v) (dict_of_pairs 0 []) h
  end.

(** [dict(v)]: a new dict object holding the same values. *)
Definition dict (v : val) : M val :=
  bind (items_of v) (fun d => alloc (ODict d)).

(** [target[key] = x] *)
Definition setitem (target : val) (key : string) (x : val) : M unit := fun h =>
  match target with
  | VRef l =>
      match h !! l with
      | Some (ODict d) => (Ok tt, <[l := ODict (Py.setitem key x d)]> h)
      | Some (OList _) =>
          throw TypeError "list indices must be integers or slices, not str" h
      | None => dangling h
      end
  | _ =>
      match shallow h target with
      | Some p =>
          throw TypeError
            ("'" +:+ Py.type_name p
             +:+ "' object does not support item assignment") h
      | None => dangling h
      end
  end.

Definition empty_dict : M val := alloc (ODict []).

Definition _get_end_ts (warning : val) : M Z :=
  bind (get warning "properties" empty_dict) (fun props =>
  bind (get props "rawinfo" empty_dict) (fun raw =>
  try_except
    (bind (get raw "end" (ret (VInt 0))) int)
    [TypeError; ValueError]
    (ret 0))).

Definition _copy_with_end (warning : val) (new_end : Z) : M val :=
  bind (get warning "properties" empty_dict) (fun p =>
  bind (dict p) (fun props =>
  bind (get props "rawinfo" empty_dict) (fun r =>
  bind (dict r) (fun raw =>
  bind (setitem raw "end" (VInt new_end)) (fun _ =>
  bind (setitem props "rawinfo" raw) (fun _ =>
  bind (dict warning) (fun copy =>
  bind (setitem copy "properties" props) (fun _ =>
  ret copy)))))))).

Definition _extend_if_grace_applies (warning : val) (now_ts grace_seconds : Z)
    (allow_invalid_end : bool) : M (option val) :=
  bind (_get_end_ts warning) (fun end_ts =>
  if end_ts <=? 0 then ret (if allow_invalid_end then Some warning else None)
  else if now_ts <=? end_ts then ret (Some warning)
  else if now_ts <=? end_ts + grace_seconds then
    bind (_copy_with_end warning (end_ts + grace_seconds)) (fun copy =>
    ret (Some copy))
  else ret None).

(** The items of the dict a value refers to. *)
Definition dict_at (h : heap) (v : val) : option (list (string * val)) :=
  match v with
  | VRef l => match h !! l with Some (ODict d) => Some d | _ => None end
  | _ => None
  end.

(** The items of the dict under [key], those of [{}] when the key is
    missing. *)
Definition child (h : heap) (d : list (string * val)) (key : string)
    : option (list (string * val)) :=
  match Py.lookup key d with
  | Some v => dict_at h v
  | None => Some []
  end.

(** The store [h'] holds every object of [h], unchanged, and then only
    new objects. *)
Definition extends (h h' : heap) : Prop := exists fresh, h' = (h ++ fresh)%list.

(** The address of an object allocated after the store [h0] was taken. *)
Definition fresh_ref (h0 : heap) (v : val) : Prop :=
  exists l, v = VRef l /\ (length h0 <= l)%nat.

(** [m] keeps the objects of [h0]: run from any store that extends [h0]
    it ends, whatever the outcome, in a store that extends [h0], and a
    value it returns satisfies [Q]. *)
Definition keeps {A} (h0 : heap) (m : M A) (Q : A -> Prop) : Prop :=
  forall h, extends h0 h ->
    extends h0 (snd (m h)) /\ forall a, fst (m h) = Ok a -> Q a.

(** A store with one warning at address 2, its properties at 1 and its
    rawinfo at 0. *)
Definition sample_heap : heap :=
  [ODict [("wtype", VInt 1); ("end", VInt 200)];
   ODict [("rawinfo", VRef 0%nat)];
   ODict [("type", VStr "Feature"); ("properties", VRef 1%nat)]].

End Heap.

(** ** Specification-side definitions *)

(** A warning record of the data model: a dict whose [properties] and
    [rawinfo], where present, are dicts, and whose [end] is a timestamp,
    missing or not a number; an infinite float is none of these. *)
Definition warning_record (w : pyval) : bool :=
  match rawinfo w with
  | Ok (PDict raw) =>
      match Py.lookup "end" raw with
      | Some (PFloat (S754_infinity _)) => false
      | _ => true
      end
  | _ => false
  end.

(** [w] is a dict with items [items], whose properties (or the [{}]
    default) are [props], whose rawinfo (or the default) is [raw]. *)
Definition shaped (w : pyval) (items props raw : list (string * pyval)) : Prop :=
  w = PDict items
  /\ default (PDict []) (Py.lookup "properties" items) = PDict props
  /\ default (PDict []) (Py.lookup "rawinfo" props) = PDict raw.

(** The value [raw.get("end", 0)] reads. *)
Definition end_field (raw : list (string * pyval)) : pyval :=
  default (PInt 0) (Py.lookup "end" raw).

(** The document [doc] with the value at [path] replaced by [x]; dicts
    missing on the way are created. *)
Fixpoint set_path (path : list string) (x : pyval) (doc : pyval) : pyval :=
  match path with
  | [] => x
  | key :: rest =>
      let items := match doc with PDict d => d | _ => [] end in
      let child := default (PDict []) (Py.lookup key items) in
      PDict (Py.setitem key (set_path rest x child) items)
  end.

Definition end_path : list string := ["properties"; "rawinfo"; "end"].

(** The four cases of the grace-period extender, taken in this order, for
    a warning whose extracted end is [end_ts]. *)
Inductive grace_case (w : pyval) (end_ts now_ts grace : Z) (allow : bool)
    : option pyval -> Prop :=
| end_invalid :
    end_ts <= 0 ->
    grace_case w end_ts now_ts grace allow (if allow then Some w else None)
| not_expired :
    0 < end_ts -> now_ts <= end_ts ->
    grace_case w end_ts now_ts grace allow (Some w)
| within_grace :
    0 < end_ts -> end_ts < now_ts -> now_ts <= end_ts + grace ->
    grace_case w end_ts now_ts grace allow
      (Some (set_path end_path (PInt (end_ts + grace)) w))
| fully_expired :
    0 < end_ts -> end_ts < now_ts -> end_ts + grace < now_ts ->
    grace_case w end_ts now_ts grace allow None.

(** One segment of the extra-coordinates text, as the specification reads
    it: trimmed, split at the comma into exactly two parts, both floats. *)
Definition segment_coord (segment : string) : option coord :=
  match Py.split "," (Py.strip segment) with
  | [a; b] =>
      match Py.float_of_str (Py.strip a), Py.float_of_str (Py.strip b) with
      | Some lat, Some lon => Some (lat, lon)
      | _, _ => None
      end
  | _ => None
  end.

(** Whether one of the identity fields of [raw] is truthy. *)
Definition has_identity (raw : list (string * pyval)) : bool :=
  existsb (fun key => Py.truthy (default PNone (Py.lookup key raw)))
          identity_fields.

(** [str(raw.get(key, ""))], a component of the composite key. *)
Definition key_part (raw : list (string * pyval)) (key : string) : string :=
  Py.str (default (PStr "") (Py.lookup key raw)).


(** The conditions under which a cycle aborts before fetching, with the
    reason each gives: the anchor entity is missing; one of its coordinates
    is missing or [None]; [float()] rejects one of them. *)
Inductive fatal (inp : cycle_input) : string -> Prop :=
| zone_missing :
    zone_home inp = None -> fatal inp "zone.home not found"
| coordinates_missing attributes :
    zone_home inp = Some attributes ->
    default PNone (Py.lookup "longitude" attributes) = PNone
    \/ default PNone (Py.lookup "latitude" attributes) = PNone ->
    fatal inp "zone.home has no coordinates"
| coordinates_unparsable attributes e :
    zone_home inp = Some attributes ->
    default PNone (Py.lookup "longitude" attributes) <> PNone ->
    default PNone (Py.lookup "latitude" attributes) <> PNone ->
    (la ← Py.float (default PNone (Py.lookup "latitude" attributes));
     lo ← Py.float (default PNone (Py.lookup "longitude" attributes));
     Ok (Some (la, lo))) = Raise e ->
    catches [TypeError; ValueError] e = true ->
    fatal inp "zone.home has invalid coordinates".

(** A coordinate fetch succeeds: status 200 and a body that parses. *)
Definition fetch_succeeded (r : awaited response) : Prop :=
  exists resp data,
    r = Returned resp /\ status resp = 200 /\ json resp = Returned data.

(** Every cached warning is a warning record. *)
Definition cache_ok (cache : list (string * cache_entry)) : Prop :=
  Forall (fun kv =>
            warning_record (default (PDict []) (ce_warning (snd kv))) = true)
         cache.

(** What the extender contributes to the output for one warning. *)
Definition passed (extended : outcome (option pyval)) : list pyval :=
  match extended with
  | Ok (Some w) => [w]
  | _ => []
  end.

(** [entry.get("warning", {})] and [entry.get("last_seen_ts", 0)] *)
Definition cached_warning (entry : cache_entry) : pyval :=
  default (PDict []) (ce_warning entry).
Definition last_seen (entry : cache_entry) : Z :=
  default 0 (ce_last_seen_ts entry).

(** What becomes of a cache entry whose key was not seen this cycle, as
    the specification puts it: [Some w] when it stays and contributes [w]
    to the output, [None] when it is removed.  No recorded last-seen time
    means the field is absent or holds the falsy 0. *)
Inductive entry_fate (entry : cache_entry) (now_ts grace : Z)
    : option pyval -> Prop :=
| fate_no_grace :
    grace <= 0 \/ last_seen entry = 0 ->
    entry_fate entry now_ts grace None
| fate_too_old :
    0 < grace -> last_seen entry <> 0 ->
    now_ts - last_seen entry > grace ->
    entry_fate entry now_ts grace None
| fate_extended w :
    0 < grace -> last_seen entry <> 0 ->
    now_ts - last_seen entry <= grace ->
    _extend_if_grace_applies (cached_warning entry) now_ts grace false
    = Ok (Some w) ->
    entry_fate entry now_ts grace (Some w)
| fate_expired :
    0 < grace -> last_seen entry <> 0 ->
    now_ts - last_seen entry <= grace ->
    _extend_if_grace_applies (cached_warning entry) now_ts grace false
    = Ok None ->
    entry_fate entry now_ts grace None.

(** The warnings of a cycle result. *)
Definition warnings_in (result : pyval) : list pyval :=
  match result with
  | PDict [("properties", PDict [("warnings", PList ws)])] => ws
  | _ => []
  end.

(** *** What the fetch loop sees *)

(** A reply came back for one of the coordinates: the [i]-th request of
    the cycle returned [resp]. *)
Definition replied (get : nat -> string -> awaited response)
    (coords : list coord) (resp : response) : Prop :=
  exists i c, coords !! i = Some c /\ get i (url_for c) = Returned resp.

(** A coordinate that contributes warnings and no diagnostic: status 200,
    a body that parses, and warnings that can be read from it. *)
Definition clean (r : awaited response) : Prop :=
  exists resp data ws,
    r = Returned resp /\ status resp = 200 /\ json resp = Returned data
    /\ warnings_of data = Ok ws.

(** The snapshots a coordinator holds are results of cycles: the
    last-successful one is a cycle result, the last-non-empty one is a
    cycle result with at least one warning and comes with its time, and
    it is only there when a last-successful one is. *)
Definition snapshots_ok (self : coordinator) : Prop :=
  (forall d, _last_successful_data self = Some d -> exists ws, d = result_of ws)
  /\ match _last_non_empty_data self with
     | None => _last_non_empty_utc self = None
     | Some d =>
         (exists w ws, d = result_of (w :: ws))
         /\ _last_non_empty_utc self <> None
         /\ _last_successful_data self <> None
     end.

(** ** Sample inputs *)

Definition sample_rawinfo (end_ : pyval) : pyval :=
  PDict [("wtype", PInt 1); ("wlevel", PInt 2); ("start", PInt 100);
         ("end", end_)].

(** A warning without identity fields, ending at [end_]. *)
Definition sample_warning (end_ : pyval) : pyval :=
  PDict [("type", PStr "Feature");
         ("properties", PDict [("rawinfo", sample_rawinfo end_)])].

(** A warning identified by [warnid]. *)
Definition sample_identified : pyval :=
  PDict [("properties",
          PDict [("rawinfo",
                  PDict [("warnid", PInt 4711); ("wtype", PInt 1);
                         ("end", PInt 200)])])].

(** The coordinates 47.5 and 15.25 as binary64. *)
Definition lat_47_5 : spec_float := S754_finite false 6685030696878080 (-47).
Definition lon_15_25 : spec_float := S754_finite false 8584986789675008 (-49).

(** The coordinates 48.2 and 16.4, the nearest binary64 values. *)
Definition lat_48_2 : spec_float := S754_finite false 6783546938726810 (-47).
Definition lon_16_4 : spec_float := S754_finite false 4616189618054758 (-48).

Definition sample_zone : list (string * pyval) :=
  [("latitude", PFloat lat_47_5); ("longitude", PFloat lon_15_25)].

(** A warning service that times out on every request. *)
Definition service_down : nat -> string -> awaited response :=
  fun _ _ => Failed "TimeoutError()".

(** A cycle at 2024-06-01 12:00:00 UTC with every request failing. *)
Definition offline_cycle : cycle_input :=
  {| utcnow := 1717243200000000; grace_seconds := 3600; extra := "48.2,16.4";
     zone_home := Some sample_zone; session_get := service_down |}.


(** A coordinator that has completed a cycle with one warning. *)
Definition warmed_up : coordinator :=
  {| last_http_status := Some 200;
     last_http_response := None;
     had_partial_failure := false;
     _last_successful_data := Some (result_of [sample_identified]);
     _last_non_empty_data := Some (result_of [sample_identified]);
     _last_non_empty_utc := Some 100000000;
     _warning_cache :=
       [("warnid:4711", {| ce_warning := Some sample_identified;
                           ce_last_seen_ts := Some 100 |})];
     last_request_utc := Some 100000000 |}.

(** A reply with status 200 and the given warnings in its body. *)
Definition ok_with (warnings : list pyval) : response :=
  {| status := 200; text := Returned "";
     json := Returned (result_of warnings) |}.

Definition server_error : response :=
  {| status := 500; text := Returned "Internal Server Error";
     json := Failed "ContentTypeError()" |}.

(** A cycle at second 150 in which the service reports no warnings. *)
Definition quiet_cycle : cycle_input :=
  {| utcnow := 150000000; grace_seconds := 60; extra := "";
     zone_home := Some sample_zone;
     session_get := fun _ _ => Returned (ok_with []) |}.

(** A cycle at second 1000 over two coordinates: the first request is
    answered with one warning that ended at 100, the second with a
    server error. *)
Definition partial_cycle : cycle_input :=
  {| utcnow := 1000000000; grace_seconds := 60; extra := "48.2,16.4";
     zone_home := Some sample_zone;
     session_get := fun n _ =>
       match n with
       | O => Returned (ok_with [sample_warning (PInt 100)])
       | _ => Returned server_error
       end |}.

(** A warning whose end is the float infinity: what the JSON decoder
    reads from a body that has [1e999] or [Infinity] there. *)
Definition endless_warning : pyval :=
  sample_warning (PFloat (S754_infinity false)).

(** A cycle at second 150 in which the service delivers that warning. *)
Definition endless_cycle : cycle_input :=
  {| utcnow := 150000000; grace_seconds := 60; extra := "";
     zone_home := Some sample_zone;
     session_get := fun _ _ => Returned (ok_with [endless_warning]) |}.

(** A cycle in which the service answers with a warnings list that holds
    a string instead of a record. *)
Definition malformed_cycle : cycle_input :=
  {| utcnow := 150000000; grace_seconds := 60; extra := "";
     zone_home := Some sample_zone;
     session_get := fun _ _ => Returned (ok_with [PStr "storm"]) |}.

(** ** Configuration values

    [_get_entry_value] reads a configuration value of the entry the
    coordinator was created for. *)

(** The two mappings of a config entry: what the user set up first, and
    the options changed since. *)
Record config_entry := {
  options : list (string * pyval);
  data : list (string * pyval);
}.

(** [_get_entry_value]: [options.get(key, data.get(key, default))] *)
Definition _get_entry_value (entry : config_entry) (key : string)
    (default_ : pyval) : pyval :=
  match Py.lookup key (options entry) with
  | Some x => x
  | None =>
      match Py.lookup key (data entry) with
      | Some x => x
      | None => default_
      end
  end.

(** ** Lemmas on the runtime *)

Lemma lookup_setitem_eq {V} key (x : V) d :
  Py.lookup key (Py.setitem key x d) = Some x.
Proof.
  induction d as [|[k y] d IH]; simpl.
  - by rewrite String.eqb_refl.
  - destruct (String.eqb k key) eqn:E; simpl; rewrite E; auto.
Qed.

Lemma lookup_setitem_ne {V} key key' (x : V) d :
  key <> key' -> Py.lookup key' (Py.setitem key x d) = Py.lookup key' d.
Proof.
  intros Hne. induction d as [|[k y] d IH]; simpl.
  - destruct (String.eqb key key') eqn:E; auto.
    apply String.eqb_eq in E. congruence.
  - destruct (String.eqb k key) eqn:E; simpl.
    + apply String.eqb_eq in E. subst k.
      destruct (String.eqb key key') eqn:E'; auto.
      apply String.eqb_eq in E'. congruence.
    + destruct (String.eqb k key'); auto.
Qed.

Lemma get_dict d key dflt :
  Py.get (PDict d) key dflt = Ok (default dflt (Py.lookup key d)).
Proof. unfold Py.get. by destruct (Py.lookup key d). Qed.

Lemma get_ok_inv v key dflt x :
  Py.get v key dflt = Ok x ->
  exists d, v = PDict d /\ x = default dflt (Py.lookup key d).
Proof.
  destruct v; simpl; try discriminate.
  intros [= <-]. eexists; split; eauto.
Qed.

Lemma rawinfo_shaped w items props raw :
  shaped w items props raw -> rawinfo w = Ok (PDict raw).
Proof.
  intros (-> & Hp & Hr). unfold rawinfo.
  rewrite get_dict, Hp. unfold mbind, outcome_bind. by rewrite get_dict, Hr.
Qed.

Lemma rawinfo_inv w raw :
  rawinfo w = Ok (PDict raw) -> exists items props, shaped w items props raw.
Proof.
  unfold rawinfo. intros H.
  destruct (Py.get w "properties" (PDict [])) as [p|] eqn:E1; [|discriminate].
  simpl in H.
  apply get_ok_inv in E1 as (items & -> & ->).
  apply get_ok_inv in H as (props & Hp & Hr).
  exists items, props. repeat split; auto.
Qed.

Lemma bind_Ok {A B} (f : A -> outcome B) a : Ok a ≫= f = f a.
Proof. reflexivity. Qed.

Lemma bind_Raise {A B} (f : A -> outcome B) e : Raise e ≫= f = Raise e.
Proof. reflexivity. Qed.

Lemma bind_Ok_inv {A B} (f : A -> outcome B) m b :
  m ≫= f = Ok b -> exists a, m = Ok a /\ f a = Ok b.
Proof. destruct m; [eauto | discriminate]. Qed.

Lemma try_except_Ok {A} (a : A) classes handler :
  try_except (Ok a) classes handler = Ok a.
Proof. reflexivity. Qed.

(** [int()] raises [TypeError] or [ValueError], except on an infinite
    float. *)
Lemma int_raise_class v c msg :
  Py.int v = Raise (Exn c msg) ->
  c = TypeError \/ c = ValueError
  \/ (c = OverflowError /\ exists s, v = PFloat (S754_infinity s)).
Proof.
  destruct v as [| | |f|s| |]; simpl; try discriminate;
    try (intros [= <- _]; auto; fail).
  - destruct f; simpl; try discriminate; intros [= <- _]; eauto.
  - destruct (Py.int_of_str s); [discriminate|].
    destruct (Py.digits_over_limit s); intros [= <- _]; auto.
Qed.

Lemma int_caught v e :
  Py.int v = Raise e -> (forall s, v <> PFloat (S754_infinity s)) ->
  catches [TypeError; ValueError] e = true.
Proof.
  destruct e as [c msg]. intros H Hinf.
  apply int_raise_class in H as [->|[->|[_ [s ->]]]]; auto.
  by destruct (Hinf s).
Qed.

(** *** The helpers on a well-shaped record *)

Lemma get_end_ts_shaped w items props raw :
  shaped w items props raw ->
  _get_end_ts w =
  try_except (Py.int (end_field raw)) [TypeError; ValueError] (Ok 0).
Proof.
  intros H. unfold _get_end_ts. rewrite (rawinfo_shaped _ _ _ _ H).
  rewrite bind_Ok, get_dict. reflexivity.
Qed.

Lemma get_end_ts_inv w end_ts :
  _get_end_ts w = Ok end_ts ->
  exists items props raw, shaped w items props raw.
Proof.
  unfold _get_end_ts. intros H.
  destruct (rawinfo w) as [raw|] eqn:E; [|discriminate].
  rewrite bind_Ok in H.
  destruct raw as [| | | | | |raw];
    try (simpl in H; discriminate).
  apply rawinfo_inv in E as (items & props & Hs). eauto.
Qed.

Lemma get_end_ts_nonzero w end_ts :
  _get_end_ts w = Ok end_ts -> end_ts <> 0 ->
  exists items props raw,
    shaped w items props raw /\ Py.int (end_field raw) = Ok end_ts.
Proof.
  intros H Hnz. destruct (get_end_ts_inv _ _ H) as (items & props & raw & Hs).
  exists items, props, raw. split; auto.
  rewrite (get_end_ts_shaped _ _ _ _ Hs) in H.
  destruct (Py.int (end_field raw)) as [n|e]; simpl in H; [congruence|].
  destruct (catches _ e); [|discriminate]. congruence.
Qed.

Lemma copy_with_end_shaped w items props raw new_end :
  shaped w items props raw ->
  _copy_with_end w new_end =
  Ok (PDict (Py.setitem "properties"
               (PDict (Py.setitem "rawinfo"
                         (PDict (Py.setitem "end" (PInt new_end) raw)) props))
               items)).
Proof.
  intros (-> & Hp & Hr). unfold _copy_with_end.
  rewrite get_dict, Hp, bind_Ok. simpl Py.dict. rewrite bind_Ok.
  rewrite get_dict, Hr, bind_Ok. simpl Py.dict. rewrite !bind_Ok.
  reflexivity.
Qed.

Lemma set_path_shaped w items props raw x :
  shaped w items props raw ->
  set_path end_path x w =
  PDict (Py.setitem "properties"
           (PDict (Py.setitem "rawinfo" (PDict (Py.setitem "end" x raw)) props))
           items).
Proof.
  intros (-> & Hp & Hr). unfold end_path. cbn [set_path].
  rewrite Hp. cbn [set_path]. rewrite Hr. reflexivity.
Qed.

(** On a well-shaped record [_copy_with_end] is the path update. *)
Lemma copy_with_end_set_path w items props raw new_end :
  shaped w items props raw ->
  _copy_with_end w new_end = Ok (set_path end_path (PInt new_end) w).
Proof.
  intros H. rewrite (copy_with_end_shaped _ _ _ _ _ H).
  by rewrite (set_path_shaped _ _ _ _ _ H).
Qed.

Lemma shaped_copy w items props raw x :
  shaped w items props raw ->
  shaped (set_path end_path x w)
    (Py.setitem "properties"
       (PDict (Py.setitem "rawinfo" (PDict (Py.setitem "end" x raw)) props))
       items)
    (Py.setitem "rawinfo" (PDict (Py.setitem "end" x raw)) props)
    (Py.setitem "end" x raw).
Proof.
  intros H. rewrite (set_path_shaped _ _ _ _ _ H).
  repeat split; by rewrite lookup_setitem_eq.
Qed.

Lemma get_end_ts_copy w items props raw new_end :
  shaped w items props raw ->
  _get_end_ts (set_path end_path (PInt new_end) w) = Ok new_end.
Proof.
  intros H. rewrite (get_end_ts_shaped _ _ _ _ (shaped_copy _ _ _ _ _ H)).
  unfold end_field. by rewrite lookup_setitem_eq.
Qed.

Lemma warning_record_shaped w :
  warning_record w = true ->
  exists items props raw,
    shaped w items props raw
    /\ forall s, Py.lookup "end" raw <> Some (PFloat (S754_infinity s)).
Proof.
  unfold warning_record. intros H.
  destruct (rawinfo w) as [[| | | | | |raw]|] eqn:E; try discriminate.
  apply rawinfo_inv in E as (items & props & Hs).
  exists items, props, raw. split; auto.
  intros s Hl. rewrite Hl in H. discriminate.
Qed.

(** The end of a warning record is always extracted. *)
Lemma get_end_ts_total w :
  warning_record w = true -> exists end_ts, _get_end_ts w = Ok end_ts.
Proof.
  intros H. apply warning_record_shaped in H as (items & props & raw & Hs & Hinf).
  rewrite (get_end_ts_shaped _ _ _ _ Hs).
  destruct (Py.int (end_field raw)) as [n|e] eqn:E; [eauto|].
  exists 0. simpl. rewrite (int_caught _ _ E); auto.
  intros s Hv. unfold end_field in Hv.
  destruct (Py.lookup "end" raw) as [v|] eqn:El; simpl in Hv; [|discriminate].
  subst v. by apply (Hinf s).
Qed.

(** The extender is the ordered four-case machine on the extracted end. *)
Lemma extend_cases w end_ts now_ts grace allow :
  _get_end_ts w = Ok end_ts ->
  exists r, _extend_if_grace_applies w now_ts grace allow = Ok r
            /\ grace_case w end_ts now_ts grace allow r.
Proof.
  intros H. unfold _extend_if_grace_applies. rewrite H, bind_Ok.
  destruct (Z.leb_spec end_ts 0).
  { eexists; split; [reflexivity|]. by constructor. }
  destruct (Z.leb_spec now_ts end_ts).
  { eexists; split; [reflexivity|]. by constructor. }
  destruct (Z.leb_spec now_ts (end_ts + grace)).
  - destruct (get_end_ts_inv _ _ H) as (items & props & raw & Hs).
    rewrite (copy_with_end_set_path _ _ _ _ _ Hs), bind_Ok.
    eexists; split; [reflexivity|]. by constructor.
  - eexists; split; [reflexivity|]. by constructor.
Qed.

Lemma grace_case_functional w end_ts now_ts grace allow r r' :
  grace_case w end_ts now_ts grace allow r ->
  grace_case w end_ts now_ts grace allow r' -> r = r'.
Proof. intros H H'. destruct H; destruct H'; auto; lia. Qed.

(** *** The warning key *)

Lemma identity_key_cons raw key keys :
  identity_key (PDict raw) (key :: keys) =
  let val := default PNone (Py.lookup key raw) in
  if Py.truthy val then Ok (Some (key +:+ ":" +:+ Py.str val))
  else identity_key (PDict raw) keys.
Proof. cbn [identity_key]. rewrite get_dict. reflexivity. Qed.

Lemma identity_key_ext raw raw' keys :
  (forall key, In key keys -> Py.lookup key raw = Py.lookup key raw') ->
  identity_key (PDict raw) keys = identity_key (PDict raw') keys.
Proof.
  induction keys as [|key keys IH]; intros H; [reflexivity|].
  rewrite !identity_key_cons, (H key) by (by left). cbn zeta.
  destruct (Py.truthy _); [reflexivity|]. apply IH.
  intros k Hk. apply H. by right.
Qed.

Lemma identity_key_found raw keys :
  existsb (fun key => Py.truthy (default PNone (Py.lookup key raw))) keys = true ->
  exists key, identity_key (PDict raw) keys = Ok (Some key).
Proof.
  induction keys as [|key keys IH]; cbn [existsb]; [discriminate|].
  rewrite identity_key_cons. cbn zeta.
  destruct (Py.truthy _); cbn [orb]; eauto.
Qed.

Lemma identity_key_none raw keys :
  existsb (fun key => Py.truthy (default PNone (Py.lookup key raw))) keys = false ->
  identity_key (PDict raw) keys = Ok None.
Proof.
  induction keys as [|key keys IH]; cbn [existsb]; [reflexivity|].
  rewrite identity_key_cons. cbn zeta.
  destruct (Py.truthy _); cbn [orb]; [discriminate | auto].
Qed.

Lemma warning_key_shaped w items props raw :
  shaped w items props raw ->
  _warning_key w =
  (found ← identity_key (PDict raw) identity_fields;
   match found with
   | Some key => Ok key
   | None =>
       Ok (Py.join "|" [key_part raw "wtype"; key_part raw "wlevel";
                        key_part raw "start"; key_part raw "end"])
   end).
Proof.
  intros H. unfold _warning_key. rewrite (rawinfo_shaped _ _ _ _ H), bind_Ok.
  destruct (identity_key (PDict raw) identity_fields) as [[key|]|]; reflexivity.
Qed.

(** The key of a warning record is always derived. *)
Lemma warning_key_total w :
  warning_record w = true -> exists key, _warning_key w = Ok key.
Proof.
  intros H. apply warning_record_shaped in H as (items & props & raw & Hs & _).
  rewrite (warning_key_shaped _ _ _ _ Hs).
  destruct (has_identity raw) eqn:E.
  - apply identity_key_found in E as [key ->]. eauto.
  - apply identity_key_none in E as ->. eauto.
Qed.

(** ** The grace-period extender *)

Lemma rawinfo_functional w raw raw' :
  rawinfo w = Ok (PDict raw) -> rawinfo w = Ok (PDict raw') -> raw = raw'.
Proof. congruence. Qed.

(** On the warning records whose end is not an infinite float, for every
    current time, grace window and flag, the extender is exactly the
    four-case machine, its cases taken in order: an invalid extracted end
    (it is 0 when [end] is missing or [int()] rejects it with a
    [TypeError] or [ValueError], or it is not positive) returns the warning
    unchanged if invalid ends are allowed and nothing otherwise;
    [now <= end] returns the warning unchanged; [end < now <= end + grace]
    returns the copy with [end] rewritten to [end + grace];
    [now > end + grace] returns nothing. *)
Theorem extend_state_machine w now_ts grace allow :
  warning_record w = true ->
  exists end_ts r,
    _get_end_ts w = Ok end_ts
    /\ _extend_if_grace_applies w now_ts grace allow = Ok r
    /\ grace_case w end_ts now_ts grace allow r
    /\ (forall r', grace_case w end_ts now_ts grace allow r' -> r' = r)
    /\ (forall raw, rawinfo w = Ok (PDict raw) ->
          Py.lookup "end" raw = None
          \/ (exists e, Py.int (end_field raw) = Raise e) ->
          end_ts = 0).
Proof.
  intros Hw. destruct (get_end_ts_total _ Hw) as [end_ts He].
  destruct (extend_cases w end_ts now_ts grace allow He) as (r & Hr & Hc).
  exists end_ts, r. repeat split; auto.
  - intros r' Hc'. eapply grace_case_functional; eauto.
  - intros raw Hraw Hbad.
    apply warning_record_shaped in Hw as (items & props & raw0 & Hs & Hinf).
    rewrite (rawinfo_shaped _ _ _ _ Hs) in Hraw. injection Hraw as ->.
    rewrite (get_end_ts_shaped _ _ _ _ Hs) in He.
    destruct Hbad as [Hnone|[e Hraise]].
    + unfold end_field in He. rewrite Hnone in He. simpl in He. congruence.
    + rewrite Hraise in He. simpl in He.
      rewrite (int_caught _ _ Hraise) in He; [congruence|].
      intros s Hv. unfold end_field in Hv.
      destruct (Py.lookup "end" raw) as [v|] eqn:El; simpl in Hv; [|discriminate].
      subst v. by apply (Hinf s).
Qed.

Lemma extend_state_machine_witness :
  warning_record (sample_warning (PInt 200)) = true
  /\ exists end_ts r,
       _get_end_ts (sample_warning (PInt 200)) = Ok end_ts
       /\ _extend_if_grace_applies (sample_warning (PInt 200)) 210 60 false = Ok r
       /\ grace_case (sample_warning (PInt 200)) end_ts 210 60 false r
       /\ (forall r', grace_case (sample_warning (PInt 200)) end_ts 210 60 false r'
                      -> r' = r)
       /\ (forall raw, rawinfo (sample_warning (PInt 200)) = Ok (PDict raw) ->
             Py.lookup "end" raw = None
             \/ (exists e, Py.int (end_field raw) = Raise e) ->
             end_ts = 0).
Proof.
  split; [reflexivity|].
  apply (extend_state_machine (sample_warning (PInt 200)) 210 60 false).
  reflexivity.
Defined.

(** C3. The extender is not the four-case machine on every warning
    record.  A record whose end is the float infinity, which is what the
    JSON decoder reads from [1e999], has an end that [int()] cannot
    convert, so the claim puts it in the invalid-end case: the warning
    unchanged if invalid ends are allowed, nothing otherwise.  But
    [int()] raises [OverflowError] there, [_get_end_ts] catches only
    [TypeError] and [ValueError], and so the extender raises, whatever the
    time, the grace window and the flag; the cycle that is handed such a
    record raises with it, after it has written the record to the
    cache. *)
Theorem infinite_end_raises now_ts grace allow :
  Py.float_of_str "1e999" = Some (S754_infinity false)
  /\ rawinfo endless_warning = Ok (sample_rawinfo (PFloat (S754_infinity false)))
  /\ Py.int (PFloat (S754_infinity false))
     = raise OverflowError "cannot convert float infinity to integer"
  /\ _get_end_ts endless_warning
     = raise OverflowError "cannot convert float infinity to integer"
  /\ _extend_if_grace_applies endless_warning now_ts grace allow
     = raise OverflowError "cannot convert float infinity to integer"
  /\ _extend_if_grace_applies endless_warning now_ts grace allow
     <> Ok (if allow then Some endless_warning else None)
  /\ fst (_async_update_data init endless_cycle)
     = raise OverflowError "cannot convert float infinity to integer"
  /\ _warning_cache (snd (_async_update_data init endless_cycle))
     = [("1|2|100|inf",
         {| ce_warning := Some endless_warning;
            ce_last_seen_ts := Some 150 |})].
Proof.
  assert (He : _get_end_ts endless_warning
               = raise OverflowError "cannot convert float infinity to integer")
    by reflexivity.
  assert (Hx : _extend_if_grace_applies endless_warning now_ts grace allow
               = raise OverflowError "cannot convert float infinity to integer").
  { unfold _extend_if_grace_applies. by rewrite He. }
  split; [by vm_compute|]. split; [reflexivity|]. split; [reflexivity|].
  split; [exact He|]. split; [exact Hx|].
  split; [rewrite Hx; discriminate|].
  split; by vm_compute.
Qed.

(** C2, as stated, fails for a negative grace window: a warning ending at
    100, seen at 50 with grace -10, satisfies [now <= end + grace], yet the
    record returned still ends at 100, above [end + grace = 90]. *)
Lemma negative_grace_exceeds_bound :
  _get_end_ts (sample_warning (PInt 100)) = Ok 100
  /\ 50 <= 100 + -10
  /\ _extend_if_grace_applies (sample_warning (PInt 100)) 50 (-10) true
     = Ok (Some (sample_warning (PInt 100)))
  /\ ~ 100 <= 100 + -10.
Proof. repeat split; try reflexivity; lia. Qed.

(** C2, amended. For every warning with a valid end ([end > 0]), every
    grace window and every current time: if [now <= end] or
    [now <= end + grace] the extender returns a record whose end [end']
    satisfies [end <= end' <= end + max grace 0]; if [now > end] and
    [now > end + grace] it returns nothing. *)
Theorem extend_end_bounds w end_ts now_ts grace allow :
  _get_end_ts w = Ok end_ts -> 0 < end_ts ->
  (now_ts <= end_ts \/ now_ts <= end_ts + grace ->
   exists r end',
     _extend_if_grace_applies w now_ts grace allow = Ok (Some r)
     /\ _get_end_ts r = Ok end'
     /\ end_ts <= end' <= end_ts + Z.max grace 0)
  /\ (end_ts < now_ts -> end_ts + grace < now_ts ->
      _extend_if_grace_applies w now_ts grace allow = Ok None).
Proof.
  intros He Hpos.
  destruct (extend_cases w end_ts now_ts grace allow He) as (r & Hr & Hc).
  destruct (get_end_ts_inv _ _ He) as (items & props & raw & Hs).
  split.
  - intros Hnow. destruct Hc; try lia.
    + exists w, end_ts. repeat split; auto; lia.
    + eexists _, (end_ts + grace). split; [exact Hr|].
      split; [by rewrite (get_end_ts_copy _ _ _ _ _ Hs)|]. lia.
  - intros H1 H2. destruct Hc; auto; lia.
Qed.

Lemma extend_end_bounds_witness :
  _get_end_ts (sample_warning (PInt 200)) = Ok 200 /\ 0 < 200
  /\ (210 <= 200 \/ 210 <= 200 + 60 ->
      exists r end',
        _extend_if_grace_applies (sample_warning (PInt 200)) 210 60 false
        = Ok (Some r)
        /\ _get_end_ts r = Ok end'
        /\ 200 <= end' <= 200 + Z.max 60 0).
Proof.
  split; [reflexivity|]. split; [lia|].
  apply (extend_end_bounds (sample_warning (PInt 200)) 200 210 60 false);
    [reflexivity | lia].
Defined.

(** ** Key derivation and grace extension *)

(** C1, as stated, fails on the fallback key: the warning without
    identity fields that ends at 200 is extended at 210 with grace 60, and
    the key of the extended copy is not the key of the original. *)
Lemma fallback_key_changes_on_extension :
  _extend_if_grace_applies (sample_warning (PInt 200)) 210 60 true
  = Ok (Some (sample_warning (PInt 260)))
  /\ _warning_key (sample_warning (PInt 200)) = Ok "1|2|100|200"
  /\ _warning_key (sample_warning (PInt 260)) = Ok "1|2|100|260"
  /\ _warning_key (sample_warning (PInt 260))
     <> _warning_key (sample_warning (PInt 200)).
Proof. repeat split; try reflexivity. discriminate. Qed.

(** C1, amended. For every warning and every grace extension the extender
    performs ([0 < end < now <= end + grace]): if one of the identity
    fields [id], [awcode], [warnid], [wcode] of rawinfo is truthy, the key
    of the extended copy equals the key of the original; if none is, both
    keys are composite, they agree on the [wtype], [wlevel] and [start]
    parts, and the last part of the copy's key is [str(end + grace)]. *)
Theorem key_after_extension w end_ts now_ts grace allow :
  _get_end_ts w = Ok end_ts -> 0 < end_ts ->
  end_ts < now_ts -> now_ts <= end_ts + grace ->
  exists copy raw,
    _extend_if_grace_applies w now_ts grace allow = Ok (Some copy)
    /\ rawinfo w = Ok (PDict raw)
    /\ (has_identity raw = true ->
        exists key, _warning_key w = Ok key /\ _warning_key copy = Ok key)
    /\ (has_identity raw = false ->
        _warning_key w =
          Ok (Py.join "|" [key_part raw "wtype"; key_part raw "wlevel";
                           key_part raw "start"; key_part raw "end"])
        /\ _warning_key copy =
          Ok (Py.join "|" [key_part raw "wtype"; key_part raw "wlevel";
                           key_part raw "start";
                           Py.str_of_int (end_ts + grace)])).
Proof.
  intros He Hpos Hlt Hle.
  destruct (extend_cases w end_ts now_ts grace allow He) as (r & Hr & Hc).
  destruct (get_end_ts_inv _ _ He) as (items & props & raw & Hs).
  destruct Hc; try lia.
  exists (set_path end_path (PInt (end_ts + grace)) w), raw.
  split; [exact Hr|]. split; [by apply (rawinfo_shaped _ _ _ _ Hs)|].
  pose proof (shaped_copy _ _ _ _ (PInt (end_ts + grace)) Hs) as Hs'.
  rewrite (warning_key_shaped _ _ _ _ Hs), (warning_key_shaped _ _ _ _ Hs').
  assert (Hid : identity_key (PDict (Py.setitem "end" (PInt (end_ts + grace)) raw))
                  identity_fields
                = identity_key (PDict raw) identity_fields).
  { apply identity_key_ext. intros key Hin. apply lookup_setitem_ne.
    unfold identity_fields in Hin. simpl in Hin.
    intros <-. repeat (destruct Hin as [Hin|Hin]; [discriminate|]). done. }
  rewrite Hid. split.
  - intros Hy. apply identity_key_found in Hy as [key ->]. eauto.
  - intros Hn. apply identity_key_none in Hn as ->. rewrite !bind_Ok.
    split; [reflexivity|]. unfold key_part.
    rewrite !lookup_setitem_ne by discriminate.
    by rewrite lookup_setitem_eq.
Qed.

Lemma key_after_extension_witness :
  _get_end_ts sample_identified = Ok 200 /\ 0 < 200 /\ 200 < 210
  /\ 210 <= 200 + 60
  /\ exists copy raw,
       _extend_if_grace_applies sample_identified 210 60 false = Ok (Some copy)
       /\ rawinfo sample_identified = Ok (PDict raw)
       /\ (has_identity raw = true ->
           exists key, _warning_key sample_identified = Ok key
                       /\ _warning_key copy = Ok key)
       /\ (has_identity raw = false ->
           _warning_key sample_identified =
             Ok (Py.join "|" [key_part raw "wtype"; key_part raw "wlevel";
                              key_part raw "start"; key_part raw "end"])
           /\ _warning_key copy =
             Ok (Py.join "|" [key_part raw "wtype"; key_part raw "wlevel";
                              key_part raw "start";
                              Py.str_of_int (200 + 60)])).
Proof.
  split; [reflexivity|]. repeat (split; [lia|]).
  apply (key_after_extension sample_identified 200 210 60 false);
    [reflexivity | lia | lia | lia].
Defined.

(** ** End values that are text or floats *)

Lemma trunc_toward_zero s m e n :
  Py.trunc (S754_finite s m e) = Some n ->
  (if s then n <= 0 else 0 <= n)
  /\ (0 <= e -> Z.abs n = Zpos m * 2 ^ e)
  /\ (e < 0 -> Z.abs n * 2 ^ (- e) <= Zpos m < (Z.abs n + 1) * 2 ^ (- e)).
Proof.
  unfold Py.trunc. intros [= <-].
  destruct (Z.leb_spec 0 e) as [He|He].
  - assert (0 <= Zpos m * 2 ^ e) by (apply Z.mul_nonneg_nonneg; lia).
    destruct s; repeat split; try lia.
  - assert (Hp : 0 < 2 ^ (- e)) by (apply Z.pow_pos_nonneg; lia).
    pose proof (Z.div_pos (Zpos m) (2 ^ (- e)) ltac:(lia) Hp) as Hq.
    pose proof (Z.mul_div_le (Zpos m) (2 ^ (- e)) Hp) as Hlo.
    pose proof (Z.mul_succ_div_gt (Zpos m) (2 ^ (- e)) Hp) as Hhi.
    destruct s; repeat split; try lia;
      intros _; rewrite ?Z.abs_opp, Z.abs_eq by lia; lia.
Qed.

(** C10. For every warning whose rawinfo [end] is a string that [int()]
    rejects, the extracted end is 0 and the extender takes the invalid-end
    branch whatever time the text denotes: the warning unchanged if invalid
    ends are allowed, nothing otherwise.  A finite float [end] is truncated
    toward zero and, when the result is positive, is a valid end.  The
    strings ["123.5"] and ["2024-06-01T12:00:00"] are rejected; the float
    123.9 gives 123. *)
Theorem end_text_or_float w raw now_ts grace allow :
  rawinfo w = Ok (PDict raw) ->
  (forall s, Py.lookup "end" raw = Some (PStr s) -> Py.int_of_str s = None ->
     _get_end_ts w = Ok 0
     /\ _extend_if_grace_applies w now_ts grace allow
        = Ok (if allow then Some w else None))
  /\ (forall f n, Py.lookup "end" raw = Some (PFloat f) -> Py.trunc f = Some n ->
     _get_end_ts w = Ok n
     /\ (forall sg m e, f = S754_finite sg m e ->
           (if sg then n <= 0 else 0 <= n)
           /\ (0 <= e -> Z.abs n = Zpos m * 2 ^ e)
           /\ (e < 0 ->
               Z.abs n * 2 ^ (- e) <= Zpos m < (Z.abs n + 1) * 2 ^ (- e)))
     /\ (0 < n ->
         exists r, _extend_if_grace_applies w now_ts grace allow = Ok r
                   /\ grace_case w n now_ts grace allow r
                   /\ (now_ts <= n -> r = Some w)))
  /\ Py.int_of_str "123.5" = None
  /\ Py.int_of_str "2024-06-01T12:00:00" = None
  /\ Py.float_of_str "123.9" ≫= Py.trunc = Some 123.
Proof.
  intros Hraw. apply rawinfo_inv in Hraw as (items & props & Hs).
  pose proof (get_end_ts_shaped _ _ _ _ Hs) as Hend.
  split; [|split; [|by vm_compute]].
  - intros s Hl Hbad.
    assert (He : _get_end_ts w = Ok 0).
    { rewrite Hend. unfold end_field. rewrite Hl. simpl. rewrite Hbad.
      by destruct (Py.digits_over_limit s). }
    split; [exact He|].
    unfold _extend_if_grace_applies. by rewrite He.
  - intros f n Hl Ht.
    assert (He : _get_end_ts w = Ok n).
    { rewrite Hend. unfold end_field. rewrite Hl. simpl.
      rewrite Ht. destruct f; try discriminate; reflexivity. }
    split; [exact He|]. split.
    + intros sg m e ->. by apply trunc_toward_zero.
    + intros Hpos.
      destruct (extend_cases w n now_ts grace allow He) as (r & Hr & Hc).
      exists r. repeat split; auto.
      intros Hnow. destruct Hc; auto; lia.
Qed.

Lemma end_text_or_float_witness :
  rawinfo (sample_warning (PStr "2024-06-01T12:00:00"))
  = Ok (sample_rawinfo (PStr "2024-06-01T12:00:00"))
  /\ _get_end_ts (sample_warning (PStr "2024-06-01T12:00:00")) = Ok 0
  /\ _extend_if_grace_applies (sample_warning (PStr "2024-06-01T12:00:00"))
       1717243200 60 false = Ok None.
Proof.
  split; [reflexivity|].
  exact (proj1 (end_text_or_float
                  (sample_warning (PStr "2024-06-01T12:00:00")) _
                  1717243200 60 false eq_refl)
               "2024-06-01T12:00:00" eq_refl eq_refl).
Defined.

(** ** Extra coordinates *)

Lemma float_of_text s :
  Py.float (PStr s) =
  match Py.float_of_str s with
  | Some f => Ok f
  | None =>
      raise ValueError ("could not convert string to float: " +:+ Py.repr_str s)
  end.
Proof. reflexivity. Qed.

Lemma segment_coord_blank segment :
  Py.strip segment = "" -> segment_coord segment = None.
Proof. unfold segment_coord. by intros ->. Qed.

Lemma parse_parts_spec parts coords :
  parse_parts parts coords = Ok (coords ++ omap segment_coord parts)%list.
Proof.
  revert coords. induction parts as [|part parts IH]; intros coords.
  { simpl. by rewrite app_nil_r. }
  cbn [parse_parts omap list_omap].
  destruct (String.eqb_spec (Py.strip part) "") as [Hb|Hb].
  { by rewrite IH, (segment_coord_blank _ Hb). }
  unfold segment_coord.
  destruct (Py.split "," (Py.strip part)) as [|a [|b [|c l]]]; try apply IH.
  rewrite !float_of_text.
  destruct (Py.float_of_str (Py.strip a)) as [lat|];
    destruct (Py.float_of_str (Py.strip b)) as [lon|];
    cbn [try_except mbind outcome_bind raise catches existsb orb];
    rewrite IH; try reflexivity.
  by rewrite <- app_assoc.
Qed.

(** C5. For every text, [_parse_extra_coords] trims each
    semicolon-separated segment, drops every segment that is empty, does
    not split at the comma into exactly two parts, or has a part that
    [float()] rejects, never raises, and returns the coordinates of the
    remaining segments in input order.  The text ["1,2;bad;3,4,5;,"] parses
    to exactly [[(1.0, 2.0)]]. *)
Theorem parse_extra_coords_spec text :
  _parse_extra_coords text = Ok (omap segment_coord (Py.split ";" text))
  /\ (forall segment,
        Py.strip segment = "" -> segment_coord segment = None)
  /\ (forall segment lat lon,
        segment_coord segment = Some (lat, lon) <->
        exists a b, Py.split "," (Py.strip segment) = [a; b]
                    /\ Py.float_of_str (Py.strip a) = Some lat
                    /\ Py.float_of_str (Py.strip b) = Some lon)
  /\ exists one two,
       Py.float_of_int 1 = Some one /\ Py.float_of_int 2 = Some two
       /\ _parse_extra_coords "1,2;bad;3,4,5;," = Ok [(one, two)].
Proof.
  split; [|split; [|split]].
  - unfold _parse_extra_coords.
    destruct (String.eqb_spec text "") as [->|_]; [reflexivity|].
    apply parse_parts_spec.
  - apply segment_coord_blank.
  - intros segment lat lon. unfold segment_coord. split.
    + destruct (Py.split "," (Py.strip segment)) as [|a [|b [|c l]]];
        try discriminate.
      destruct (Py.float_of_str (Py.strip a)) as [x|] eqn:Ea; [|discriminate].
      destruct (Py.float_of_str (Py.strip b)) as [y|] eqn:Eb; [|discriminate].
      intros [= <- <-]. exists a, b. by rewrite Ea, Eb.
    + intros (a & b & -> & -> & ->). reflexivity.
  - eexists _, _. repeat split; reflexivity.
Qed.

(** ** Aborting before the first request *)

Lemma float_raise_class v c msg :
  Py.float v = Raise (Exn c msg) ->
  c = TypeError \/ c = ValueError \/ c = OverflowError.
Proof.
  destruct v as [| |n| |s| |]; simpl; try discriminate;
    try (intros [= <- _]; auto; fail).
  - destruct (Py.float_of_int n); [discriminate|]. intros [= <- _]; auto.
  - destruct (Py.float_of_str s); [discriminate|]. intros [= <- _]; auto.
Qed.

Lemma parse_extra_coords_total text :
  exists more, _parse_extra_coords text = Ok more.
Proof.
  unfold _parse_extra_coords. destruct (String.eqb text ""); [eauto|].
  rewrite parse_parts_spec. eauto.
Qed.

Lemma anchor_raise_class attributes c msg :
  (la ← Py.float (default PNone (Py.lookup "latitude" attributes));
   lo ← Py.float (default PNone (Py.lookup "longitude" attributes));
   Ok (Some (la, lo))) = Raise (Exn c msg) ->
  c = TypeError \/ c = ValueError \/ c = OverflowError.
Proof.
  destruct (Py.float (default PNone (Py.lookup "latitude" attributes)))
    as [la|e1] eqn:E1.
  - rewrite bind_Ok.
    destruct (Py.float (default PNone (Py.lookup "longitude" attributes)))
      as [lo|e2] eqn:E2; [discriminate|].
    rewrite bind_Raise. intros [= ->]. by eapply float_raise_class.
  - rewrite bind_Raise. intros [= ->]. by eapply float_raise_class.
Qed.

(** Unfolding [resolve_coords] once the anchor has both coordinates. *)
Lemma resolve_coords_anchor inp attributes :
  zone_home inp = Some attributes ->
  default PNone (Py.lookup "longitude" attributes) <> PNone ->
  default PNone (Py.lookup "latitude" attributes) <> PNone ->
  resolve_coords inp =
  (anchor ← try_except
     (la ← Py.float (default PNone (Py.lookup "latitude" attributes));
      lo ← Py.float (default PNone (Py.lookup "longitude" attributes));
      Ok (Some (la, lo)))
     [TypeError; ValueError] (Ok None);
   match anchor with
   | None => raise UpdateFailed "zone.home has invalid coordinates"
   | Some c => more ← _parse_extra_coords (extra inp); Ok (c :: more)
   end).
Proof.
  intros Hz Hlon Hlat. unfold resolve_coords. rewrite Hz.
  destruct (default PNone (Py.lookup "longitude" attributes)) eqn:Elon;
    try congruence;
    destruct (default PNone (Py.lookup "latitude" attributes)) eqn:Elat;
    try congruence; reflexivity.
Qed.

(** A cycle aborts before fetching exactly under the [fatal] conditions;
    the defensive zero-coordinates check is never the cause. *)
Lemma resolve_coords_fatal inp msg :
  resolve_coords inp = raise UpdateFailed msg <-> fatal inp msg.
Proof.
  split.
  - intros H. destruct (zone_home inp) as [attributes|] eqn:Hz.
    2:{ unfold resolve_coords in H. rewrite Hz in H.
        injection H as <-. by constructor. }
    destruct (default PNone (Py.lookup "longitude" attributes)) eqn:Hlon.
    1:{ unfold resolve_coords in H. rewrite Hz, Hlon in H.
        injection H as <-. econstructor 2; eauto. }
    all: destruct (default PNone (Py.lookup "latitude" attributes)) eqn:Hlat.
    all: try (unfold resolve_coords in H; rewrite Hz, Hlon, Hlat in H;
              injection H as <-; econstructor 2; eauto; fail).
    all: rewrite (resolve_coords_anchor _ _ Hz) in H
           by (rewrite ?Hlon, ?Hlat; discriminate).
    all: rewrite Hlon, Hlat in H.
    all: match type of H with
         | (try_except ?body _ _ ≫= _) = _ =>
             destruct body as [[c|]|[cls m]] eqn:Ea
         end.
    all: cbn [try_except] in H.
    all: try (rewrite bind_Ok in H;
              destruct (parse_extra_coords_total (extra inp)) as [more Hm];
              rewrite Hm in H; discriminate).
    all: try (apply bind_Ok_inv in Ea as (la & _ & Ea);
              apply bind_Ok_inv in Ea as (lo & _ & Ea); discriminate).
    all: destruct (catches [TypeError; ValueError] (Exn cls m)) eqn:Ec.
    all: try (rewrite bind_Ok in H; injection H as <-;
              eapply (coordinates_unparsable _ attributes (Exn cls m));
              rewrite ?Hlon, ?Hlat; eauto; discriminate).
    all: rewrite bind_Raise in H; injection H as -> _.
    all: rewrite <- Hlon, <- Hlat in Ea.
    all: apply anchor_raise_class in Ea as [?|[?|?]]; discriminate.
  - intros [Hz|attributes Hz Hnone|attributes e Hz Hlon Hlat Ha Hc].
    + unfold resolve_coords. by rewrite Hz.
    + unfold resolve_coords. rewrite Hz. destruct Hnone as [->| ->];
        [reflexivity|].
      by destruct (default PNone (Py.lookup "longitude" attributes)).
    + rewrite (resolve_coords_anchor _ _ Hz Hlon Hlat), Ha.
      cbn [try_except]. by rewrite Hc.
Qed.



(** ** Cycles without a successful fetch *)

Lemma fetch_one_no_success get n c f :
  ~ fetch_succeeded (get n (url_for c)) ->
  any_success (fetch_one get n c f) = any_success f.
Proof.
  intros Hno. unfold fetch_one.
  destruct (get n (url_for c)) as [resp|err] eqn:Eg; [|reflexivity].
  destruct (Z.eqb_spec (status resp) 200) as [Hst|Hst]; [|reflexivity].
  cbn [negb].
  destruct (json resp) as [data|err] eqn:Ej; [|reflexivity].
  destruct Hno. by exists resp, data.
Qed.

Lemma fetch_from_no_success get n coords f :
  (forall i c, coords !! i = Some c ->
               ~ fetch_succeeded (get (n + i)%nat (url_for c))) ->
  any_success (fetch_from get n coords f) = any_success f.
Proof.
  revert n f. induction coords as [|c coords IH]; intros n f H; [reflexivity|].
  cbn [fetch_from]. rewrite IH.
  - apply fetch_one_no_success.
    specialize (H 0%nat c eq_refl). by rewrite Nat.add_0_r in H.
  - intros i c' Hi. specialize (H (S i) c' Hi).
    by rewrite Nat.add_succ_r in H.
Qed.

(** C7. For every cycle that resolves its coordinates and in which no
    coordinate fetch succeeds: if a last-successful snapshot exists,
    [_async_update_data] returns that snapshot, signals no failure and
    keeps the snapshot and the cache; if none exists, it raises
    [UpdateFailed]. *)
Theorem total_failure self inp coords :
  resolve_coords inp = Ok coords ->
  (forall n c, coords !! n = Some c ->
               ~ fetch_succeeded (session_get inp n (url_for c))) ->
  exists self',
    _warning_cache self' = _warning_cache self
    /\ _last_successful_data self' = _last_successful_data self
    /\ match _last_successful_data self with
       | Some data => _async_update_data self inp = (Ok data, self')
       | None =>
           _async_update_data self inp =
           (raise UpdateFailed "Error fetching data: all requests failed", self')
       end.
Proof.
  intros Hc Hno. unfold _async_update_data. rewrite Hc.
  assert (Hs : any_success (fetch_all (session_get inp) coords) = false).
  { unfold fetch_all. by rewrite fetch_from_no_success. }
  rewrite Hs. cbn [set_api_status set_request_utc _last_successful_data].
  eexists. split; [|split]; [| |destruct (_last_successful_data self);
                                reflexivity]; reflexivity.
Qed.

Lemma total_failure_witness :
  (exists coords, resolve_coords offline_cycle = Ok coords)
  /\ exists self',
       _async_update_data warmed_up offline_cycle
       = (Ok (result_of [sample_identified]), self')
       /\ _warning_cache self' = _warning_cache warmed_up.
Proof.
  split; [eexists; reflexivity|].
  destruct (total_failure warmed_up offline_cycle _ eq_refl)
    as (self' & Hcache & _ & Hrun).
  - intros n c _ (resp & data & Hr & _). discriminate.
  - exists self'. split; [exact Hrun | exact Hcache].
Defined.

(** ** Insertion-ordered dicts *)

Lemma lookup_None_keys {V} key (d : list (string * V)) :
  Py.lookup key d = None <-> ~ In key (map fst d).
Proof.
  induction d as [|[k x] d IH]; simpl; [tauto|].
  destruct (String.eqb_spec k key) as [->|Hne].
  - split; [discriminate | tauto].
  - rewrite IH. tauto.
Qed.

Lemma lookup_Some_In {V} key (x : V) d :
  Py.lookup key d = Some x -> In (key, x) d.
Proof.
  induction d as [|[k y] d IH]; simpl; [discriminate|].
  destruct (String.eqb_spec k key) as [->|Hne]; [intros [= ->]|]; auto.
Qed.

Lemma In_lookup {V} key (x : V) d :
  List.NoDup (map fst d) -> In (key, x) d -> Py.lookup key d = Some x.
Proof.
  induction d as [|[k y] d IH]; simpl; [tauto|].
  intros Hnd [Heq|Hin].
  - injection Heq as -> ->. by rewrite String.eqb_refl.
  - apply List.NoDup_cons_iff in Hnd as [Hk Hnd].
    destruct (String.eqb_spec k key) as [->|Hne]; [|auto].
    destruct Hk. apply (in_map fst) in Hin. exact Hin.
Qed.

Lemma keys_setitem {V} key key' (x : V) d :
  In key' (map fst (Py.setitem key x d)) <-> key' = key \/ In key' (map fst d).
Proof.
  induction d as [|[k y] d IH]; simpl; [intuition|].
  destruct (String.eqb_spec k key) as [->|Hne]; simpl; [intuition|].
  rewrite IH. intuition.
Qed.

Lemma NoDup_setitem {V} key (x : V) d :
  List.NoDup (map fst d) -> List.NoDup (map fst (Py.setitem key x d)).
Proof.
  induction d as [|[k y] d IH]; simpl; intros Hnd.
  - apply List.NoDup_cons_iff. split; [tauto | constructor].
  - apply List.NoDup_cons_iff in Hnd as [Hk Hnd].
    destruct (String.eqb_spec k key) as [->|Hne]; simpl;
      apply List.NoDup_cons_iff; split; auto.
    rewrite keys_setitem. intros [->|?]; auto.
Qed.

Lemma keys_pop {V} key key' (d : list (string * V)) :
  In key' (map fst (Py.pop key d)) -> In key' (map fst d).
Proof.
  induction d as [|[k y] d IH]; simpl; [tauto|].
  destruct (String.eqb_spec k key); simpl; intuition.
Qed.

Lemma NoDup_pop {V} key (d : list (string * V)) :
  List.NoDup (map fst d) -> List.NoDup (map fst (Py.pop key d)).
Proof.
  induction d as [|[k y] d IH]; simpl; intros Hnd; [constructor|].
  apply List.NoDup_cons_iff in Hnd as [Hk Hnd].
  destruct (String.eqb_spec k key); simpl; [done|].
  apply List.NoDup_cons_iff. split; auto.
  intros Hin. apply Hk. by eapply keys_pop.
Qed.

Lemma lookup_pop_ne {V} key key' (d : list (string * V)) :
  key <> key' -> Py.lookup key' (Py.pop key d) = Py.lookup key' d.
Proof.
  intros Hne. induction d as [|[k y] d IH]; simpl; [done|].
  destruct (String.eqb_spec k key) as [->|Hk]; simpl.
  - destruct (String.eqb_spec key key'); [congruence | done].
  - by rewrite IH.
Qed.

Lemma lookup_pop_eq {V} key (d : list (string * V)) :
  List.NoDup (map fst d) -> Py.lookup key (Py.pop key d) = None.
Proof.
  induction d as [|[k y] d IH]; simpl; intros Hnd; [done|].
  apply List.NoDup_cons_iff in Hnd as [Hk Hnd].
  destruct (String.eqb_spec k key) as [->|Hne]; simpl.
  - by apply lookup_None_keys.
  - destruct (String.eqb_spec k key); [congruence | auto].
Qed.

Lemma lookup_pop_None {V} key key' (d : list (string * V)) :
  Py.lookup key d = None -> Py.lookup key (Py.pop key' d) = None.
Proof.
  rewrite !lookup_None_keys. intros Hn Hin. apply Hn. by eapply keys_pop.
Qed.

Lemma pop_all_cons key expired cache :
  pop_all (key :: expired) cache = pop_all expired (Py.pop key cache).
Proof. reflexivity. Qed.

Lemma NoDup_pop_all expired cache :
  List.NoDup (map fst cache) -> List.NoDup (map fst (pop_all expired cache)).
Proof.
  revert cache. induction expired as [|k ks IH]; intros cache Hnd; [done|].
  rewrite pop_all_cons. apply IH. by apply NoDup_pop.
Qed.

Lemma lookup_pop_all_None expired cache key :
  Py.lookup key cache = None -> Py.lookup key (pop_all expired cache) = None.
Proof.
  revert cache. induction expired as [|k ks IH]; intros cache H; [done|].
  rewrite pop_all_cons. apply IH. by apply lookup_pop_None.
Qed.

Lemma lookup_pop_all_in expired cache key :
  List.NoDup (map fst cache) -> In key expired ->
  Py.lookup key (pop_all expired cache) = None.
Proof.
  revert cache. induction expired as [|k ks IH]; intros cache Hnd; [done|].
  rewrite pop_all_cons. intros [->|Hin].
  - apply lookup_pop_all_None. by apply lookup_pop_eq.
  - apply IH; [by apply NoDup_pop | done].
Qed.

Lemma lookup_pop_all_notin expired cache key :
  ~ In key expired ->
  Py.lookup key (pop_all expired cache) = Py.lookup key cache.
Proof.
  revert cache. induction expired as [|k ks IH]; intros cache Hn; [done|].
  simpl in Hn. rewrite pop_all_cons, IH by tauto.
  apply lookup_pop_ne. tauto.
Qed.

(** ** Reconciling with the cache *)

Lemma refresh_cons w ws now_ts grace cache keys out :
  refresh (w :: ws) now_ts grace cache keys out =
  match _warning_key w with
  | Raise e => (Raise e, cache)
  | Ok key =>
      let cache' :=
        Py.setitem key {| ce_warning := Some w;
                          ce_last_seen_ts := Some now_ts |} cache in
      match _extend_if_grace_applies w now_ts grace true with
      | Raise e => (Raise e, cache')
      | Ok extended =>
          refresh ws now_ts grace cache' ({[key]} ∪ keys)
            (out ++ passed (Ok extended))%list
      end
  end.
Proof.
  cbn [refresh]. destruct (_warning_key w) as [key|]; [|done].
  destruct (_extend_if_grace_applies w now_ts grace true) as [[x|]|]; try done.
  cbn [passed]. by rewrite app_nil_r.
Qed.

Lemma refresh_NoDup ws now_ts grace cache keys out :
  List.NoDup (map fst cache) ->
  List.NoDup (map fst (snd (refresh ws now_ts grace cache keys out))).
Proof.
  revert cache keys out. induction ws as [|w ws IH]; intros cache keys out Hnd;
    [done|].
  rewrite refresh_cons. destruct (_warning_key w) as [key|]; [|done].
  cbn zeta.
  destruct (_extend_if_grace_applies w now_ts grace true) as [extended|].
  - apply IH. by apply NoDup_setitem.
  - by apply NoDup_setitem.
Qed.

(** A run of the first loop that does not raise: the keys seen, the cache
    entries it leaves alone, and its output. *)
Lemma refresh_ok ws now_ts grace cache keys out keys' out' cache' :
  refresh ws now_ts grace cache keys out = (Ok (keys', out'), cache') ->
  (forall k, k ∈ keys' <->
             k ∈ keys \/ exists w, In w ws /\ _warning_key w = Ok k)
  /\ (forall k, k ∉ keys' -> Py.lookup k cache' = Py.lookup k cache)
  /\ out' = (out ++ flat_map
               (fun w => passed (_extend_if_grace_applies w now_ts grace true))
               ws)%list.
Proof.
  revert cache keys out.
  induction ws as [|w ws IH]; intros cache keys out H.
  { injection H as <- <- <-. repeat split.
    - auto.
    - intros [?|(w & [] & _)]; auto.
    - by rewrite app_nil_r. }
  rewrite refresh_cons in H.
  destruct (_warning_key w) as [key|] eqn:Ek; [|discriminate].
  cbn zeta in H.
  destruct (_extend_if_grace_applies w now_ts grace true) as [extended|] eqn:Ex;
    [|discriminate].
  apply IH in H as (Hkeys & Hcache & ->). repeat split.
  - intros Hin. apply Hkeys in Hin as [Hin|(w' & Hw' & Hk')].
    + apply elem_of_union in Hin as [Hin|Hin]; [|by left].
      apply elem_of_singleton in Hin as ->. right. exists w. split; [by left|done].
    + right. exists w'. split; [by right|done].
  - intros [Hin|(w' & [<-|Hw'] & Hk')]; apply Hkeys.
    + left. apply elem_of_union. by right.
    + left. apply elem_of_union. left. apply elem_of_singleton. congruence.
    + right. eauto.
  - intros k Hk. rewrite Hcache by done. apply lookup_setitem_ne.
    intros ->. apply Hk, Hkeys. left. apply elem_of_union. left.
    by apply elem_of_singleton.
  - cbn [flat_map]. by rewrite Ex, app_assoc.
Qed.

Lemma entry_fate_functional entry now_ts grace fate fate' :
  entry_fate entry now_ts grace fate -> entry_fate entry now_ts grace fate' ->
  fate = fate'.
Proof.
  intros H H'. destruct H; destruct H'; try done; try lia; congruence.
Qed.

Lemma reconcile_cons key entry rest keys now_ts grace out expired :
  reconcile ((key, entry) :: rest) keys now_ts grace out expired =
  if bool_decide (key ∈ keys) then reconcile rest keys now_ts grace out expired
  else if (grace <=? 0) || (last_seen entry =? 0) then
    reconcile rest keys now_ts grace out (expired ++ [key])%list
  else if grace <? now_ts - last_seen entry then
    reconcile rest keys now_ts grace out (expired ++ [key])%list
  else
    extended ← _extend_if_grace_applies (cached_warning entry) now_ts grace false;
    match extended with
    | Some w => reconcile rest keys now_ts grace (out ++ [w])%list expired
    | None => reconcile rest keys now_ts grace out (expired ++ [key])%list
    end.
Proof. reflexivity. Qed.

(** A run of the second loop that does not raise: every entry whose key
    was not seen meets its fate. *)
Lemma reconcile_ok entries keys now_ts grace out expired out' expired' :
  reconcile entries keys now_ts grace out expired = Ok (out', expired') ->
  (exists stale, out' = (out ++ stale)%list)
  /\ (forall k, In k expired -> In k expired')
  /\ (forall k, In k expired' ->
        In k expired
        \/ exists entry, In (k, entry) entries /\ (k ∉ keys)
                         /\ entry_fate entry now_ts grace None)
  /\ (forall k entry, In (k, entry) entries -> k ∉ keys ->
        exists fate, entry_fate entry now_ts grace fate
                     /\ match fate with
                        | Some w => In w out'
                        | None => In k expired'
                        end).
Proof.
  revert out expired out' expired'.
  induction entries as [|[key entry] rest IH];
    intros out expired out' expired' H.
  { injection H as <- <-. repeat split; auto.
    - exists []. by rewrite app_nil_r.
    - intros k entry []. }
  rewrite reconcile_cons in H.
  destruct (bool_decide (key ∈ keys)) eqn:Eseen.
  { apply bool_decide_eq_true in Eseen.
    apply IH in H as (Hout & Hexp & Hsrc & Hfate). repeat split; auto.
    - intros k Hk. destruct (Hsrc k Hk) as [?|(e & ? & ? & ?)]; [by left|].
      right. exists e. repeat split; auto. by right.
    - intros k e [[= -> ->]|Hin] Hk; [done | eauto]. }
  apply bool_decide_eq_false in Eseen.
  assert (Hdrop : forall out'' expired'',
    reconcile rest keys now_ts grace out (expired ++ [key])%list
    = Ok (out'', expired'') ->
    entry_fate entry now_ts grace None ->
    (exists stale, out'' = (out ++ stale)%list)
    /\ (forall k, In k expired -> In k expired'')
    /\ (forall k, In k expired'' ->
          In k expired
          \/ exists e, In (k, e) ((key, entry) :: rest) /\ (k ∉ keys)
                       /\ entry_fate e now_ts grace None)
    /\ (forall k e, In (k, e) ((key, entry) :: rest) -> k ∉ keys ->
          exists fate, entry_fate e now_ts grace fate
                       /\ match fate with
                          | Some w => In w out''
                          | None => In k expired''
                          end)).
  { intros out'' expired'' Hrun Hgone.
    apply IH in Hrun as (Hout & Hexp & Hsrc & Hfate). repeat split; auto.
    - intros k Hk. apply Hexp, in_or_app. by left.
    - intros k Hk. destruct (Hsrc k Hk) as [Hin|(e & ? & ? & ?)].
      + apply in_app_or in Hin as [?|[<-|[]]]; [by left|].
        right. exists entry. repeat split; auto. by left.
      + right. exists e. repeat split; auto. by right.
    - intros k e [[= -> ->]|Hin] Hk; [|eauto].
      exists None. split; [done|]. apply Hexp, in_or_app. right. by left. }
  destruct ((grace <=? 0) || (last_seen entry =? 0)) eqn:Eno.
  { apply Hdrop; [done|]. constructor 1.
    apply orb_true_iff in Eno as [?|?]; lia. }
  apply orb_false_iff in Eno as [Hg Hl].
  destruct (Z.ltb_spec grace (now_ts - last_seen entry)) as [Hold|Hold].
  { apply Hdrop; [done|]. constructor 2; lia. }
  destruct (_extend_if_grace_applies (cached_warning entry) now_ts grace false)
    as [[w|]|] eqn:Ex; [| |discriminate]; rewrite bind_Ok in H.
  - apply IH in H as ([stale ->] & Hexp & Hsrc & Hfate). repeat split; auto.
    + exists (w :: stale). by rewrite <- app_assoc.
    + intros k Hk. destruct (Hsrc k Hk) as [?|(e & ? & ? & ?)]; [by left|].
      right. exists e. repeat split; auto. by right.
    + intros k e [[= -> ->]|Hin] Hk; [|eauto].
      exists (Some w). split; [constructor 3; auto; lia|].
      apply in_or_app. left. apply in_or_app. right. by left.
  - apply Hdrop; [done|]. constructor 4; auto; lia.
Qed.

(** Cached warning records never make the second loop raise. *)
Lemma reconcile_total entries keys now_ts grace out expired :
  cache_ok entries ->
  exists out' expired',
    reconcile entries keys now_ts grace out expired = Ok (out', expired').
Proof.
  intros Hok. revert out expired.
  induction Hok as [|[key entry] rest Hw Hok IH]; intros out expired; [eauto|].
  rewrite reconcile_cons.
  destruct (bool_decide (key ∈ keys)); [apply IH|].
  destruct ((grace <=? 0) || (last_seen entry =? 0)); [apply IH|].
  destruct (grace <? now_ts - last_seen entry); [apply IH|].
  change (warning_record (cached_warning entry) = true) in Hw.
  destruct (get_end_ts_total _ Hw) as [end_ts He].
  destruct (extend_cases _ end_ts now_ts grace false He) as (r & -> & _).
  rewrite bind_Ok. destruct r; apply IH.
Qed.

(** The keys of the cache stay distinct through every cycle, whatever its
    outcome; they are distinct in [init]. *)
Lemma cycle_keeps_keys_distinct self inp :
  List.NoDup (map fst (_warning_cache self)) ->
  List.NoDup (map fst (_warning_cache (snd (_async_update_data self inp)))).
Proof.
  intros Hnd. unfold _async_update_data.
  destruct (resolve_coords inp) as [coords|[[] msg]]; try done.
  destruct (any_success _); [|by destruct (_last_successful_data _)].
  unfold reconcile_cycle.
  match goal with
  | |- context [refresh ?ws ?n ?g ?c ?k ?o] =>
      pose proof (refresh_NoDup ws n g c k o Hnd) as Hnd1;
      destruct (refresh ws n g c k o) as [[[keys fresh]|e] cache1]
  end; [|done].
  cbn [snd] in Hnd1.
  destruct (reconcile cache1 keys _ _ fresh []) as [[out expired]|e]; [|done].
  by apply NoDup_pop_all.
Qed.

(** C8. For every successful cycle and every cache entry whose key is not
    among the keys seen this cycle: the entry is removed if the grace
    window is not positive or the entry has no recorded last-seen time;
    otherwise it is removed if [now - last_seen_ts > grace]; otherwise the
    extender is applied to the cached warning with invalid ends not
    allowed, and either its result is in the output and the entry stays,
    or it returns nothing and the entry is removed. *)
Theorem stale_entries_reconciled self inp coords result self' key entry :
  List.NoDup (map fst (_warning_cache self)) ->
  resolve_coords inp = Ok coords ->
  any_success (fetch_all (session_get inp) coords) = true ->
  _async_update_data self inp = (Ok result, self') ->
  Py.lookup key (_warning_cache self) = Some entry ->
  (forall w, In w (combined_warnings (fetch_all (session_get inp) coords)) ->
             _warning_key w <> Ok key) ->
  exists fate,
    entry_fate entry (timestamp (utcnow inp)) (grace_seconds inp) fate
    /\ match fate with
       | Some w =>
           In w (warnings_in result)
           /\ Py.lookup key (_warning_cache self') = Some entry
       | None => Py.lookup key (_warning_cache self') = None
       end.
Proof.
  intros Hnd Hc Hs Hrun Hentry Hunseen.
  unfold _async_update_data in Hrun. rewrite Hc, Hs in Hrun.
  unfold reconcile_cycle in Hrun.
  cbn [set_api_status set_request_utc _warning_cache] in Hrun.
  pose proof (refresh_NoDup
                (combined_warnings (fetch_all (session_get inp) coords))
                (timestamp (utcnow inp)) (grace_seconds inp)
                (_warning_cache self) ∅ [] Hnd) as Hnd1.
  destruct (refresh _ _ _ (_warning_cache self) ∅ [])
    as [[[keys fresh]|e] cache1] eqn:Er; [|discriminate].
  cbn [snd] in Hnd1.
  destruct (reconcile cache1 keys _ _ fresh []) as [[out expired]|e] eqn:Erc;
    [|discriminate].
  injection Hrun as <- <-.
  cbn [set_result set_cache _warning_cache warnings_in result_of].
  apply refresh_ok in Er as (Hkeys & Hcache & _).
  assert (Hk : key ∉ keys).
  { intros Hin. apply Hkeys in Hin as [Hin|(w & Hw & Hkw)].
    - by apply not_elem_of_empty in Hin.
    - by apply (Hunseen w). }
  assert (Hin1 : In (key, entry) cache1).
  { apply lookup_Some_In. by rewrite Hcache. }
  apply reconcile_ok in Erc as (_ & _ & Hsrc & Hfate).
  destruct (Hfate key entry Hin1 Hk) as (fate & Hf & Hres).
  exists fate. split; [done|]. destruct fate as [w|].
  - split; [done|].
    rewrite lookup_pop_all_notin; [by rewrite Hcache|].
    intros Hexp. destruct (Hsrc key Hexp) as [[]|(e & He & _ & Hgone)].
    assert (e = entry) as ->.
    { apply (In_lookup _ _ _ Hnd1) in He, Hin1. congruence. }
    pose proof (entry_fate_functional _ _ _ _ _ Hf Hgone). discriminate.
  - by apply lookup_pop_all_in.
Qed.

Lemma stale_entries_reconciled_witness :
  List.NoDup (map fst (_warning_cache warmed_up))
  /\ exists result self' fate,
       _async_update_data warmed_up quiet_cycle = (Ok result, self')
       /\ entry_fate {| ce_warning := Some sample_identified;
                        ce_last_seen_ts := Some 100 |} 150 60 fate
       /\ match fate with
          | Some w =>
              In w (warnings_in result)
              /\ Py.lookup "warnid:4711" (_warning_cache self')
                 = Some {| ce_warning := Some sample_identified;
                           ce_last_seen_ts := Some 100 |}
          | None => Py.lookup "warnid:4711" (_warning_cache self') = None
          end.
Proof.
  assert (Hnd : List.NoDup (map fst (_warning_cache warmed_up))).
  { repeat constructor. simpl. tauto. }
  split; [exact Hnd|].
  assert (Hrun : _async_update_data warmed_up quiet_cycle
                 = (Ok (result_of [sample_identified]),
                    snd (_async_update_data warmed_up quiet_cycle)))
    by reflexivity.
  destruct (stale_entries_reconciled warmed_up quiet_cycle
              [(lat_47_5, lon_15_25)] _ _ "warnid:4711"
              {| ce_warning := Some sample_identified;
                 ce_last_seen_ts := Some 100 |}
              Hnd eq_refl eq_refl Hrun eq_refl)
    as (fate & Hfate & Hkept).
  - intros w [].
  - exists (result_of [sample_identified]),
           (snd (_async_update_data warmed_up quiet_cycle)), fate. auto.
Defined.

(** ** Partial failure *)

Lemma cache_ok_setitem key w ts cache :
  cache_ok cache -> warning_record w = true ->
  cache_ok (Py.setitem key {| ce_warning := Some w; ce_last_seen_ts := ts |}
              cache).
Proof.
  intros Hok Hw. induction Hok as [|[k e] rest He Hok IH]; simpl.
  - by repeat constructor.
  - destruct (String.eqb k key); constructor; auto.
Qed.

(** The first loop on a single warning record. *)
Lemma refresh_one w now_ts grace cache :
  warning_record w = true ->
  exists key r,
    _warning_key w = Ok key
    /\ _extend_if_grace_applies w now_ts grace true = Ok r
    /\ refresh [w] now_ts grace cache ∅ [] =
       (Ok ({[key]} ∪ ∅, passed (Ok r)),
        Py.setitem key {| ce_warning := Some w;
                          ce_last_seen_ts := Some now_ts |} cache).
Proof.
  intros Hw. destruct (warning_key_total _ Hw) as [key Hk].
  destruct (get_end_ts_total _ Hw) as [end_ts He].
  destruct (extend_cases w end_ts now_ts grace true He) as (r & Hr & _).
  exists key, r. repeat split; auto.
  by rewrite refresh_cons, Hk, Hr.
Qed.

(** The fetch loop over two coordinates of which one is answered with
    status 200 and one warning, the other with status 500. *)
Lemma fetch_one_good_one_bad get c0 c1 (first_ok : bool) r0 r1 data w :
  get 0%nat (url_for c0) = Returned r0 ->
  get 1%nat (url_for c1) = Returned r1 ->
  status (if first_ok then r0 else r1) = 200 ->
  json (if first_ok then r0 else r1) = Returned data ->
  warnings_of data = Ok [w] ->
  status (if first_ok then r1 else r0) = 500 ->
  fetch_all get [c0; c1] =
  {| combined_warnings := [w]; any_success := true;
     max_http_status := Some 500;
     error_messages :=
       [coord_prefix (if first_ok then c1 else c0) +:+ "HTTP "
        +:+ Py.str_of_int 500 +:+ " "
        +:+ match text (if first_ok then r1 else r0) with
            | Returned t => t
            | Failed _ => "<no body>"
            end] |}.
Proof.
  intros H0 H1 Hgood Hjson Hw Hbad.
  unfold fetch_all. cbn [fetch_from]. unfold fetch_one.
  rewrite H0, H1.
  destruct first_ok; rewrite Hgood, Hbad, Hjson, Hw; reflexivity.
Qed.

(** C6, as stated, fails when the one warning is long expired: in
    [partial_cycle] the cycle succeeds with a partial failure and status
    500, but its output holds no warning. *)
Lemma expired_warning_not_in_output :
  resolve_coords partial_cycle
  = Ok [(lat_47_5, lon_15_25); (lat_48_2, lon_16_4)]
  /\ any_success (fetch_all (session_get partial_cycle)
                    [(lat_47_5, lon_15_25); (lat_48_2, lon_16_4)]) = true
  /\ fst (_async_update_data init partial_cycle) = Ok (result_of [])
  /\ had_partial_failure (snd (_async_update_data init partial_cycle)) = true
  /\ last_http_status (snd (_async_update_data init partial_cycle)) = Some 500
  /\ ~ In (sample_warning (PInt 100))
          (warnings_in (result_of [])).
Proof. repeat split; by vm_compute. Qed.

(** C6, amended. For every cycle over two coordinates in which one fetch
    returns status 200 with a body holding one warning record and the
    other returns status 500, from a cache of warning records: the cycle
    succeeds ([any_success]), [had_partial_failure] is true,
    [last_http_status] is 500, [last_http_response] is the one diagnostic
    for the failing coordinate, prefixed with it, and the output begins
    with what the extender, invalid ends allowed, returns for the
    warning: the warning itself when its end is invalid or not yet past,
    the grace-extended copy within the grace window, and nothing once
    [now > end + grace]. *)
Theorem partial_failure self inp c0 c1 (first_ok : bool) r0 r1 data w :
  resolve_coords inp = Ok [c0; c1] ->
  session_get inp 0%nat (url_for c0) = Returned r0 ->
  session_get inp 1%nat (url_for c1) = Returned r1 ->
  status (if first_ok then r0 else r1) = 200 ->
  json (if first_ok then r0 else r1) = Returned data ->
  warnings_of data = Ok [w] ->
  status (if first_ok then r1 else r0) = 500 ->
  warning_record w = true ->
  cache_ok (_warning_cache self) ->
  exists self' r stale,
    any_success (fetch_all (session_get inp) [c0; c1]) = true
    /\ _extend_if_grace_applies w (timestamp (utcnow inp)) (grace_seconds inp)
         true = Ok r
    /\ _async_update_data self inp
       = (Ok (result_of (passed (Ok r) ++ stale)), self')
    /\ had_partial_failure self' = true
    /\ last_http_status self' = Some 500
    /\ last_http_response self' =
       Some (coord_prefix (if first_ok then c1 else c0) +:+ "HTTP 500 "
             +:+ match text (if first_ok then r1 else r0) with
                 | Returned t => t
                 | Failed _ => "<no body>"
                 end)
    /\ exists end_ts,
         _get_end_ts w = Ok end_ts
         /\ grace_case w end_ts (timestamp (utcnow inp)) (grace_seconds inp)
              true r.
Proof.
  intros Hc H0 H1 Hgood Hjson Hws Hbad Hw Hok.
  pose proof (fetch_one_good_one_bad _ _ _ _ _ _ _ _ H0 H1 Hgood Hjson Hws Hbad)
    as Hf.
  destruct (refresh_one w (timestamp (utcnow inp)) (grace_seconds inp)
              (_warning_cache self) Hw) as (key & r & Hk & Hr & Hrefresh).
  destruct (reconcile_total
              (Py.setitem key {| ce_warning := Some w;
                                 ce_last_seen_ts := Some (timestamp (utcnow inp)) |}
                          (_warning_cache self))
              ({[key]} ∪ ∅) (timestamp (utcnow inp)) (grace_seconds inp)
              (passed (Ok r)) [])
    as (out & expired & Hrec); [by apply cache_ok_setitem|].
  pose proof Hrec as Hrec'.
  apply reconcile_ok in Hrec' as ([stale ->] & _).
  eexists _, r, stale.
  split; [by rewrite Hf|]. split; [exact Hr|].
  split.
  { unfold _async_update_data. rewrite Hc, Hf.
    cbn [any_success]. unfold reconcile_cycle.
    cbn [set_api_status set_request_utc _warning_cache combined_warnings].
    rewrite Hrefresh, Hrec. reflexivity. }
  cbn [set_result set_cache set_api_status set_request_utc had_partial_failure
       last_http_status last_http_response max_http_status error_messages
       Py.join].
  repeat split.
  destruct (get_end_ts_total _ Hw) as [end_ts He].
  destruct (extend_cases w end_ts (timestamp (utcnow inp)) (grace_seconds inp)
              true He) as (r' & Hr' & Hcase).
  exists end_ts. split; [done|]. congruence.
Qed.

Lemma partial_failure_witness :
  warning_record (sample_warning (PInt 1060)) = true
  /\ cache_ok (_warning_cache init)
  /\ exists self' r stale,
       _extend_if_grace_applies (sample_warning (PInt 1060)) 1000 60 true = Ok r
       /\ _async_update_data init
            {| utcnow := 1000000000; grace_seconds := 60; extra := "48.2,16.4";
               zone_home := Some sample_zone;
               session_get := fun n _ =>
                 match n with
                 | O => Returned (ok_with [sample_warning (PInt 1060)])
                 | _ => Returned server_error
                 end |}
          = (Ok (result_of (passed (Ok r) ++ stale)), self')
       /\ had_partial_failure self' = true
       /\ last_http_status self' = Some 500.
Proof.
  split; [reflexivity|]. split; [constructor|].
  destruct (partial_failure init
              {| utcnow := 1000000000; grace_seconds := 60; extra := "48.2,16.4";
                 zone_home := Some sample_zone;
                 session_get := fun n _ =>
                   match n with
                   | O => Returned (ok_with [sample_warning (PInt 1060)])
                   | _ => Returned server_error
                   end |}
              _ _ true _ _ _ (sample_warning (PInt 1060))
              eq_refl eq_refl eq_refl eq_refl eq_refl eq_refl eq_refl eq_refl
              (@List.Forall_nil _ _))
    as (self' & r & stale & _ & Hr & Hrun & Hp & Hs & _).
  exists self', r, stale. auto.
Defined.

(** ** The helpers over the store: what they allocate and what they keep *)

Local Open Scope list_scope.

Lemma extends_refl h : Heap.extends h h.
Proof. exists []. by rewrite app_nil_r. Qed.

Lemma extends_snoc h0 h o :
  Heap.extends h0 h -> Heap.extends h0 (h ++ [o]).
Proof. intros [f ->]. exists (f ++ [o])%list. by rewrite app_assoc. Qed.

Lemma extends_app h0 h f :
  Heap.extends h0 h -> Heap.extends h0 (h ++ f).
Proof. intros [f0 ->]. exists (f0 ++ f)%list. by rewrite app_assoc. Qed.

Lemma extends_insert h0 h l o :
  Heap.extends h0 h -> (length h0 <= l)%nat -> Heap.extends h0 (<[l := o]> h).
Proof.
  intros [f ->] Hl. exists (<[(l - length h0)%nat := o]> f).
  by apply insert_app_r_alt.
Qed.

Lemma extends_length h0 h : Heap.extends h0 h -> (length h0 <= length h)%nat.
Proof. intros [f ->]. rewrite length_app. lia. Qed.

(** An object of the store is found unchanged in every extension. *)
Lemma extends_lookup h0 h l o :
  Heap.extends h0 h -> h0 !! l = Some o -> h !! l = Some o.
Proof. intros [f ->] H. by apply lookup_app_l_Some. Qed.

Lemma dict_at_app h f v d :
  Heap.dict_at h v = Some d -> Heap.dict_at (h ++ f) v = Some d.
Proof.
  destruct v; simpl; try discriminate. unfold Heap.loc, Heap.heap in *.
  destruct (h !! l) as [[d'|?]|] eqn:E; try discriminate.
  intros [= <-]. by rewrite (lookup_app_l_Some _ _ _ _ E).
Qed.

Lemma child_app h f d key c :
  Heap.child h d key = Some c -> Heap.child (h ++ f) d key = Some c.
Proof.
  unfold Heap.child. destruct (Py.lookup key d); [apply dict_at_app|done].
Qed.

Lemma dict_at_new h f i d :
  f !! i = Some (Heap.ODict d) ->
  Heap.dict_at (h ++ f) (Heap.VRef (length h + i)%nat) = Some d.
Proof.
  intros H. unfold Heap.dict_at, Heap.loc, Heap.heap. rewrite lookup_app_r by lia.
  replace (length h + i - length h)%nat with i by lia. by rewrite H.
Qed.

(** *** The rules of [keeps] *)

Lemma keeps_ret {A} h0 (a : A) (Q : A -> Prop) :
  Q a -> Heap.keeps h0 (Heap.ret a) Q.
Proof. intros HQ h Hh. split; [exact Hh|]. simpl. by intros a' [= <-]. Qed.

Lemma keeps_throw {A} h0 cls msg (Q : A -> Prop) :
  Heap.keeps h0 (Heap.throw cls msg) Q.
Proof. intros h Hh. split; [exact Hh|]. simpl. discriminate. Qed.

Lemma keeps_bind {A B} h0 (m : Heap.M A) (f : A -> Heap.M B) Q R :
  Heap.keeps h0 m Q -> (forall a, Q a -> Heap.keeps h0 (f a) R) ->
  Heap.keeps h0 (Heap.bind m f) R.
Proof.
  intros Hm Hf h Hh. unfold Heap.bind. destruct (Hm h Hh) as [He HQ].
  destruct (m h) as [[a|e] h1]; simpl in *.
  - apply Hf; auto.
  - split; [exact He|discriminate].
Qed.

Lemma keeps_weaken {A} h0 (m : Heap.M A) (Q R : A -> Prop) :
  Heap.keeps h0 m Q -> (forall a, Q a -> R a) -> Heap.keeps h0 m R.
Proof. intros Hm HQR h Hh. destruct (Hm h Hh). split; auto. Qed.

Lemma keeps_try {A} h0 (body handler : Heap.M A) classes Q :
  Heap.keeps h0 body Q -> Heap.keeps h0 handler Q ->
  Heap.keeps h0 (Heap.try_except body classes handler) Q.
Proof.
  intros Hb Hh h Hext. unfold Heap.try_except. destruct (Hb h Hext) as [He HQ].
  destruct (body h) as [[a|e] h1]; simpl in *.
  - split; auto.
  - destruct (catches classes e); [by apply Hh|]. split; [done|discriminate].
Qed.

Lemma keeps_alloc h0 o : Heap.keeps h0 (Heap.alloc o) (Heap.fresh_ref h0).
Proof.
  intros h Hh. split; simpl.
  - by apply extends_snoc.
  - intros a [= <-]. exists (length h). split; [done|by apply extends_length].
Qed.

Lemma keeps_dangling {A} h0 (Q : A -> Prop) : Heap.keeps h0 Heap.dangling Q.
Proof. apply keeps_throw. Qed.

Lemma keeps_get h0 v key dflt Q :
  Heap.keeps h0 dflt Q -> Heap.keeps h0 (Heap.get v key dflt) (fun _ => True).
Proof.
  intros Hd h Hh. unfold Heap.get.
  destruct v; simpl; try (split; [exact Hh|discriminate]).
  destruct (h !! l) as [[d|?]|]; try (split; [exact Hh|discriminate]).
  apply (keeps_bind h0 dflt _ Q); [done| |done].
  intros a _. by apply keeps_ret.
Qed.

Lemma keeps_int h0 v : Heap.keeps h0 (Heap.int v) (fun _ => True).
Proof.
  intros h Hh. unfold Heap.int. destruct (Heap.shallow h v); simpl; split; auto.
Qed.

Lemma keeps_iter h0 v : Heap.keeps h0 (Heap.iter v) (fun _ => True).
Proof.
  intros h Hh. unfold Heap.iter.
  destruct v; simpl; try (split; [exact Hh|done]).
  destruct (h !! l) as [[d|?]|]; simpl; split; auto.
Qed.

Lemma keeps_pair_of h0 i item : Heap.keeps h0 (Heap.pair_of i item) (fun _ => True).
Proof.
  intros h Hh. unfold Heap.pair_of. destruct (keeps_iter h0 item h Hh) as [He _].
  destruct (Heap.iter item h) as [[l|[c msg]] h1]; simpl in He.
  - repeat case_match; simpl; split; auto.
  - destruct c; simpl; split; auto.
Qed.

Lemma keeps_dict_of_pairs h0 items : forall i acc,
  Heap.keeps h0 (Heap.dict_of_pairs i acc items) (fun _ => True).
Proof.
  induction items as [|item r IH]; intros i acc; simpl.
  - by apply keeps_ret.
  - eapply keeps_bind; [apply keeps_pair_of|]. intros kx _. apply IH.
Qed.

Lemma keeps_items_of h0 v : Heap.keeps h0 (Heap.items_of v) (fun _ => True).
Proof.
  assert (Hgen : Heap.keeps h0
            (Heap.bind (Heap.iter v) (Heap.dict_of_pairs 0 [])) (fun _ => True)).
  { eapply keeps_bind; [apply keeps_iter|]. intros l _. apply keeps_dict_of_pairs. }
  intros h Hh. unfold Heap.items_of.
  destruct v; try exact (Hgen h Hh).
  destruct (h !! l) as [[d|?]|]; try exact (Hgen h Hh).
  simpl. split; auto.
Qed.

Lemma keeps_dict h0 v : Heap.keeps h0 (Heap.dict v) (Heap.fresh_ref h0).
Proof.
  eapply keeps_bind; [apply keeps_items_of|]. intros d _. apply keeps_alloc.
Qed.

(** Assignment into an object allocated after [h0] keeps the objects of
    [h0]. *)
Lemma keeps_setitem h0 target key x :
  Heap.fresh_ref h0 target ->
  Heap.keeps h0 (Heap.setitem target key x) (fun _ => True).
Proof.
  intros (l & -> & Hl) h Hh. unfold Heap.setitem.
  destruct (h !! l) as [[d|?]|]; simpl; split; auto.
  by apply extends_insert.
Qed.

Lemma keeps_get_end_ts h0 warning :
  Heap.keeps h0 (Heap._get_end_ts warning) (fun _ => True).
Proof.
  unfold Heap._get_end_ts.
  eapply keeps_bind; [eapply keeps_get, keeps_alloc|]. intros props _.
  eapply keeps_bind; [eapply keeps_get, keeps_alloc|]. intros raw _.
  apply keeps_try; [|by apply keeps_ret].
  eapply keeps_bind; [eapply keeps_get, (keeps_ret _ _ (fun _ => True)); done|].
  intros e _. apply keeps_int.
Qed.

Lemma keeps_copy_with_end h0 warning new_end :
  Heap.keeps h0 (Heap._copy_with_end warning new_end) (Heap.fresh_ref h0).
Proof.
  unfold Heap._copy_with_end.
  eapply keeps_bind; [eapply keeps_get, keeps_alloc|]. intros p _.
  eapply keeps_bind; [apply keeps_dict|]. intros props Hprops.
  eapply keeps_bind; [eapply keeps_get, keeps_alloc|]. intros r _.
  eapply keeps_bind; [apply keeps_dict|]. intros raw Hraw.
  eapply keeps_bind; [by apply keeps_setitem|]. intros _ _.
  eapply keeps_bind; [by apply keeps_setitem|]. intros _ _.
  eapply keeps_bind; [apply keeps_dict|]. intros copy Hcopy.
  eapply keeps_bind; [by apply keeps_setitem|]. intros _ _.
  by apply keeps_ret.
Qed.

Lemma keeps_extend h0 warning now_ts grace_seconds allow_invalid_end :
  Heap.keeps h0
    (Heap._extend_if_grace_applies warning now_ts grace_seconds
       allow_invalid_end)
    (fun r => forall v, r = Some v -> v = warning \/ Heap.fresh_ref h0 v).
Proof.
  unfold Heap._extend_if_grace_applies.
  eapply keeps_bind; [apply keeps_get_end_ts|]. intros end_ts _.
  destruct (end_ts <=? 0).
  { apply keeps_ret. intros v Hv. left. by destruct allow_invalid_end; inversion Hv. }
  destruct (now_ts <=? end_ts).
  { apply keeps_ret. intros v [= <-]. by left. }
  destruct (now_ts <=? end_ts + grace_seconds).
  - eapply keeps_bind; [apply keeps_copy_with_end|]. intros copy Hc.
    apply keeps_ret. intros v [= <-]. by right.
  - by apply keeps_ret.
Qed.

(** *** What the helpers do on a record of the store *)

Lemma get_run h v key d dflt :
  Heap.dict_at h v = Some d ->
  Heap.get v key dflt h
  = Heap.bind dflt (fun x =>
      Heap.ret (match Py.lookup key d with Some y => y | None => x end)) h.
Proof.
  destruct v; simpl; try discriminate.
  destruct (h !! l) as [[d'|?]|]; try discriminate. by intros [= <-].
Qed.

Lemma dict_run h v d :
  Heap.dict_at h v = Some d ->
  Heap.dict v h = (Ok (Heap.VRef (length h)), (h ++ [Heap.ODict d])%list).
Proof.
  destruct v; simpl; try discriminate.
  unfold Heap.dict, Heap.bind, Heap.items_of.
  destruct (h !! l) as [[d'|?]|]; try discriminate. by intros [= <-].
Qed.

Lemma setitem_run h f i key x d :
  f !! i = Some (Heap.ODict d) ->
  Heap.setitem (Heap.VRef (length h + i)%nat) key x (h ++ f)
  = (Ok tt, (h ++ <[i := Heap.ODict (Py.setitem key x d)]> f)%list).
Proof.
  intros H. unfold Heap.setitem, Heap.loc, Heap.heap. rewrite lookup_app_r by lia.
  replace (length h + i - length h)%nat with i by lia. rewrite H.
  by rewrite insert_app_r.
Qed.

(** [v.get(key, {})] on a record: one temporary is allocated, and the
    value is a dict holding the items of the child. *)
Lemma get_child h v key d c :
  Heap.dict_at h v = Some d -> Heap.child h d key = Some c ->
  exists p,
    Heap.get v key Heap.empty_dict h = (Ok p, (h ++ [Heap.ODict []])%list)
    /\ forall f, Heap.dict_at ((h ++ [Heap.ODict []]) ++ f) p = Some c.
Proof.
  intros Hv Hc. rewrite (get_run _ _ _ _ _ Hv). unfold Heap.child in Hc.
  unfold Heap.bind, Heap.empty_dict, Heap.alloc, Heap.ret.
  destruct (Py.lookup key d) as [y|].
  - exists y. split; [done|]. intros f. by apply dict_at_app, dict_at_app.
  - injection Hc as <-. exists (Heap.VRef (length h)). split; [done|].
    intros f. apply dict_at_app.
    rewrite <- (Nat.add_0_r (length h)). by apply dict_at_new.
Qed.

Lemma get_end_ts_store h w items props raw :
  Heap.dict_at h w = Some items ->
  Heap.child h items "properties" = Some props ->
  Heap.child h props "rawinfo" = Some raw ->
  snd (Heap._get_end_ts w h) = (h ++ [Heap.ODict []; Heap.ODict []])%list.
Proof.
  intros Hw Hp Hr. unfold Heap._get_end_ts.
  destruct (get_child _ _ _ _ _ Hw Hp) as (p & Ep & Hpd).
  unfold Heap.bind at 1. rewrite Ep.
  specialize (Hpd []). rewrite app_nil_r in Hpd.
  destruct (get_child _ _ "rawinfo" _ _ Hpd (child_app _ [_] _ _ _ Hr))
    as (r & Er & Hrd).
  unfold Heap.bind at 1. rewrite Er.
  specialize (Hrd []). rewrite app_nil_r in Hrd.
  unfold Heap.try_except, Heap.bind. rewrite (get_run _ _ _ _ _ Hrd).
  unfold Heap.bind, Heap.ret, Heap.int, Heap.dangling, Heap.throw, raise.
  rewrite <- app_assoc. simpl.
  repeat case_match; simplify_eq; simpl; try done.
Qed.

Lemma copy_with_end_run h w items props raw n :
  Heap.dict_at h w = Some items ->
  Heap.child h items "properties" = Some props ->
  Heap.child h props "rawinfo" = Some raw ->
  Heap._copy_with_end w n h
  = (Ok (Heap.VRef (length h + 4)%nat),
     (h ++ [Heap.ODict [];
            Heap.ODict (Py.setitem "rawinfo" (Heap.VRef (length h + 3)%nat) props);
            Heap.ODict [];
            Heap.ODict (Py.setitem "end" (Heap.VInt n) raw);
            Heap.ODict (Py.setitem "properties" (Heap.VRef (length h + 1)%nat)
                          items)])%list).
Proof.
  intros Hw Hp Hr. unfold Heap._copy_with_end.
  destruct (get_child _ _ _ _ _ Hw Hp) as (p & Ep & Hpd).
  unfold Heap.bind at 1. rewrite Ep.
  unfold Heap.bind at 1.
  rewrite (dict_run _ _ _ (eq_trans (f_equal (fun g => Heap.dict_at g p)
             (eq_sym (app_nil_r _))) (Hpd []))).
  rewrite <- app_assoc, length_app. simpl.
  assert (Hprops : Heap.dict_at (h ++ [Heap.ODict []; Heap.ODict props])
                     (Heap.VRef (length h + 1)%nat) = Some props)
    by (by apply dict_at_new).
  destruct (get_child _ _ "rawinfo" _ _ Hprops (child_app _ _ _ _ _ Hr))
    as (r & Er & Hrd).
  unfold Heap.bind at 1. rewrite Er.
  unfold Heap.bind at 1.
  rewrite (dict_run _ _ _ (eq_trans (f_equal (fun g => Heap.dict_at g r)
             (eq_sym (app_nil_r _))) (Hrd []))).
  rewrite <- !app_assoc, !length_app. simpl.
  replace (length h + 2 + 1)%nat with (length h + 3)%nat by lia.
  unfold Heap.bind at 1. rewrite (setitem_run _ _ 3 _ _ raw) by done.
  unfold Heap.bind at 1. rewrite (setitem_run _ _ 1 _ _ props) by done.
  simpl.
  unfold Heap.bind at 1.
  rewrite (dict_run _ _ items) by (by apply dict_at_app).
  rewrite <- !app_assoc, !length_app. simpl.
  unfold Heap.bind at 1. rewrite (setitem_run _ _ 4 _ _ items) by done.
  done.
Qed.

(** C4.  [_extend_if_grace_applies] never mutates its input.  For every
    store and every warning record in it (a dict whose properties and
    rawinfo, where present, are dicts) and for all arguments: the store
    after the call holds every object of the store before it, unchanged
    and at its address, followed only by new objects, so that the input
    record, its properties and its rawinfo read as before; and a record
    that is returned is either the input object itself or, inside the
    grace window, a new object that has the items of the input except for
    [properties], which is a new dict that has the items of the input's
    properties except for [rawinfo], which is a new dict that has the
    items of the input's rawinfo except for [end], which is the original
    end plus the grace period. *)
Theorem extend_never_mutates h w items props raw now_ts grace_seconds allow :
  Heap.dict_at h w = Some items ->
  Heap.child h items "properties" = Some props ->
  Heap.child h props "rawinfo" = Some raw ->
  let run := Heap._extend_if_grace_applies w now_ts grace_seconds allow h in
  Heap.extends h (snd run)
  /\ Heap.dict_at (snd run) w = Some items
  /\ Heap.child (snd run) items "properties" = Some props
  /\ Heap.child (snd run) props "rawinfo" = Some raw
  /\ forall v, fst run = Ok (Some v) ->
       v = w
       \/ exists end_ts c p r copy_items props' raw',
            fst (Heap._get_end_ts w h) = Ok end_ts
            /\ 0 < end_ts /\ end_ts < now_ts /\ now_ts <= end_ts + grace_seconds
            /\ v = Heap.VRef c /\ (length h <= c)%nat
            /\ Heap.dict_at (snd run) v = Some copy_items
            /\ (forall k, k <> "properties" ->
                  Py.lookup k copy_items = Py.lookup k items)
            /\ Py.lookup "properties" copy_items = Some (Heap.VRef p)
            /\ (length h <= p)%nat
            /\ Heap.dict_at (snd run) (Heap.VRef p) = Some props'
            /\ (forall k, k <> "rawinfo" ->
                  Py.lookup k props' = Py.lookup k props)
            /\ Py.lookup "rawinfo" props' = Some (Heap.VRef r)
            /\ (length h <= r)%nat
            /\ Heap.dict_at (snd run) (Heap.VRef r) = Some raw'
            /\ (forall k, k <> "end" -> Py.lookup k raw' = Py.lookup k raw)
            /\ Py.lookup "end" raw' = Some (Heap.VInt (end_ts + grace_seconds)).
Proof.
  intros Hw Hp Hr run.
  pose proof (get_end_ts_store _ _ _ _ _ Hw Hp Hr) as Hs.
  assert (Hframe : forall f,
            Heap.extends h (h ++ f)
            /\ Heap.dict_at (h ++ f) w = Some items
            /\ Heap.child (h ++ f) items "properties" = Some props
            /\ Heap.child (h ++ f) props "rawinfo" = Some raw).
  { intros f. split; [by exists f|].
    split; [by apply dict_at_app|]. split; by apply child_app. }
  unfold run, Heap._extend_if_grace_applies, Heap.bind.
  destruct (Heap._get_end_ts w h) as [[end_ts|e] g] eqn:E;
    simpl in Hs; subst g.
  2:{ simpl. destruct (Hframe [Heap.ODict []; Heap.ODict []]) as (?&?&?&?).
      repeat split; try done. }
  destruct (Hframe [Heap.ODict []; Heap.ODict []]) as (F1 & F2 & F3 & F4).
  destruct (end_ts <=? 0) eqn:E0.
  { simpl. repeat split; try done. intros v Hv. left.
    by destruct allow; inversion Hv. }
  destruct (now_ts <=? end_ts) eqn:E1.
  { simpl. repeat split; try done. intros v [= <-]. by left. }
  destruct (now_ts <=? end_ts + grace_seconds) eqn:E2.
  2:{ simpl. repeat split; try done. }
  rewrite (copy_with_end_run _ _ _ _ _ _ F2 F3 F4). simpl.
  rewrite <- app_assoc.
  match goal with
  | |- context [(h ++ ?f)%list] => destruct (Hframe f) as (G1 & G2 & G3 & G4)
  end.
  repeat (split; [done|]).
  intros v [= <-]. right.
  rewrite length_app. simpl length.
  exists end_ts, (length h + 6)%nat, (length h + 3)%nat, (length h + 5)%nat.
  eexists _, _, _.
  replace (length h + 2 + 4)%nat with (length h + 6)%nat by lia.
  replace (length h + 2 + 3)%nat with (length h + 5)%nat by lia.
  replace (length h + 2 + 1)%nat with (length h + 3)%nat by lia.
  split; [done|]. split; [lia|]. split; [lia|]. split; [lia|].
  split; [done|]. split; [lia|].
  split; [by apply (dict_at_new h _ 6)|].
  split; [intros k Hk; apply lookup_setitem_ne; congruence|].
  split; [by apply lookup_setitem_eq|]. split; [lia|].
  split; [by apply (dict_at_new h _ 3)|].
  split; [intros k Hk; apply lookup_setitem_ne; congruence|].
  split; [by apply lookup_setitem_eq|]. split; [lia|].
  split; [by apply (dict_at_new h _ 5)|].
  split; [intros k Hk; apply lookup_setitem_ne; congruence|].
  by apply lookup_setitem_eq.
Qed.

Lemma extend_never_mutates_witness :
  Heap.dict_at Heap.sample_heap (Heap.VRef 2%nat)
  = Some [("type", Heap.VStr "Feature"); ("properties", Heap.VRef 1%nat)]
  /\ Heap.child Heap.sample_heap
       [("type", Heap.VStr "Feature"); ("properties", Heap.VRef 1%nat)]
       "properties"
     = Some [("rawinfo", Heap.VRef 0%nat)]
  /\ Heap.child Heap.sample_heap [("rawinfo", Heap.VRef 0%nat)] "rawinfo"
     = Some [("wtype", Heap.VInt 1); ("end", Heap.VInt 200)]
  /\ fst (Heap._extend_if_grace_applies (Heap.VRef 2%nat) 210 60 true
            Heap.sample_heap)
     = Ok (Some (Heap.VRef 9%nat))
  /\ Heap.extends Heap.sample_heap
       (snd (Heap._extend_if_grace_applies (Heap.VRef 2%nat) 210 60 true
               Heap.sample_heap))
  /\ Heap.dict_at
       (snd (Heap._extend_if_grace_applies (Heap.VRef 2%nat) 210 60 true
               Heap.sample_heap))
       (Heap.VRef 2%nat)
     = Some [("type", Heap.VStr "Feature"); ("properties", Heap.VRef 1%nat)].
Proof.
  pose proof (extend_never_mutates Heap.sample_heap (Heap.VRef 2%nat) _ _ _
                210 60 true eq_refl eq_refl eq_refl) as (He & Hd & _).
  split; [reflexivity|]. split; [reflexivity|]. split; [reflexivity|].
  split; [reflexivity|]. split; [exact He|exact Hd].
Defined.

(** Whatever the warning is, a record or not, and whatever the outcome, a
    value or an exception: [_extend_if_grace_applies] leaves every object
    of the store as it was and at its address, and a value it returns is
    the input itself or an object allocated during the call. *)
Theorem extend_keeps_store h w now_ts grace_seconds allow :
  let run := Heap._extend_if_grace_applies w now_ts grace_seconds allow h in
  Heap.extends h (snd run)
  /\ (forall l o, h !! l = Some o -> snd run !! l = Some o)
  /\ forall v, fst run = Ok (Some v) -> v = w \/ Heap.fresh_ref h v.
Proof.
  intros run.
  destruct (keeps_extend h w now_ts grace_seconds allow h (extends_refl h))
    as [He Hv].
  split; [exact He|]. split.
  - intros l o. by apply extends_lookup.
  - intros v Hr. by apply (Hv (Some v)).
Qed.

(** ** The fetch loop *)

Lemma fetch_one_max get n c f :
  max_http_status (fetch_one get n c f) =
  match get n (url_for c) with
  | Returned resp =>
      Some (match max_http_status f with
            | None => status resp
            | Some m => Z.max m (status resp)
            end)
  | Failed _ => max_http_status f
  end.
Proof.
  unfold fetch_one. destruct (get n (url_for c)) as [resp|err]; [|done].
  assert (Hs : max_http_status (see_status f (status resp)) =
               Some (match max_http_status f with
                     | None => status resp
                     | Some m => Z.max m (status resp)
                     end)).
  { unfold see_status; simpl. destruct (max_http_status f) as [m|]; [|done].
    destruct (m <? status resp) eqn:E; f_equal; lia. }
  destruct (negb (status resp =? 200)); [exact Hs|].
  destruct (json resp) as [data|err]; [|exact Hs].
  destruct (warnings_of data); exact Hs.
Qed.

Lemma fetch_from_max get coords : forall n f0,
  (forall m0, max_http_status f0 = Some m0 ->
     exists m, max_http_status (fetch_from get n coords f0) = Some m /\ m0 <= m)
  /\ (forall i c resp, coords !! i = Some c ->
        get (n + i)%nat (url_for c) = Returned resp ->
        exists m, max_http_status (fetch_from get n coords f0) = Some m
                  /\ status resp <= m)
  /\ (forall m, max_http_status (fetch_from get n coords f0) = Some m ->
        max_http_status f0 = Some m
        \/ exists i c resp, coords !! i = Some c
             /\ get (n + i)%nat (url_for c) = Returned resp /\ status resp = m).
Proof.
  induction coords as [|c rest IH]; intros n f0; simpl.
  - split; [eauto with lia|]. split; [by intros []|]. eauto.
  - destruct (IH (S n) (fetch_one get n c f0)) as (IH1 & IH2 & IH3).
    pose proof (fetch_one_max get n c f0) as Hone.
    split; [|split].
    + intros m0 H0. rewrite H0 in Hone.
      destruct (get n (url_for c)) as [resp|err].
      * destruct (IH1 _ Hone) as (m & Hm & Hle). exists m. split; [done|lia].
      * by apply IH1.
    + intros [|i] c' resp Hc Hget; simpl in Hc.
      * injection Hc as <-. rewrite Nat.add_0_r in Hget. rewrite Hget in Hone.
        destruct (IH1 _ Hone) as (m & Hm & Hle). exists m. split; [done|].
        destruct (max_http_status f0); lia.
      * apply (IH2 i c' resp Hc). by replace (S n + i)%nat with (n + S i)%nat by lia.
    + intros m Hm. destruct (IH3 m Hm) as [H|(i & c' & resp & Hc & Hget & Hst)].
      * rewrite H in Hone. destruct (get n (url_for c)) as [resp|err] eqn:Hget.
        -- destruct (max_http_status f0) as [m0|] eqn:H0.
           ++ injection Hone as Hone.
              destruct (Z.max_spec m0 (status resp)) as [[_ Hmax]|[_ Hmax]].
              ** right. exists 0%nat, c, resp. rewrite Nat.add_0_r.
                 repeat split; [done|lia].
              ** left. f_equal. lia.
           ++ right. exists 0%nat, c, resp. rewrite Nat.add_0_r.
              repeat split; [done|congruence].
        -- by left.
      * right. exists (S i), c', resp.
        by replace (n + S i)%nat with (S n + i)%nat by lia.
Qed.

Lemma fetch_one_success get n c f :
  any_success (fetch_one get n c f) = true <->
  any_success f = true \/ fetch_succeeded (get n (url_for c)).
Proof.
  unfold fetch_one, fetch_succeeded.
  destruct (get n (url_for c)) as [resp|err]; simpl.
  2:{ split; [by left|]. intros [H|(?&?&?&_)]; [done|discriminate]. }
  destruct (status resp =? 200) eqn:E; simpl.
  - destruct (json resp) as [data|err] eqn:Ej; simpl.
    + split.
      * intros _. right. exists resp, data. repeat split; [lia|done].
      * intros _. by destruct (warnings_of data).
    + split; [by left|]. intros [H|(r & d & Hr & _ & Hj)]; [done|].
      injection Hr as <-. congruence.
  - split; [by left|]. intros [H|(r & d & Hr & Hs & _)]; [done|].
    injection Hr as <-. lia.
Qed.

Lemma fetch_from_success get coords : forall n f0,
  any_success (fetch_from get n coords f0) = true <->
  any_success f0 = true
  \/ exists i c, coords !! i = Some c
                 /\ fetch_succeeded (get (n + i)%nat (url_for c)).
Proof.
  induction coords as [|c rest IH]; intros n f0; simpl.
  - split; [by left|]. by intros [H|(i & c & H & _)].
  - rewrite IH, fetch_one_success. split.
    + intros [[H|H]|(i & c' & Hc & Hs)].
      * by left.
      * right. exists 0%nat, c. by rewrite Nat.add_0_r.
      * right. exists (S i), c'. by replace (n + S i)%nat with (S n + i)%nat by lia.
    + intros [H|([|i] & c' & Hc & Hs)]; [by left; left| |]; simpl in Hc.
      * injection Hc as <-. rewrite Nat.add_0_r in Hs. by left; right.
      * right. exists i, c'. by replace (S n + i)%nat with (n + S i)%nat by lia.
Qed.

(** The status a cycle reports is the highest one among the replies it
    received, and there is none exactly when no request was answered;
    the default of 200 for a successful cycle without a status is never
    used, since a fetch only succeeds on a reply. *)
Theorem status_is_maximum get coords :
  (forall m, max_http_status (fetch_all get coords) = Some m <->
     (exists resp, replied get coords resp /\ status resp = m)
     /\ forall resp, replied get coords resp -> status resp <= m)
  /\ (max_http_status (fetch_all get coords) = None <->
      forall resp, ~ replied get coords resp)
  /\ (any_success (fetch_all get coords) = true ->
      max_http_status (fetch_all get coords) <> None).
Proof.
  unfold fetch_all.
  set (f0 := {| combined_warnings := []; any_success := false;
                max_http_status := None; error_messages := [] |}).
  destruct (fetch_from_max get coords 0%nat f0) as (_ & Hup & Hin).
  assert (Hnone : max_http_status (fetch_from get 0 coords f0) = None <->
                  forall resp, ~ replied get coords resp).
  { split.
    - intros Hn resp (i & c & Hc & Hget).
      destruct (Hup i c resp Hc Hget) as (m & Hm & _). congruence.
    - intros Hno. destruct (max_http_status (fetch_from get 0 coords f0))
        as [m|] eqn:Hm; [|done].
      destruct (Hin m eq_refl) as [H|(i & c & resp & Hc & Hget & _)]; [done|].
      destruct (Hno resp). by exists i, c. }
  split; [|split; [exact Hnone|]].
  - intros m. split.
    + intros Hm. split.
      * destruct (Hin m Hm) as [H|(i & c & resp & Hc & Hget & Hst)]; [done|].
        exists resp. split; [by exists i, c|done].
      * intros resp (i & c & Hc & Hget).
        destruct (Hup i c resp Hc Hget) as (m' & Hm' & Hle). congruence.
    + intros [(resp & (i & c & Hc & Hget) & Hst) Hall].
      destruct (Hup i c resp Hc Hget) as (m' & Hm' & Hle).
      destruct (Hin m' Hm') as [H|(i' & c' & resp' & Hc' & Hget' & Hst')];
        [done|].
      assert (status resp' <= m) by (apply Hall; by exists i', c').
      rewrite Hm'. f_equal. lia.
  - intros Hs. apply fetch_from_success in Hs.
    destruct Hs as [H|(i & c & Hc & resp & data & Hget & _)]; [done|].
    destruct (Hup i c resp Hc Hget) as (m & Hm & _). congruence.
Qed.

Lemma fetch_one_cases get n c f :
  (clean (get n (url_for c))
   /\ error_messages (fetch_one get n c f) = error_messages f
   /\ exists resp data ws,
        get n (url_for c) = Returned resp /\ json resp = Returned data
        /\ warnings_of data = Ok ws
        /\ combined_warnings (fetch_one get n c f) = combined_warnings f ++ ws)
  \/ (~ clean (get n (url_for c))
      /\ combined_warnings (fetch_one get n c f) = combined_warnings f
      /\ exists detail,
           error_messages (fetch_one get n c f)
           = error_messages f ++ [coord_prefix c +:+ detail]).
Proof.
  unfold fetch_one, clean.
  destruct (get n (url_for c)) as [resp|err]; simpl.
  2:{ right. split; [by intros (?&?&?&?&_)|]. split; [done|by exists err]. }
  destruct (status resp =? 200) eqn:E; simpl.
  2:{ right. split.
      { intros (r & d & ws & Hr & Hs & _). injection Hr as <-. lia. }
      split; [done|]. by eexists. }
  destruct (json resp) as [data|err] eqn:Ej; simpl.
  2:{ right. split.
      { intros (r & d & ws & Hr & _ & Hj & _). injection Hr as <-. congruence. }
      split; [done|by exists err]. }
  destruct (warnings_of data) as [ws|e] eqn:Ew; simpl.
  - left. split; [exists resp, data, ws; repeat split; [lia|done|done]|].
    split; [done|]. by exists resp, data, ws.
  - right. split.
    { intros (r & d & ws & Hr & _ & Hj & Hw). injection Hr as <-. congruence. }
    split; [done|by exists (Py.repr_exn e)].
Qed.

Lemma fetch_from_split get coords : forall n f0,
  exists msgs ws,
    error_messages (fetch_from get n coords f0) = error_messages f0 ++ msgs
    /\ combined_warnings (fetch_from get n coords f0)
       = combined_warnings f0 ++ ws
    /\ (length msgs <= length coords)%nat
    /\ (msgs = [] <->
        forall i c, coords !! i = Some c -> clean (get (n + i)%nat (url_for c)))
    /\ (forall msg, In msg msgs ->
          exists i c detail,
            coords !! i = Some c /\ ~ clean (get (n + i)%nat (url_for c))
            /\ msg = coord_prefix c +:+ detail)
    /\ (forall w, In w ws ->
          exists i c resp data found,
            coords !! i = Some c
            /\ get (n + i)%nat (url_for c) = Returned resp
            /\ status resp = 200 /\ json resp = Returned data
            /\ warnings_of data = Ok found /\ In w found).
Proof.
  induction coords as [|c rest IH]; intros n f0; simpl.
  - exists [], []. rewrite !app_nil_r. repeat split; try done.
  - destruct (IH (S n) (fetch_one get n c f0))
      as (msgs & ws & He & Hw & Hlen & Hnil & Hmsg & Hin).
    assert (Hshift : forall i, (S n + i)%nat = (n + S i)%nat) by (intros; lia).
    destruct (fetch_one_cases get n c f0)
      as [(Hc & He1 & resp & data & ws1 & Hget & Hj & Hws & Hw1)
         |(Hc & Hw1 & detail & He1)].
    + exists msgs, (ws1 ++ ws). rewrite He, Hw, He1, Hw1, <- app_assoc.
      split; [done|]. split; [done|]. split; [lia|]. split; [|split].
      * rewrite Hnil. split.
        -- intros H [|i] c' Hc'; simpl in Hc'.
           ++ injection Hc' as <-. by rewrite Nat.add_0_r.
           ++ rewrite <- Hshift. by apply H.
        -- intros H i c' Hc'. rewrite Hshift. by apply (H (S i)).
      * intros msg Hm. destruct (Hmsg msg Hm) as (i & c' & d & Hc' & Hn & ->).
        exists (S i), c', d. by rewrite <- Hshift.
      * intros w Hi. apply in_app_or in Hi. destruct Hi as [Hi|Hi].
        -- destruct Hc as (r & d & ws' & Hr & Hs & Hj' & Hw').
           exists 0%nat, c, r, d, ws'. rewrite Nat.add_0_r.
           repeat split; try done.
           assert (r = resp) by congruence. subst r.
           assert (d = data) by congruence. subst d.
           assert (ws' = ws1) by congruence. by subst ws'.
        -- destruct (Hin w Hi) as (i & c' & r & d & fd & ? & ? & ? & ? & ? & ?).
           exists (S i), c', r, d, fd. by rewrite <- Hshift.
    + exists ((coord_prefix c +:+ detail) :: msgs), ws.
      rewrite He, Hw, He1, Hw1, <- app_assoc.
      split; [done|]. split; [done|]. split; [simpl; lia|]. split; [|split].
      * split; [done|]. intros H. destruct Hc.
        specialize (H 0%nat c eq_refl). by rewrite Nat.add_0_r in H.
      * intros msg [<-|Hm].
        -- exists 0%nat, c, detail. by rewrite Nat.add_0_r.
        -- destruct (Hmsg msg Hm) as (i & c' & d & Hc' & Hn & ->).
           exists (S i), c', d. by rewrite <- Hshift.
      * intros w Hi.
        destruct (Hin w Hi) as (i & c' & r & d & fd & ? & ? & ? & ? & ? & ?).
        exists (S i), c', r, d, fd. by rewrite <- Hshift.
Qed.

(** Each coordinate contributes either its warnings or one diagnostic,
    never both and never more: the cycle has no diagnostics exactly when
    every coordinate was answered with status 200, a body that parses and
    warnings that can be read from it; there are at most as many
    diagnostics as coordinates, each one starts with the coordinates it is
    about, and these were not answered cleanly; and every warning
    collected was read from the body of a reply with status 200. *)
Theorem diagnostics_per_coordinate get coords :
  (error_messages (fetch_all get coords) = [] <->
     forall i c, coords !! i = Some c -> clean (get i (url_for c)))
  /\ (length (error_messages (fetch_all get coords)) <= length coords)%nat
  /\ (forall msg, In msg (error_messages (fetch_all get coords)) ->
        exists i c detail,
          coords !! i = Some c /\ ~ clean (get i (url_for c))
          /\ msg = coord_prefix c +:+ detail)
  /\ (forall w, In w (combined_warnings (fetch_all get coords)) ->
        exists resp data found,
          replied get coords resp /\ status resp = 200
          /\ json resp = Returned data /\ warnings_of data = Ok found
          /\ In w found).
Proof.
  unfold fetch_all.
  destruct (fetch_from_split get coords 0%nat
              {| combined_warnings := []; any_success := false;
                 max_http_status := None; error_messages := [] |})
    as (msgs & ws & He & Hw & Hlen & Hnil & Hmsg & Hin).
  simpl in He, Hw. rewrite He, Hw.
  split; [exact Hnil|]. split; [exact Hlen|]. split; [exact Hmsg|].
  intros w Hi. destruct (Hin w Hi) as (i & c & r & d & fd & ? & ? & ? & ? & ? & ?).
  exists r, d, fd. repeat split; try done. by exists i, c.
Qed.

(** ** What a cycle does to the fields of the coordinator *)

(** The ways through [_async_update_data]. *)
Lemma cycle_cases self inp :
  (exists msg,
     resolve_coords inp = raise UpdateFailed msg
     /\ _async_update_data self inp
        = abort (set_request_utc self (utcnow inp)) msg)
  \/ (exists e,
        resolve_coords inp = Raise e
        /\ _async_update_data self inp
           = (Raise e, set_request_utc self (utcnow inp)))
  \/ (exists coords,
        resolve_coords inp = Ok coords
        /\ any_success (fetch_all (session_get inp) coords) = true
        /\ _async_update_data self inp
           = reconcile_cycle
               (set_api_status (set_request_utc self (utcnow inp))
                  (fetch_all (session_get inp) coords))
               (fetch_all (session_get inp) coords)
               (timestamp (utcnow inp)) (grace_seconds inp))
  \/ (exists coords,
        resolve_coords inp = Ok coords
        /\ any_success (fetch_all (session_get inp) coords) = false
        /\ _async_update_data self inp
           = (match _last_successful_data self with
              | Some data => Ok data
              | None =>
                  raise UpdateFailed "Error fetching data: all requests failed"
              end,
              set_api_status (set_request_utc self (utcnow inp))
                (fetch_all (session_get inp) coords))).
Proof.
  unfold _async_update_data.
  destruct (resolve_coords inp) as [coords|[cls msg]].
  - right; right.
    destruct (any_success (fetch_all (session_get inp) coords)) eqn:E.
    + left. by exists coords.
    + right. exists coords. split; [done|]. split; [done|]. simpl.
      by destruct (_last_successful_data self).
  - destruct cls; try (right; left; by eexists). left. by exists msg.
Qed.

Lemma reconcile_cycle_fields self f now_ts grace :
  last_http_status (snd (reconcile_cycle self f now_ts grace))
  = last_http_status self
  /\ last_http_response (snd (reconcile_cycle self f now_ts grace))
     = last_http_response self
  /\ had_partial_failure (snd (reconcile_cycle self f now_ts grace))
     = had_partial_failure self
  /\ last_request_utc (snd (reconcile_cycle self f now_ts grace))
     = last_request_utc self.
Proof.
  unfold reconcile_cycle.
  destruct (refresh _ _ _ _ _ _) as [[[keys fresh]|e] cache]; [|done].
  by destruct (reconcile _ _ _ _ _ _) as [[out expired]|e].
Qed.

(** What the [if any_success:] block does to the snapshots. *)
Lemma reconcile_cycle_snapshots self f now_ts grace :
  match reconcile_cycle self f now_ts grace with
  | (Raise _, self') =>
      _last_successful_data self' = _last_successful_data self
      /\ _last_non_empty_data self' = _last_non_empty_data self
      /\ _last_non_empty_utc self' = _last_non_empty_utc self
  | (Ok r, self') =>
      exists ws,
        r = result_of ws
        /\ _last_successful_data self' = Some r
        /\ match ws with
           | [] =>
               _last_non_empty_data self' = _last_non_empty_data self
               /\ _last_non_empty_utc self' = _last_non_empty_utc self
           | _ :: _ =>
               _last_non_empty_data self' = Some r
               /\ _last_non_empty_utc self' = last_request_utc self
           end
  end.
Proof.
  unfold reconcile_cycle.
  destruct (refresh _ _ _ _ _ _) as [[[keys fresh]|e] cache]; [|done].
  destruct (reconcile _ _ _ _ _ _) as [[out expired]|e]; [|done].
  exists out. by destruct out.
Qed.

(** Every cycle records the time of its request, whether it returns a
    result, falls back on the last one, aborts before fetching or raises
    on a malformed reply. *)
Theorem cycle_stamps_request_time self inp :
  last_request_utc (snd (_async_update_data self inp)) = Some (utcnow inp).
Proof.
  destruct (cycle_cases self inp)
    as [(msg & _ & ->)|[(e & _ & ->)|[(coords & _ & _ & ->)
       |(coords & _ & _ & ->)]]]; try done.
  by destruct (reconcile_cycle_fields
                 (set_api_status (set_request_utc self (utcnow inp))
                    (fetch_all (session_get inp) coords))
                 (fetch_all (session_get inp) coords)
                 (timestamp (utcnow inp)) (grace_seconds inp)) as (_ & _ & _ & ->).
Qed.

(** A cycle that raises, whatever the exception, leaves the three
    snapshots as they were. *)
Theorem failed_cycle_keeps_snapshots self inp e :
  fst (_async_update_data self inp) = Raise e ->
  _last_successful_data (snd (_async_update_data self inp))
  = _last_successful_data self
  /\ _last_non_empty_data (snd (_async_update_data self inp))
     = _last_non_empty_data self
  /\ _last_non_empty_utc (snd (_async_update_data self inp))
     = _last_non_empty_utc self.
Proof.
  destruct (cycle_cases self inp)
    as [(msg & _ & ->)|[(e' & _ & ->)|[(coords & _ & _ & ->)
       |(coords & _ & _ & ->)]]]; try done.
  pose proof (reconcile_cycle_snapshots
                (set_api_status (set_request_utc self (utcnow inp))
                   (fetch_all (session_get inp) coords))
                (fetch_all (session_get inp) coords)
                (timestamp (utcnow inp)) (grace_seconds inp)) as H.
  destruct (reconcile_cycle _ _ _ _) as [[r|e'] self']; [discriminate|].
  intros _. exact H.
Qed.

Lemma failed_cycle_keeps_snapshots_witness :
  fst (_async_update_data warmed_up malformed_cycle)
  = raise AttributeError "'str' object has no attribute 'get'"
  /\ _last_successful_data (snd (_async_update_data warmed_up malformed_cycle))
     = Some (result_of [sample_identified])
  /\ _last_non_empty_data (snd (_async_update_data warmed_up malformed_cycle))
     = Some (result_of [sample_identified]).
Proof.
  assert (H : fst (_async_update_data warmed_up malformed_cycle)
              = raise AttributeError "'str' object has no attribute 'get'")
    by reflexivity.
  destruct (failed_cycle_keeps_snapshots warmed_up malformed_cycle _ H)
    as (H1 & H2 & _).
  split; [exact H|]. split; [exact H1|exact H2].
Defined.

(** What a cycle returns is what the coordinator then holds as its last
    successful data: either the result built in this cycle from at least
    one successful fetch, or, when no fetch succeeded, the result it held
    before. *)
Theorem returned_result_is_stored self inp r :
  fst (_async_update_data self inp) = Ok r ->
  _last_successful_data (snd (_async_update_data self inp)) = Some r
  /\ ((exists coords ws,
         resolve_coords inp = Ok coords
         /\ any_success (fetch_all (session_get inp) coords) = true
         /\ r = result_of ws)
      \/ (exists coords,
            resolve_coords inp = Ok coords
            /\ any_success (fetch_all (session_get inp) coords) = false
            /\ _last_successful_data self = Some r)).
Proof.
  destruct (cycle_cases self inp)
    as [(msg & _ & ->)|[(e' & _ & ->)|[(coords & Hc & Hs & ->)
       |(coords & Hc & Hs & ->)]]]; try done.
  - pose proof (reconcile_cycle_snapshots
                  (set_api_status (set_request_utc self (utcnow inp))
                     (fetch_all (session_get inp) coords))
                  (fetch_all (session_get inp) coords)
                  (timestamp (utcnow inp)) (grace_seconds inp)) as H.
    destruct (reconcile_cycle _ _ _ _) as [[r'|e'] self']; [|discriminate].
    intros [= ->]. destruct H as (ws & -> & Hd & _).
    split; [exact Hd|]. left. by exists coords, ws.
  - simpl. destruct (_last_successful_data self) as [d|] eqn:Hd; [|discriminate].
    intros [= ->]. split; [done|]. right. by exists coords.
Qed.

Lemma returned_result_is_stored_witness :
  fst (_async_update_data warmed_up offline_cycle)
  = Ok (result_of [sample_identified])
  /\ _last_successful_data (snd (_async_update_data warmed_up offline_cycle))
     = Some (result_of [sample_identified]).
Proof.
  assert (H : fst (_async_update_data warmed_up offline_cycle)
              = Ok (result_of [sample_identified])) by reflexivity.
  split; [exact H|].
  exact (proj1 (returned_result_is_stored warmed_up offline_cycle _ H)).
Defined.

(** The last non-empty snapshot and its time change together and only
    in a cycle that returns a result with at least one warning, to that
    result and to the time of that cycle; an empty result, a fallback and
    a failure leave both as they were. *)
Theorem non_empty_snapshot_updates self inp :
  (_last_non_empty_data (snd (_async_update_data self inp))
   = _last_non_empty_data self
   /\ _last_non_empty_utc (snd (_async_update_data self inp))
      = _last_non_empty_utc self
   /\ forall w ws coords,
        resolve_coords inp = Ok coords ->
        any_success (fetch_all (session_get inp) coords) = true ->
        fst (_async_update_data self inp) <> Ok (result_of (w :: ws)))
  \/ (exists w ws,
        fst (_async_update_data self inp) = Ok (result_of (w :: ws))
        /\ _last_non_empty_data (snd (_async_update_data self inp))
           = Some (result_of (w :: ws))
        /\ _last_non_empty_utc (snd (_async_update_data self inp))
           = Some (utcnow inp)).
Proof.
  destruct (cycle_cases self inp)
    as [(msg & Hc & ->)|[(e' & Hc & ->)|[(coords & Hc & Hs & ->)
       |(coords & Hc & Hs & ->)]]].
  - left. repeat split; try done; intros; congruence.
  - left. repeat split; try done; intros; congruence.
  - pose proof (reconcile_cycle_snapshots
                  (set_api_status (set_request_utc self (utcnow inp))
                     (fetch_all (session_get inp) coords))
                  (fetch_all (session_get inp) coords)
                  (timestamp (utcnow inp)) (grace_seconds inp)) as H.
    destruct (reconcile_cycle _ _ _ _) as [[r|e'] self']; simpl.
    + destruct H as ([|w ws] & -> & _ & H1 & H2).
      * left. repeat split; try done.
      * right. by exists w, ws.
    + left. destruct H as (_ & H1 & H2). repeat split; try done.
  - left. repeat split; try done. intros w ws coords' Hc' Hs'.
    assert (coords' = coords) by congruence. subst. congruence.
Qed.

Lemma snapshots_ok_same self self' :
  _last_successful_data self' = _last_successful_data self ->
  _last_non_empty_data self' = _last_non_empty_data self ->
  _last_non_empty_utc self' = _last_non_empty_utc self ->
  snapshots_ok self -> snapshots_ok self'.
Proof. unfold snapshots_ok. by intros -> -> ->. Qed.

(** The snapshots of a coordinator are always results of its own cycles:
    this holds after [__init__] and every cycle keeps it, so the last
    non-empty snapshot never holds an empty warnings list and never
    exists without a last successful one. *)
Theorem snapshots_invariant :
  snapshots_ok init
  /\ forall self inp,
       snapshots_ok self -> snapshots_ok (snd (_async_update_data self inp)).
Proof.
  split; [by split|].
  intros self inp Hok.
  destruct (cycle_cases self inp)
    as [(msg & Hc & ->)|[(e' & Hc & ->)|[(coords & Hc & Hf & ->)
       |(coords & Hc & Hf & ->)]]];
    try (by apply (snapshots_ok_same self)).
  pose proof (reconcile_cycle_snapshots
                (set_api_status (set_request_utc self (utcnow inp))
                   (fetch_all (session_get inp) coords))
                (fetch_all (session_get inp) coords)
                (timestamp (utcnow inp)) (grace_seconds inp)) as H.
  destruct (reconcile_cycle _ _ _ _) as [[r|e'] self']; simpl.
  - destruct H as (ws & -> & Hd & H). destruct Hok as [Hs Hn]. split.
    + intros d. rewrite Hd. intros [= <-]. by exists ws.
    + rewrite Hd. destruct ws as [|w ws]; destruct H as [-> ->].
      * simpl. destruct (_last_non_empty_data self); [|done].
        by destruct Hn as (H1 & H2 & _).
      * simpl. split; [by exists w, ws|]. done.
  - destruct H as (H1 & H2 & H3). by apply (snapshots_ok_same self).
Qed.

(** ** The cache after a successful cycle *)

Lemma In_setitem {V} key key' (x y : V) d :
  In (key', y) (Py.setitem key x d) ->
  (key' = key /\ y = x) \/ In (key', y) d.
Proof.
  induction d as [|[k z] d IH]; simpl.
  - intros [[= <- <-]|[]]. by left.
  - destruct (String.eqb_spec k key) as [->|Hne]; simpl.
    + intros [[= <- <-]|H]; [by left|by right; right].
    + intros [H|H]; [by right; left|].
      destruct (IH H) as [?|?]; [by left|by right; right].
Qed.

(** The first loop, key by key: a key derived from a fetched warning
    holds that warning, as fetched, and the time of this cycle; any other
    key holds what it held. *)
Lemma refresh_cache ws now_ts grace : forall cache keys out keys' out' cache',
  refresh ws now_ts grace cache keys out = (Ok (keys', out'), cache') ->
  forall k,
    (exists w, In w ws /\ _warning_key w = Ok k
               /\ Py.lookup k cache'
                  = Some {| ce_warning := Some w;
                            ce_last_seen_ts := Some now_ts |})
    \/ ((forall w, In w ws -> _warning_key w <> Ok k)
        /\ Py.lookup k cache' = Py.lookup k cache).
Proof.
  induction ws as [|w ws IH]; intros cache keys out keys' out' cache' H k.
  { injection H as <- <- <-. right. split; [by intros w []|done]. }
  rewrite refresh_cons in H.
  destruct (_warning_key w) as [key|] eqn:Ek; [|discriminate].
  cbn zeta in H.
  destruct (_extend_if_grace_applies w now_ts grace true) as [extended|] eqn:Ex;
    [|discriminate].
  destruct (IH _ _ _ _ _ _ H k) as [(w' & Hin & Hk & Hl)|[Hno Hl]].
  - left. exists w'. split; [by right|done].
  - destruct (String.eqb_spec key k) as [->|Hne].
    + left. exists w. split; [by left|]. split; [done|].
      by rewrite Hl, lookup_setitem_eq.
    + right. split.
      * intros w' [<-|Hin]; [congruence|by apply Hno].
      * by rewrite Hl, lookup_setitem_ne.
Qed.

Lemma refresh_entries ws now_ts grace : forall cache keys out keys' out' cache',
  refresh ws now_ts grace cache keys out = (Ok (keys', out'), cache') ->
  forall k entry, In (k, entry) cache' ->
    (exists w, In w ws /\ _warning_key w = Ok k) \/ In (k, entry) cache.
Proof.
  induction ws as [|w ws IH]; intros cache keys out keys' out' cache' H k entry.
  { injection H as <- <- <-. by right. }
  rewrite refresh_cons in H.
  destruct (_warning_key w) as [key|] eqn:Ek; [|discriminate].
  cbn zeta in H.
  destruct (_extend_if_grace_applies w now_ts grace true) as [extended|] eqn:Ex;
    [|discriminate].
  intros Hin. destruct (IH _ _ _ _ _ _ H k entry Hin) as [(w' & Hw & Hk)|Hc].
  - left. exists w'. split; [by right|done].
  - apply In_setitem in Hc as [[-> _]|Hc]; [|by right].
    left. exists w. split; [by left|done].
Qed.

(** Every warning the second loop adds to the output comes from a cache
    entry whose key was not seen, kept by the grace rule. *)
Lemma reconcile_stale entries keys now_ts grace :
  forall out expired out' expired',
  reconcile entries keys now_ts grace out expired = Ok (out', expired') ->
  exists stale,
    out' = out ++ stale
    /\ forall w, In w stale ->
         exists k entry, In (k, entry) entries /\ (k ∉ keys)
                         /\ entry_fate entry now_ts grace (Some w).
Proof.
  induction entries as [|[key entry] rest IH];
    intros out expired out' expired' H.
  { injection H as <- <-. exists []. rewrite app_nil_r. split; [done|].
    by intros w []. }
  rewrite reconcile_cons in H.
  assert (Hskip : forall out0 expired0,
    reconcile rest keys now_ts grace out0 expired0 = Ok (out', expired') ->
    exists stale,
      out' = out0 ++ stale
      /\ forall w, In w stale ->
           exists k e, In (k, e) ((key, entry) :: rest) /\ (k ∉ keys)
                       /\ entry_fate e now_ts grace (Some w)).
  { intros out0 expired0 Hrun.
    destruct (IH _ _ _ _ Hrun) as (stale & -> & Hst). exists stale.
    split; [done|]. intros w Hw. destruct (Hst w Hw) as (k & e & ? & ? & ?).
    exists k, e. split; [by right|done]. }
  destruct (bool_decide (key ∈ keys)) eqn:Eseen; [by eapply Hskip|].
  apply bool_decide_eq_false in Eseen.
  destruct ((grace <=? 0) || (last_seen entry =? 0)) eqn:Eno;
    [by eapply Hskip|].
  apply orb_false_iff in Eno as [Hg Hl].
  destruct (Z.ltb_spec grace (now_ts - last_seen entry)) as [Hold|Hold];
    [by eapply Hskip|].
  destruct (_extend_if_grace_applies (cached_warning entry) now_ts grace false)
    as [[w|]|] eqn:Ex; [| |discriminate]; rewrite bind_Ok in H.
  - destruct (Hskip _ _ H) as (stale & -> & Hst). exists (w :: stale).
    split; [by rewrite <- app_assoc|].
    intros w' [<-|Hw']; [|by apply Hst].
    exists key, entry. split; [by left|]. split; [done|].
    constructor 3; auto; lia.
  - by eapply Hskip.
Qed.

(** The parts of a cycle in which a fetch succeeded and nothing raised. *)
Lemma successful_cycle self inp coords result self' :
  resolve_coords inp = Ok coords ->
  any_success (fetch_all (session_get inp) coords) = true ->
  _async_update_data self inp = (Ok result, self') ->
  exists keys fresh cache1 out expired,
    refresh (combined_warnings (fetch_all (session_get inp) coords))
      (timestamp (utcnow inp)) (grace_seconds inp) (_warning_cache self) ∅ []
    = (Ok (keys, fresh), cache1)
    /\ reconcile cache1 keys (timestamp (utcnow inp)) (grace_seconds inp)
         fresh [] = Ok (out, expired)
    /\ result = result_of out
    /\ _warning_cache self' = pop_all expired cache1.
Proof.
  intros Hc Hs Hrun.
  unfold _async_update_data in Hrun. rewrite Hc, Hs in Hrun.
  unfold reconcile_cycle in Hrun.
  cbn [set_api_status set_request_utc _warning_cache] in Hrun.
  destruct (refresh _ _ _ (_warning_cache self) ∅ [])
    as [[[keys fresh]|e] cache1] eqn:Er; [|discriminate].
  destruct (reconcile cache1 keys _ _ fresh []) as [[out expired]|e] eqn:Erc;
    [|discriminate].
  injection Hrun as <- <-. by exists keys, fresh, cache1, out, expired.
Qed.

(** After a cycle in which a fetch succeeded, the cache holds, under the
    key of every fetched warning, that warning as it came from the
    service (not the grace-extended copy that went into the output)
    together with the time of this cycle; and it holds nothing else but
    entries it held before, unchanged, whose last-seen time is no more
    than the grace period ago and whose warning the extender still
    returns. *)
Theorem cache_after_success self inp coords result self' :
  List.NoDup (map fst (_warning_cache self)) ->
  resolve_coords inp = Ok coords ->
  any_success (fetch_all (session_get inp) coords) = true ->
  _async_update_data self inp = (Ok result, self') ->
  (forall w key,
     In w (combined_warnings (fetch_all (session_get inp) coords)) ->
     _warning_key w = Ok key ->
     exists w',
       In w' (combined_warnings (fetch_all (session_get inp) coords))
       /\ _warning_key w' = Ok key
       /\ Py.lookup key (_warning_cache self')
          = Some {| ce_warning := Some w';
                    ce_last_seen_ts := Some (timestamp (utcnow inp)) |})
  /\ (forall key entry,
        Py.lookup key (_warning_cache self') = Some entry ->
        (exists w,
           In w (combined_warnings (fetch_all (session_get inp) coords))
           /\ _warning_key w = Ok key
           /\ entry = {| ce_warning := Some w;
                         ce_last_seen_ts := Some (timestamp (utcnow inp)) |})
        \/ (Py.lookup key (_warning_cache self) = Some entry
            /\ 0 < grace_seconds inp
            /\ last_seen entry <> 0
            /\ timestamp (utcnow inp) - last_seen entry <= grace_seconds inp
            /\ exists w,
                 _extend_if_grace_applies (cached_warning entry)
                   (timestamp (utcnow inp)) (grace_seconds inp) false
                 = Ok (Some w))).
Proof.
  intros Hnd Hc Hs Hrun.
  destruct (successful_cycle _ _ _ _ _ Hc Hs Hrun)
    as (keys & fresh & cache1 & out & expired & Er & Erc & -> & ->).
  pose proof (refresh_NoDup
                (combined_warnings (fetch_all (session_get inp) coords))
                (timestamp (utcnow inp)) (grace_seconds inp)
                (_warning_cache self) ∅ [] Hnd) as Hnd1.
  rewrite Er in Hnd1. cbn [snd] in Hnd1.
  pose proof (refresh_cache _ _ _ _ _ _ _ _ _ Er) as Hcache.
  destruct (refresh_ok _ _ _ _ _ _ _ _ _ Er) as (Hkeys & _ & _).
  destruct (reconcile_ok _ _ _ _ _ _ _ _ Erc) as (_ & _ & Hsrc & Hfate).
  assert (Hkept : forall key,
            (exists w, In w (combined_warnings
                               (fetch_all (session_get inp) coords))
                       /\ _warning_key w = Ok key) ->
            Py.lookup key (pop_all expired cache1) = Py.lookup key cache1).
  { intros key Hseen. apply lookup_pop_all_notin. intros Hexp.
    destruct (Hsrc key Hexp) as [[]|(e & _ & Hk & _)].
    apply Hk, Hkeys. by right. }
  split.
  - intros w key Hw Hk.
    destruct (Hcache key) as [(w' & Hw' & Hk' & Hl)|[Hno _]].
    + exists w'. split; [done|]. split; [done|].
      rewrite Hkept; [done|by exists w].
    + by destruct (Hno w Hw).
  - intros key entry Hl.
    destruct (Hcache key) as [(w & Hw & Hk & Hl1)|[Hno Hl1]].
    + left. exists w. split; [done|]. split; [done|].
      rewrite Hkept in Hl by (by exists w). congruence.
    + right.
      assert (Hk : key ∉ keys).
      { intros Hin. apply Hkeys in Hin as [Hin|(w & Hw & Hkw)].
        - by apply not_elem_of_empty in Hin.
        - by apply (Hno w). }
      destruct (in_dec string_dec key expired) as [Hexp|Hexp].
      { by rewrite (lookup_pop_all_in _ _ _ Hnd1 Hexp) in Hl. }
      rewrite (lookup_pop_all_notin _ _ _ Hexp) in Hl.
      split; [by rewrite <- Hl1|].
      destruct (Hfate key entry (lookup_Some_In _ _ _ Hl) Hk)
        as (fate & Hf & Hres).
      destruct fate as [w|]; [|done].
      inversion Hf; subst. repeat split; try done; try lia. by exists w.
Qed.

Lemma cache_after_success_witness :
  exists result self',
    _async_update_data warmed_up quiet_cycle = (Ok result, self')
    /\ forall key entry,
         Py.lookup key (_warning_cache self') = Some entry ->
         (exists w,
            In w (combined_warnings
                    (fetch_all (session_get quiet_cycle)
                       [(lat_47_5, lon_15_25)]))
            /\ _warning_key w = Ok key
            /\ entry = {| ce_warning := Some w;
                          ce_last_seen_ts := Some (timestamp (utcnow quiet_cycle)) |})
         \/ (Py.lookup key (_warning_cache warmed_up) = Some entry
             /\ 0 < grace_seconds quiet_cycle
             /\ last_seen entry <> 0
             /\ timestamp (utcnow quiet_cycle) - last_seen entry
                <= grace_seconds quiet_cycle
             /\ exists w,
                  _extend_if_grace_applies (cached_warning entry)
                    (timestamp (utcnow quiet_cycle))
                    (grace_seconds quiet_cycle) false
                  = Ok (Some w)).
Proof.
  assert (Hnd : List.NoDup (map fst (_warning_cache warmed_up))).
  { repeat constructor. simpl. tauto. }
  exists (result_of [sample_identified]),
         (snd (_async_update_data warmed_up quiet_cycle)).
  split; [reflexivity|].
  exact (proj2 (cache_after_success warmed_up quiet_cycle
                  [(lat_47_5, lon_15_25)] (result_of [sample_identified])
                  (snd (_async_update_data warmed_up quiet_cycle))
                  Hnd eq_refl eq_refl eq_refl)).
Defined.

(** The output of a cycle in which a fetch succeeded: first what the
    extender, allowing invalid ends, returns for each fetched warning, in
    the order of the replies; then warnings of cache entries that were
    not delivered in this cycle and that the grace rule keeps.  Nothing
    else enters the output. *)
Theorem output_of_success self inp coords result self' :
  List.NoDup (map fst (_warning_cache self)) ->
  resolve_coords inp = Ok coords ->
  any_success (fetch_all (session_get inp) coords) = true ->
  _async_update_data self inp = (Ok result, self') ->
  exists stale,
    warnings_in result
    = flat_map
        (fun w => passed (_extend_if_grace_applies w (timestamp (utcnow inp))
                            (grace_seconds inp) true))
        (combined_warnings (fetch_all (session_get inp) coords))
      ++ stale
    /\ forall w, In w stale ->
         exists key entry,
           Py.lookup key (_warning_cache self) = Some entry
           /\ (forall w',
                 In w' (combined_warnings (fetch_all (session_get inp) coords)) ->
                 _warning_key w' <> Ok key)
           /\ entry_fate entry (timestamp (utcnow inp)) (grace_seconds inp)
                (Some w).
Proof.
  intros Hnd Hc Hs Hrun.
  destruct (successful_cycle _ _ _ _ _ Hc Hs Hrun)
    as (keys & fresh & cache1 & out & expired & Er & Erc & -> & _).
  destruct (refresh_ok _ _ _ _ _ _ _ _ _ Er) as (Hkeys & _ & ->).
  destruct (reconcile_stale _ _ _ _ _ _ _ _ Erc) as (stale & -> & Hst).
  exists stale. split; [done|].
  intros w Hw. destruct (Hst w Hw) as (key & entry & Hin & Hk & Hf).
  exists key, entry.
  assert (Hunseen : forall w',
            In w' (combined_warnings (fetch_all (session_get inp) coords)) ->
            _warning_key w' <> Ok key).
  { intros w' Hw' Hk'. apply Hk, Hkeys. right. by exists w'. }
  split; [|by split].
  destruct (refresh_entries _ _ _ _ _ _ _ _ _ Er key entry Hin)
    as [(w' & Hw' & Hk')|Hold]; [by destruct (Hunseen w' Hw')|].
  by apply In_lookup.
Qed.

Lemma output_of_success_witness :
  exists stale,
    warnings_in (result_of [sample_identified])
    = flat_map
        (fun w => passed (_extend_if_grace_applies w
                            (timestamp (utcnow quiet_cycle))
                            (grace_seconds quiet_cycle) true))
        (combined_warnings
           (fetch_all (session_get quiet_cycle) [(lat_47_5, lon_15_25)]))
      ++ stale
    /\ forall w, In w stale ->
         exists key entry,
           Py.lookup key (_warning_cache warmed_up) = Some entry
           /\ (forall w',
                 In w' (combined_warnings
                          (fetch_all (session_get quiet_cycle)
                             [(lat_47_5, lon_15_25)])) ->
                 _warning_key w' <> Ok key)
           /\ entry_fate entry (timestamp (utcnow quiet_cycle))
                (grace_seconds quiet_cycle) (Some w).
Proof.
  assert (Hnd : List.NoDup (map fst (_warning_cache warmed_up))).
  { repeat constructor. simpl. tauto. }
  exact (output_of_success warmed_up quiet_cycle
           [(lat_47_5, lon_15_25)] (result_of [sample_identified])
           (snd (_async_update_data warmed_up quiet_cycle))
           Hnd eq_refl eq_refl eq_refl).
Defined.

(** ** The status fields after the fetch stage *)

Lemma fetch_all_success_status get coords :
  any_success (fetch_all get coords) = true ->
  max_http_status (fetch_all get coords) <> None.
Proof.
  unfold fetch_all. intros Hs. apply fetch_from_success in Hs.
  destruct Hs as [H|(i & c & Hc & resp & data & Hget & _)]; [done|].
  destruct (fetch_from_max get coords 0%nat
              {| combined_warnings := []; any_success := false;
                 max_http_status := None; error_messages := [] |})
    as (_ & Hup & _).
  destruct (Hup i c resp Hc Hget) as (m & Hm & _). congruence.
Qed.

Lemma fetch_all_no_errors get coords :
  error_messages (fetch_all get coords) = [] <->
  forall i c, coords !! i = Some c -> clean (get i (url_for c)).
Proof.
  unfold fetch_all.
  destruct (fetch_from_split get coords 0%nat
              {| combined_warnings := []; any_success := false;
                 max_http_status := None; error_messages := [] |})
    as (msgs & ws & He & _ & _ & Hnil & _).
  simpl in He. by rewrite He.
Qed.

(** The status fields of the coordinator after a cycle that got as far
    as fetching, whatever came of it afterwards: the status is the highest
    one received, or none when no request was answered; the
    partial-failure flag is off exactly when every coordinate was answered
    cleanly; and the response text is absent exactly when the flag is
    off, and otherwise is the diagnostics joined by a semicolon. *)
Theorem api_status_fields self inp coords :
  resolve_coords inp = Ok coords ->
  last_http_status (snd (_async_update_data self inp))
  = max_http_status (fetch_all (session_get inp) coords)
  /\ (had_partial_failure (snd (_async_update_data self inp)) = false <->
      forall i c, coords !! i = Some c ->
                  clean (session_get inp i (url_for c)))
  /\ (last_http_response (snd (_async_update_data self inp)) = None <->
      had_partial_failure (snd (_async_update_data self inp)) = false)
  /\ (had_partial_failure (snd (_async_update_data self inp)) = true ->
      last_http_response (snd (_async_update_data self inp))
      = Some (Py.join "; "
                (error_messages (fetch_all (session_get inp) coords)))).
Proof.
  intros Hc.
  assert (Hfields :
    last_http_status (snd (_async_update_data self inp))
    = last_http_status
        (set_api_status (set_request_utc self (utcnow inp))
           (fetch_all (session_get inp) coords))
    /\ last_http_response (snd (_async_update_data self inp))
       = last_http_response
           (set_api_status (set_request_utc self (utcnow inp))
              (fetch_all (session_get inp) coords))
    /\ had_partial_failure (snd (_async_update_data self inp))
       = had_partial_failure
           (set_api_status (set_request_utc self (utcnow inp))
              (fetch_all (session_get inp) coords))).
  { destruct (cycle_cases self inp)
      as [(msg & Hc' & _)|[(e' & Hc' & _)|[(coords' & Hc' & _ & ->)
         |(coords' & Hc' & _ & ->)]]];
      rewrite Hc in Hc'; try discriminate; injection Hc' as <-; [|done].
    by destruct (reconcile_cycle_fields
                   (set_api_status (set_request_utc self (utcnow inp))
                      (fetch_all (session_get inp) coords))
                   (fetch_all (session_get inp) coords)
                   (timestamp (utcnow inp)) (grace_seconds inp))
      as (-> & -> & -> & _). }
  destruct Hfields as (-> & -> & ->). cbn [set_api_status last_http_status
    last_http_response had_partial_failure].
  pose proof (fetch_all_success_status (session_get inp) coords) as Hst.
  pose proof (fetch_all_no_errors (session_get inp) coords) as Hclean.
  split; [|split; [|split]].
  - destruct (max_http_status (fetch_all (session_get inp) coords)); [done|].
    destruct (any_success (fetch_all (session_get inp) coords)); [|done].
    by destruct Hst.
  - rewrite <- Hclean.
    by destruct (error_messages (fetch_all (session_get inp) coords)).
  - by destruct (error_messages (fetch_all (session_get inp) coords)).
  - by destruct (error_messages (fetch_all (session_get inp) coords)).
Qed.

Lemma api_status_fields_witness :
  last_http_status (snd (_async_update_data init partial_cycle)) = Some 500
  /\ had_partial_failure (snd (_async_update_data init partial_cycle)) = true
  /\ last_http_status (snd (_async_update_data init partial_cycle))
     = max_http_status
         (fetch_all (session_get partial_cycle)
            [(lat_47_5, lon_15_25); (lat_48_2, lon_16_4)]).
Proof.
  split; [by vm_compute|]. split; [by vm_compute|].
  exact (proj1 (api_status_fields init partial_cycle
                  [(lat_47_5, lon_15_25); (lat_48_2, lon_16_4)]
                  ltac:(by vm_compute))).
Defined.

(** ** The extender and the copy, composed *)

Lemma extend_of_end w end_ts now_ts grace allow :
  _get_end_ts w = Ok end_ts ->
  _extend_if_grace_applies w now_ts grace allow =
  Ok (if end_ts <=? 0 then (if allow then Some w else None)
      else if now_ts <=? end_ts then Some w
      else if now_ts <=? end_ts + grace
           then Some (set_path end_path (PInt (end_ts + grace)) w)
           else None).
Proof.
  intros He. unfold _extend_if_grace_applies. rewrite He, bind_Ok.
  destruct (end_ts <=? 0); [done|]. destruct (now_ts <=? end_ts); [done|].
  destruct (now_ts <=? end_ts + grace); [|done].
  destruct (get_end_ts_inv _ _ He) as (items & props & raw & Hs).
  by rewrite (copy_with_end_set_path _ _ _ _ _ Hs).
Qed.

(** What the extender returns, it returns unchanged when applied to it
    again at the same time and with the same arguments. *)
Theorem extend_idempotent w now_ts grace allow r :
  _extend_if_grace_applies w now_ts grace allow = Ok (Some r) ->
  _extend_if_grace_applies r now_ts grace allow = Ok (Some r).
Proof.
  intros H.
  destruct (_get_end_ts w) as [e|x] eqn:He.
  2:{ unfold _extend_if_grace_applies in H. by rewrite He in H. }
  pose proof H as Hw. rewrite (extend_of_end _ _ _ _ _ He) in Hw.
  destruct (Z.leb_spec e 0).
  { destruct allow; [|discriminate]. by simplify_eq. }
  destruct (Z.leb_spec now_ts e); [by simplify_eq|].
  destruct (Z.leb_spec now_ts (e + grace)); [|discriminate].
  injection Hw as <-.
  destruct (get_end_ts_inv _ _ He) as (items & props & raw & Hs).
  rewrite (extend_of_end _ _ _ _ _ (get_end_ts_copy _ _ _ _ (e + grace) Hs)).
  destruct (Z.leb_spec (e + grace) 0); [lia|].
  destruct (Z.leb_spec now_ts (e + grace)); [done|lia].
Qed.

Lemma extend_idempotent_witness :
  _extend_if_grace_applies (sample_warning (PInt 200)) 210 60 false
  = Ok (Some (sample_warning (PInt 260)))
  /\ _extend_if_grace_applies (sample_warning (PInt 260)) 210 60 false
     = Ok (Some (sample_warning (PInt 260))).
Proof.
  split; [reflexivity|].
  exact (extend_idempotent (sample_warning (PInt 200)) 210 60 false
           (sample_warning (PInt 260)) eq_refl).
Defined.

(** Why the cache must hold the warnings as they were delivered: once
    the grace period after the original end is over, the extender drops
    the original, but it would extend the copy it made earlier a second
    time, to the original end plus twice the grace period. *)
Theorem extension_compounds_on_copies w end_ts now_ts grace allow later :
  _get_end_ts w = Ok end_ts -> 0 < end_ts ->
  end_ts < now_ts -> now_ts <= end_ts + grace ->
  end_ts + grace < later -> later <= end_ts + grace + grace ->
  exists copy again,
    _extend_if_grace_applies w now_ts grace allow = Ok (Some copy)
    /\ _extend_if_grace_applies w later grace allow = Ok None
    /\ _extend_if_grace_applies copy later grace allow = Ok (Some again)
    /\ _get_end_ts again = Ok (end_ts + grace + grace).
Proof.
  intros He Hpos Hlt Hle Hlater Hlater2.
  destruct (get_end_ts_inv _ _ He) as (items & props & raw & Hs).
  pose proof (get_end_ts_copy _ _ _ _ (end_ts + grace) Hs) as Hc.
  pose proof (shaped_copy _ _ _ _ (PInt (end_ts + grace)) Hs) as Hs2.
  exists (set_path end_path (PInt (end_ts + grace)) w),
         (set_path end_path (PInt (end_ts + grace + grace))
            (set_path end_path (PInt (end_ts + grace)) w)).
  rewrite !(extend_of_end _ _ _ _ _ He), (extend_of_end _ _ _ _ _ Hc).
  rewrite (get_end_ts_copy _ _ _ _ _ Hs2).
  repeat match goal with
         | |- context [?a <=? ?b] => destruct (Z.leb_spec a b); try lia
         end.
  done.
Qed.

Lemma extension_compounds_on_copies_witness :
  exists copy again,
    _extend_if_grace_applies (sample_warning (PInt 200)) 210 60 false
    = Ok (Some copy)
    /\ _extend_if_grace_applies (sample_warning (PInt 200)) 300 60 false
       = Ok None
    /\ _extend_if_grace_applies copy 300 60 false = Ok (Some again)
    /\ _get_end_ts again = Ok (200 + 60 + 60).
Proof.
  apply (extension_compounds_on_copies (sample_warning (PInt 200)) 200 210 60
           false 300); [reflexivity|lia|lia|lia|lia|lia].
Defined.

Lemma setitem_setitem {V} key (x y : V) d :
  Py.setitem key y (Py.setitem key x d) = Py.setitem key y d.
Proof.
  induction d as [|[k z] d IH]; simpl.
  - by rewrite String.eqb_refl.
  - destruct (String.eqb k key) eqn:E; simpl; rewrite E; [done|by rewrite IH].
Qed.

(** A copy that [_copy_with_end] returns, whatever it was made from. *)
Lemma copy_with_end_inv w n c :
  _copy_with_end w n = Ok c ->
  exists items props raw,
    w = PDict items
    /\ Py.dict (default (PDict []) (Py.lookup "properties" items)) = Ok props
    /\ Py.dict (default (PDict []) (Py.lookup "rawinfo" props)) = Ok raw
    /\ c = PDict (Py.setitem "properties"
                    (PDict (Py.setitem "rawinfo"
                              (PDict (Py.setitem "end" (PInt n) raw)) props))
                    items).
Proof.
  unfold _copy_with_end. intros H.
  apply bind_Ok_inv in H as (p & Hp & H).
  apply get_ok_inv in Hp as (items & -> & ->).
  apply bind_Ok_inv in H as (props & Hprops & H).
  rewrite get_dict, bind_Ok in H.
  apply bind_Ok_inv in H as (raw & Hraw & H).
  simpl in H. injection H as <-. by exists items, props, raw.
Qed.

(** The end written by [_copy_with_end] is the end read back by
    [_get_end_ts], and a second copy only sees the last end written:
    copying the copy gives what copying the original gives. *)
Theorem copy_with_end_round_trip w n c :
  _copy_with_end w n = Ok c ->
  _get_end_ts c = Ok n
  /\ forall m, _copy_with_end c m = _copy_with_end w m.
Proof.
  intros H.
  destruct (copy_with_end_inv _ _ _ H) as (items & props & raw & -> & Hp & Hr & ->).
  assert (Hs : shaped
            (PDict (Py.setitem "properties"
                      (PDict (Py.setitem "rawinfo"
                                (PDict (Py.setitem "end" (PInt n) raw)) props))
                      items))
            (Py.setitem "properties"
               (PDict (Py.setitem "rawinfo"
                         (PDict (Py.setitem "end" (PInt n) raw)) props))
               items)
            (Py.setitem "rawinfo" (PDict (Py.setitem "end" (PInt n) raw)) props)
            (Py.setitem "end" (PInt n) raw)).
  { split; [done|]. by rewrite !lookup_setitem_eq. }
  split.
  - rewrite (get_end_ts_shaped _ _ _ _ Hs). unfold end_field.
    by rewrite lookup_setitem_eq.
  - intros m. rewrite (copy_with_end_shaped _ _ _ _ _ Hs).
    rewrite !setitem_setitem.
    unfold _copy_with_end. rewrite get_dict, bind_Ok, Hp, bind_Ok.
    by rewrite get_dict, bind_Ok, Hr, bind_Ok.
Qed.

Lemma copy_with_end_round_trip_witness :
  _copy_with_end (sample_warning (PInt 200)) 260
  = Ok (sample_warning (PInt 260))
  /\ _get_end_ts (sample_warning (PInt 260)) = Ok 260
  /\ _copy_with_end (sample_warning (PInt 260)) 300
     = _copy_with_end (sample_warning (PInt 200)) 300.
Proof.
  split; [reflexivity|].
  destruct (copy_with_end_round_trip (sample_warning (PInt 200)) 260
              (sample_warning (PInt 260)) eq_refl) as [H1 H2].
  split; [exact H1|exact (H2 300)].
Defined.

(** ** Errors of the end extraction *)

(** [_get_end_ts] catches what [int()] raises on text and on values
    that are not numbers, and nothing else: when it raises, either the
    warning is not a record (it, its properties or its rawinfo is not a
    dict) and the exception is an [AttributeError], or the warning is a
    record whose end is an infinite float and the exception is the
    [OverflowError] of [int()]; and a record with such an end always
    raises. *)
Theorem get_end_ts_errors w :
  (forall e, _get_end_ts w = Raise e ->
     (exists msg, e = Exn AttributeError msg
                  /\ forall items props raw, ~ shaped w items props raw)
     \/ (e = Exn OverflowError "cannot convert float infinity to integer"
         /\ exists items props raw s,
              shaped w items props raw
              /\ Py.lookup "end" raw = Some (PFloat (S754_infinity s))))
  /\ (forall items props raw s,
        shaped w items props raw ->
        Py.lookup "end" raw = Some (PFloat (S754_infinity s)) ->
        _get_end_ts w
        = raise OverflowError "cannot convert float infinity to integer").
Proof.
  split.
  - intros e H. unfold _get_end_ts in H.
    destruct (rawinfo w) as [r|e'] eqn:Er.
    + rewrite bind_Ok in H.
      destruct r as [| | | | | |raw];
        try (left; simpl in H; injection H as <-; eexists; split; [done|];
             intros its prs rw Hs;
             rewrite (rawinfo_shaped _ _ _ _ Hs) in Er; discriminate).
      right. destruct (rawinfo_inv _ _ Er) as (items & props & Hs).
      rewrite get_dict, bind_Ok in H.
      destruct (Py.int (default (PInt 0) (Py.lookup "end" raw)))
        as [n|[c msg]] eqn:Ei; [discriminate|].
      destruct (int_raise_class _ _ _ Ei) as [->|[->|[-> [s Hv]]]];
        try discriminate.
      destruct (Py.lookup "end" raw) as [v|] eqn:El; [|discriminate].
      simpl in Hv. subst v. simpl in Ei. injection Ei as <-.
      simpl in H. injection H as <-. split; [done|].
      by exists items, props, raw, s.
    + rewrite bind_Raise in H. injection H as <-. left.
      unfold rawinfo in Er.
      destruct w as [| | | | | |items];
        try (simpl in Er; injection Er as <-; eexists; split; [done|];
             by intros its prs rw [? _]).
      rewrite get_dict, bind_Ok in Er.
      destruct (default (PDict []) (Py.lookup "properties" items))
        as [| | | | | |props] eqn:Ep;
        try (simpl in Er; injection Er as <-; eexists; split; [done|];
             intros its prs rw (Hi & Hp & _); injection Hi as <-;
             rewrite Ep in Hp; discriminate).
      by rewrite get_dict in Er.
  - intros items props raw s Hs Hl.
    rewrite (get_end_ts_shaped _ _ _ _ Hs). unfold end_field. by rewrite Hl.
Qed.

(** ** The coordinates of a cycle *)

(** A cycle that fetches always starts with the anchor: the coordinates
    are the anchor's latitude and longitude as floats, followed by the
    extra coordinates of the configuration.  So the list is never empty,
    and of the four reasons the cycle has for aborting before the first
    request, ["no coordinates to query"] is never given. *)
Theorem anchor_always_queried inp :
  (forall coords,
     resolve_coords inp = Ok coords ->
     exists attributes lat lon more,
       zone_home inp = Some attributes
       /\ Py.float (default PNone (Py.lookup "latitude" attributes)) = Ok lat
       /\ Py.float (default PNone (Py.lookup "longitude" attributes)) = Ok lon
       /\ _parse_extra_coords (extra inp) = Ok more
       /\ coords = (lat, lon) :: more)
  /\ (forall msg,
        resolve_coords inp = raise UpdateFailed msg ->
        In msg ["zone.home not found"; "zone.home has no coordinates";
                "zone.home has invalid coordinates"]).
Proof.
  split.
  - intros coords H.
    destruct (zone_home inp) as [attributes|] eqn:Hz.
    2:{ unfold resolve_coords in H. by rewrite Hz in H. }
    assert (Hlon : default PNone (Py.lookup "longitude" attributes) <> PNone).
    { intros Hn. unfold resolve_coords in H. by rewrite Hz, Hn in H. }
    assert (Hlat : default PNone (Py.lookup "latitude" attributes) <> PNone).
    { intros Hn. unfold resolve_coords in H. rewrite Hz, Hn in H.
      by destruct (default PNone (Py.lookup "longitude" attributes)). }
    rewrite (resolve_coords_anchor _ _ Hz Hlon Hlat) in H.
    destruct (Py.float (default PNone (Py.lookup "latitude" attributes)))
      as [la|e] eqn:Ela.
    2:{ rewrite bind_Raise in H. cbn [try_except] in H.
        destruct (catches _ e); [by rewrite bind_Ok in H|by rewrite bind_Raise in H]. }
    rewrite bind_Ok in H.
    destruct (Py.float (default PNone (Py.lookup "longitude" attributes)))
      as [lo|e] eqn:Elo.
    2:{ rewrite bind_Raise in H. cbn [try_except] in H.
        destruct (catches _ e); [by rewrite bind_Ok in H|by rewrite bind_Raise in H]. }
    rewrite bind_Ok, try_except_Ok, bind_Ok in H.
    apply bind_Ok_inv in H as (more & Hm & [= <-]).
    by exists attributes, la, lo, more.
  - intros msg H. apply resolve_coords_fatal in H.
    destruct H; simpl; tauto.
Qed.

(** ** Configuration values *)

(** A value set in the options wins over the one in the data, and that
    over the default; and a key that is present counts even when its
    value is [None] or otherwise falsy.  So setting an option changes what
    is read for its key, to any value, and for no other key; and setting a
    data value is seen exactly by the keys the options do not hold. *)
Theorem entry_value_precedence entry key x default_ :
  _get_entry_value
    {| options := Py.setitem key x (options entry); data := data entry |}
    key default_ = x
  /\ (forall other,
        key <> other ->
        _get_entry_value
          {| options := Py.setitem key x (options entry); data := data entry |}
          other default_
        = _get_entry_value entry other default_
        /\ _get_entry_value
             {| options := options entry;
                data := Py.setitem key x (data entry) |}
             other default_
           = _get_entry_value entry other default_)
  /\ _get_entry_value
       {| options := options entry; data := Py.setitem key x (data entry) |}
       key default_
     = default x (Py.lookup key (options entry))
  /\ (Py.lookup key (options entry) = None ->
      Py.lookup key (data entry) = None ->
      _get_entry_value entry key default_ = default_).
Proof.
  unfold _get_entry_value; simpl. split; [by rewrite lookup_setitem_eq|].
  split; [|split].
  - intros other Hne. by rewrite !lookup_setitem_ne.
  - rewrite lookup_setitem_eq. by destruct (Py.lookup key (options entry)).
  - by intros -> ->.
Qed.

(** ** The key of a warning *)

(** The key of a record is derived from the first of the fields [id],
    [awcode], [warnid], [wcode] whose value is truthy: the name of the
    field, a colon and the value as [str()] gives it.  Fields before it
    that are missing, [None], zero or empty are passed over, and the fields
    after it are not looked at. *)
Theorem warning_key_first_truthy w items props raw before field after :
  shaped w items props raw ->
  identity_fields = before ++ field :: after ->
  (forall f, In f before ->
             Py.truthy (default PNone (Py.lookup f raw)) = false) ->
  Py.truthy (default PNone (Py.lookup field raw)) = true ->
  _warning_key w
  = Ok (field +:+ ":" +:+ Py.str (default PNone (Py.lookup field raw))).
Proof.
  intros Hs Hf Hbefore Hfield. rewrite (warning_key_shaped _ _ _ _ Hs), Hf.
  clear Hf. induction before as [|f before IH]; simpl app.
  - by rewrite identity_key_cons; cbn zeta; rewrite Hfield.
  - rewrite identity_key_cons; cbn zeta.
    rewrite (Hbefore f) by (by left). apply IH.
    intros g Hg. apply Hbefore. by right.
Qed.

Lemma warning_key_first_truthy_witness :
  _warning_key sample_identified = Ok "warnid:4711".
Proof.
  apply (warning_key_first_truthy sample_identified
           [("properties",
             PDict [("rawinfo",
                     PDict [("warnid", PInt 4711); ("wtype", PInt 1);
                            ("end", PInt 200)])])]
           [("rawinfo",
             PDict [("warnid", PInt 4711); ("wtype", PInt 1);
                    ("end", PInt 200)])]
           [("warnid", PInt 4711); ("wtype", PInt 1); ("end", PInt 200)]
           ["id"; "awcode"] "warnid" ["wcode"]).
  - by repeat split.
  - reflexivity.
  - intros f [<-|[<-|[]]]; reflexivity.
  - reflexivity.
Defined.

(** ** Joining two texts of extra coordinates *)

Lemma split_nonempty sep s : Py.split sep s <> [].
Proof.
  destruct s as [|c r]; simpl; [done|].
  destruct (Ascii.eqb c sep); [done|]. by destruct (Py.split sep r).
Qed.

Lemma split_app sep a b :
  Py.split sep (a +:+ String sep b) = Py.split sep a ++ Py.split sep b.
Proof.
  induction a as [|c r IH]; simpl.
  - by rewrite Ascii.eqb_refl.
  - destruct (Ascii.eqb c sep); [by rewrite IH|].
    rewrite IH. pose proof (split_nonempty sep r) as Hne.
    by destruct (Py.split sep r).
Qed.

Lemma parse_extra_coords_omap text :
  _parse_extra_coords text = Ok (omap segment_coord (Py.split ";" text)).
Proof.
  unfold _parse_extra_coords.
  destruct (String.eqb_spec text "") as [->|Hne]; [done|].
  by rewrite parse_parts_spec.
Qed.

(** Two texts joined by a semicolon give the coordinates of the first
    followed by the coordinates of the second, whatever the texts are:
    no segment is lost or merged at the joint, also when one of the texts
    is empty or ends in a separator. *)
Theorem parse_extra_coords_joined a b :
  exists first second,
    _parse_extra_coords a = Ok first
    /\ _parse_extra_coords b = Ok second
    /\ _parse_extra_coords (a +:+ ";" +:+ b) = Ok (first ++ second).
Proof.
  exists (omap segment_coord (Py.split ";" a)),
         (omap segment_coord (Py.split ";" b)).
  rewrite !parse_extra_coords_omap. split; [done|]. split; [done|].
  change (";" +:+ b) with (String ";"%char b).
  by rewrite split_app, omap_app.
Qed.

(** ** What a cycle can raise *)

Lemma rawinfo_raise w e :
  rawinfo w = Raise e -> exists msg, e = Exn AttributeError msg.
Proof.
  unfold rawinfo. intros H.
  destruct w as [| | | | | |items]; try (injection H as <-; by eexists).
  rewrite get_dict, bind_Ok in H.
  destruct (default (PDict []) (Py.lookup "properties" items));
    try (injection H as <-; by eexists).
  by rewrite get_dict in H.
Qed.

Lemma get_end_ts_raise w e :
  _get_end_ts w = Raise e ->
  exists msg, e = Exn AttributeError msg \/ e = Exn OverflowError msg.
Proof.
  unfold _get_end_ts. intros H.
  destruct (rawinfo w) as [r|e'] eqn:Er.
  2:{ injection H as <-. destruct (rawinfo_raise _ _ Er) as [msg ->]. eauto. }
  rewrite bind_Ok in H.
  destruct r as [| | | | | |raw]; try (injection H as <-; by eexists; left).
  rewrite get_dict, bind_Ok in H.
  destruct (Py.int (default (PInt 0) (Py.lookup "end" raw)))
    as [n|[c msg]] eqn:Ei; [discriminate|].
  destruct (int_raise_class _ _ _ Ei) as [->|[->|[-> _]]]; try discriminate.
  injection H as <-. eauto.
Qed.

Lemma extend_raise w now_ts grace allow e :
  _extend_if_grace_applies w now_ts grace allow = Raise e ->
  exists msg, e = Exn AttributeError msg \/ e = Exn OverflowError msg.
Proof.
  intros H. destruct (_get_end_ts w) as [end_ts|e'] eqn:He.
  - by rewrite (extend_of_end _ _ _ _ _ He) in H.
  - unfold _extend_if_grace_applies in H. rewrite He in H.
    injection H as <-. by apply get_end_ts_raise in He.
Qed.

Lemma identity_key_total raw keys :
  exists found, identity_key (PDict raw) keys = Ok found.
Proof.
  induction keys as [|key keys IH]; [by eexists|].
  rewrite identity_key_cons. cbn zeta.
  destruct (Py.truthy _); [by eexists|done].
Qed.

Lemma warning_key_raise w e :
  _warning_key w = Raise e ->
  (exists msg, e = Exn AttributeError msg)
  /\ forall items props raw, ~ shaped w items props raw.
Proof.
  intros H. split.
  - unfold _warning_key in H.
    destruct (rawinfo w) as [r|e'] eqn:Er.
    2:{ injection H as <-. by apply rawinfo_raise in Er. }
    rewrite bind_Ok in H.
    destruct r as [| | | | | |raw]; try (injection H as <-; by eexists).
    destruct (identity_key_total raw identity_fields) as [found Hf].
    rewrite Hf, bind_Ok in H. destruct found; [discriminate|].
    by rewrite !get_dict in H.
  - intros items props raw Hs. rewrite (warning_key_shaped _ _ _ _ Hs) in H.
    destruct (identity_key_total raw identity_fields) as [found Hf].
    rewrite Hf, bind_Ok in H. by destruct found.
Qed.

Lemma refresh_raise ws now_ts grace : forall cache keys out e cache',
  refresh ws now_ts grace cache keys out = (Raise e, cache') ->
  exists msg, e = Exn AttributeError msg \/ e = Exn OverflowError msg.
Proof.
  induction ws as [|w ws IH]; intros cache keys out e cache' H; [done|].
  rewrite refresh_cons in H.
  destruct (_warning_key w) as [key|e'] eqn:Ek.
  2:{ injection H as <- _. destruct (warning_key_raise _ _ Ek) as [[msg ->] _].
      eauto. }
  cbn zeta in H.
  destruct (_extend_if_grace_applies w now_ts grace true) as [extended|e'] eqn:Ex.
  - by eapply IH.
  - injection H as <- _. by eapply extend_raise.
Qed.

Lemma reconcile_raise entries keys now_ts grace : forall out expired e,
  reconcile entries keys now_ts grace out expired = Raise e ->
  exists msg, e = Exn AttributeError msg \/ e = Exn OverflowError msg.
Proof.
  induction entries as [|[key entry] rest IH]; intros out expired e H; [done|].
  rewrite reconcile_cons in H.
  destruct (bool_decide (key ∈ keys)); [by eapply IH|].
  destruct ((grace <=? 0) || (last_seen entry =? 0)); [by eapply IH|].
  destruct (grace <? now_ts - last_seen entry); [by eapply IH|].
  destruct (_extend_if_grace_applies (cached_warning entry) now_ts grace false)
    as [[w|]|e'] eqn:Ex.
  - rewrite bind_Ok in H. by eapply IH.
  - rewrite bind_Ok in H. by eapply IH.
  - injection H as <-. by eapply extend_raise.
Qed.

Lemma resolve_coords_raise inp cls msg :
  resolve_coords inp = Raise (Exn cls msg) ->
  cls = UpdateFailed \/ cls = OverflowError.
Proof.
  intros H.
  destruct (zone_home inp) as [attributes|] eqn:Hz.
  2:{ unfold resolve_coords in H. rewrite Hz in H. injection H as <- _. by left. }
  assert (Hdec : forall v : pyval, v = PNone \/ v <> PNone)
    by (intros []; by (left + right)).
  destruct (Hdec (default PNone (Py.lookup "longitude" attributes)))
    as [Hlon|Hlon].
  { unfold resolve_coords in H. rewrite Hz, Hlon in H. injection H as <- _.
    by left. }
  destruct (Hdec (default PNone (Py.lookup "latitude" attributes)))
    as [Hlat|Hlat].
  { unfold resolve_coords in H. rewrite Hz, Hlat in H.
    destruct (default PNone (Py.lookup "longitude" attributes));
      injection H as <- _; by left. }
  rewrite (resolve_coords_anchor _ _ Hz Hlon Hlat) in H.
  match type of H with
  | (try_except ?body _ _ ≫= _) = _ => destruct body as [[c|]|[cls' m]] eqn:Ea
  end; cbn [try_except] in H.
  - rewrite bind_Ok in H.
    destruct (parse_extra_coords_total (extra inp)) as [more Hm].
    by rewrite Hm in H.
  - rewrite bind_Ok in H. injection H as <- _. by left.
  - apply anchor_raise_class in Ea as [-> | [-> | ->]]; simpl in H.
    + injection H as <- _. by left.
    + injection H as <- _. by left.
    + injection H as <- _. by right.
Qed.

(** Whatever the inputs, a cycle raises only three kinds of exception:
    [UpdateFailed], with one of four reasons; [AttributeError], when the
    service or the cache hands it a warning that is not a record; and
    [OverflowError], from a coordinate or an end that does not fit.  A
    [TypeError] or [ValueError] never leaves [_async_update_data]. *)
Theorem cycle_exception_classes self inp cls msg :
  fst (_async_update_data self inp) = Raise (Exn cls msg) ->
  (cls = UpdateFailed
   /\ In msg ["zone.home not found"; "zone.home has no coordinates";
              "zone.home has invalid coordinates";
              "Error fetching data: all requests failed"])
  \/ cls = AttributeError \/ cls = OverflowError.
Proof.
  destruct (cycle_cases self inp)
    as [(m & Hc & ->)|[(e' & Hc & ->)|[(coords & Hc & Hs & ->)
       |(coords & Hc & Hs & ->)]]]; simpl.
  - intros [= -> ->]. left. split; [done|].
    apply resolve_coords_fatal in Hc. destruct Hc; simpl; tauto.
  - intros [= ->]. destruct (resolve_coords_raise _ _ _ Hc) as [-> | ->].
    + left. split; [done|].
      apply resolve_coords_fatal in Hc. destruct Hc; simpl; tauto.
    + by right; right.
  - unfold reconcile_cycle.
    destruct (refresh _ _ _ _ _ _) as [[[keys fresh]|e] cache] eqn:Er.
    + destruct (reconcile _ _ _ _ _ _) as [[out expired]|e] eqn:Erc; [done|].
      intros [= ->]. apply reconcile_raise in Erc as [m [[= -> _]|[= -> _]]];
        [by right; left|by right; right].
    + intros [= ->]. apply refresh_raise in Er as [m [[= -> _]|[= -> _]]];
        [by right; left|by right; right].
  - destruct (_last_successful_data self); [done|].
    intros [= <- <-]. left. split; [done|]. simpl. tauto.
Qed.

Lemma cycle_exception_classes_witness :
  fst (_async_update_data warmed_up malformed_cycle)
  = Raise (Exn AttributeError "'str' object has no attribute 'get'")
  /\ ((AttributeError = UpdateFailed
       /\ In "'str' object has no attribute 'get'"
            ["zone.home not found"; "zone.home has no coordinates";
             "zone.home has invalid coordinates";
             "Error fetching data: all requests failed"])
      \/ AttributeError = AttributeError \/ AttributeError = OverflowError).
Proof.
  split; [reflexivity|].
  exact (cycle_exception_classes warmed_up malformed_cycle AttributeError
           "'str' object has no attribute 'get'" eq_refl).
Defined.

(** The cache changes only in a cycle in which a fetch succeeded: a
    cycle that aborts, that raises before fetching or whose requests all
    fail leaves every entry as it was. *)
Theorem cache_changes_only_on_success self inp :
  (exists coords,
     resolve_coords inp = Ok coords
     /\ any_success (fetch_all (session_get inp) coords) = true)
  \/ _warning_cache (snd (_async_update_data self inp)) = _warning_cache self.
Proof.
  destruct (cycle_cases self inp)
    as [(m & Hc & ->)|[(e' & Hc & ->)|[(coords & Hc & Hs & ->)
       |(coords & Hc & Hs & ->)]]]; try (by right).
  left. by exists coords.
Qed.

(** [_warning_key] gives a key for every record, and raises only an
    [AttributeError], on a warning that is not a record. *)
Theorem warning_key_errors w :
  (forall items props raw,
     shaped w items props raw -> exists key, _warning_key w = Ok key)
  /\ (forall e,
        _warning_key w = Raise e ->
        (exists msg, e = Exn AttributeError msg)
        /\ forall items props raw, ~ shaped w items props raw).
Proof.
  split; [|apply warning_key_raise].
  intros items props raw Hs. rewrite (warning_key_shaped _ _ _ _ Hs).
  destruct (identity_key_total raw identity_fields) as [found ->].
  rewrite bind_Ok. destruct found; by eexists.
Qed.

(** ** No expired warning in the output *)

(** The end of what the extender returns: not before [now_ts], unless the
    warning has no valid end and was passed through as it is. *)
Lemma extend_result_end w now_ts grace allow r :
  _extend_if_grace_applies w now_ts grace allow = Ok (Some r) ->
  exists end_ts,
    _get_end_ts r = Ok end_ts
    /\ (now_ts <= end_ts \/ (end_ts <= 0 /\ r = w /\ allow = true)).
Proof.
  intros H.
  destruct (_get_end_ts w) as [e|x] eqn:He.
  2:{ unfold _extend_if_grace_applies in H. by rewrite He in H. }
  rewrite (extend_of_end _ _ _ _ _ He) in H.
  destruct (Z.leb_spec e 0).
  { destruct allow; [|discriminate]. injection H as <-. exists e. split; [done|].
    by right. }
  destruct (Z.leb_spec now_ts e).
  { injection H as <-. exists e. split; [done|by left]. }
  destruct (Z.leb_spec now_ts (e + grace)); [|discriminate].
  injection H as <-.
  destruct (get_end_ts_inv _ _ He) as (items & props & raw & Hs).
  exists (e + grace). split; [by apply (get_end_ts_copy _ _ _ _ _ Hs)|by left].
Qed.

(** No warning in the result of a cycle has ended before the time of the
    cycle: each one has an end that [_get_end_ts] extracts, and this end
    is not before the time of the cycle, except for warnings delivered in
    this very cycle without a valid end, which are passed on as they
    are. *)
Theorem output_not_expired self inp coords result self' w :
  resolve_coords inp = Ok coords ->
  any_success (fetch_all (session_get inp) coords) = true ->
  _async_update_data self inp = (Ok result, self') ->
  In w (warnings_in result) ->
  exists end_ts,
    _get_end_ts w = Ok end_ts
    /\ (timestamp (utcnow inp) <= end_ts
        \/ (end_ts <= 0
            /\ In w (combined_warnings (fetch_all (session_get inp) coords)))).
Proof.
  intros Hc Hs Hrun Hw.
  destruct (successful_cycle _ _ _ _ _ Hc Hs Hrun)
    as (keys & fresh & cache1 & out & expired & Er & Erc & -> & _).
  destruct (refresh_ok _ _ _ _ _ _ _ _ _ Er) as (_ & _ & ->).
  destruct (reconcile_stale _ _ _ _ _ _ _ _ Erc) as (stale & -> & Hst).
  cbn [warnings_in result_of app] in Hw.
  apply in_app_or in Hw as [Hw|Hw].
  - apply in_flat_map in Hw as (w0 & Hw0 & Hp).
    destruct (_extend_if_grace_applies w0 (timestamp (utcnow inp))
                (grace_seconds inp) true) as [[r|]|e] eqn:Ex; try done.
    destruct Hp as [<-|[]].
    destruct (extend_result_end _ _ _ _ _ Ex) as (e & He & [Hle|(Hle & -> & _)]).
    + exists e. split; [done|by left].
    + exists e. split; [done|]. right. by split.
  - destruct (Hst w Hw) as (key & entry & _ & _ & Hf).
    inversion Hf as [| |w' Hg Hl Hn Hx|]; subst.
    destruct (extend_result_end _ _ _ _ _ Hx) as (e & He & [Hle|(_ & _ & [=])]).
    exists e. split; [done|by left].
Qed.

Lemma output_not_expired_witness :
  In sample_identified (warnings_in (result_of [sample_identified]))
  /\ exists end_ts,
       _get_end_ts sample_identified = Ok end_ts
       /\ (timestamp (utcnow quiet_cycle) <= end_ts
           \/ (end_ts <= 0
               /\ In sample_identified
                    (combined_warnings
                       (fetch_all (session_get quiet_cycle)
                          [(lat_47_5, lon_15_25)])))).
Proof.
  assert (Hin : In sample_identified
                  (warnings_in (result_of [sample_identified])))
    by (by left).
  split; [exact Hin|].
  exact (output_not_expired warmed_up quiet_cycle [(lat_47_5, lon_15_25)]
           (result_of [sample_identified])
           (snd (_async_update_data warmed_up quiet_cycle))
           sample_identified eq_refl eq_refl eq_refl Hin).
Defined.
